(** * The HMM part-of-speech tagger of [viterbiPOStagger.py]

    A shallow embedding of the training procedure (initial, transition and
    emission estimation, Laplace smoothing), of the unknown-word patches, of
    the Viterbi decoder, of the module-level script that runs them and of
    the corpus reader and writer, followed by the properties claimed about
    them.

    Conventions of the embedding.
    - A Python [dict] is an insertion-ordered association list with distinct
      keys ([dict V]); [d[k]] on a missing key raises [KeyError].
    - A Python [set] of strings ([pos], [training_vocab], [test_vocab]) is a
      list; the theorems assume [NoDup] where the order of iteration or the
      number of elements matters.
    - Exceptions are values of an error monad ([result]).
    - Floating-point numbers are idealised as exact real numbers.  A
      probability is a rational ([Q]).  An entry of a probability table is a
      [num]: either [float('-inf')] or the real number [r + log2 (a / b)],
      which is closed under the additions the decoder performs and has a
      decidable order.  Rounding, NaN and overflow are outside the model.
    - The module-level name [pos] read by the helper functions is an explicit
      argument.  The decoder is always called with [states = pos], so its
      embedding has the single argument [states].
    - The corpus reader and writer are modelled on texts, from what [read()]
      returns to what [write] receives; a text is a list of characters. *)

From Stdlib Require Import List String Ascii ZArith QArith Qreals Bool Lia Lra Reals
  Permutation.
Import ListNotations.
Local Open Scope string_scope.
Local Open Scope list_scope.

(** ** Exceptions and the error monad *)

Inductive exn : Set :=
| IndexError
| KeyError
| ValueError
| ZeroDivisionError
| UnboundLocalError.

Inductive result (E A : Type) : Type :=
| Ok (a : A)
| Raise (e : E).

Arguments Ok {E A} a.
Arguments Raise {E A} e.

Definition bind {E A B : Type} (m : result E A) (k : A -> result E B) : result E B :=
  match m with
  | Ok a => k a
  | Raise e => Raise e
  end.

Notation "x <- m ;; k" := (bind m (fun x => k))
  (at level 61, m at next level, right associativity).
Notation "' p <- m ;; k" := (bind m (fun p => k))
  (at level 61, p pattern, m at next level, right associativity).

(** A comprehension or a [for] loop whose body may raise: the first failing
    element aborts the whole loop. *)
Fixpoint mapM {E A B : Type} (f : A -> result E B) (l : list A) : result E (list B) :=
  match l with
  | [] => Ok []
  | x :: rest =>
      y <- f x ;;
      ys <- mapM f rest ;;
      Ok (y :: ys)
  end.

(** ** Dictionaries *)

Definition dict (V : Type) : Type := list (string * V).

Fixpoint get {V : Type} (k : string) (d : dict V) : option V :=
  match d with
  | [] => None
  | (k', v) :: rest => if k' =? k then Some v else get k rest
  end.

(** [k in d] *)
Definition mem {V : Type} (k : string) (d : dict V) : bool :=
  match get k d with
  | Some _ => true
  | None => false
  end.

(** [d[k] = v]: overwrite in place, or append a new key. *)
Fixpoint put {V : Type} (k : string) (v : V) (d : dict V) : dict V :=
  match d with
  | [] => [(k, v)]
  | (k', v') :: rest => if k' =? k then (k, v) :: rest else (k', v') :: put k v rest
  end.

(** [d[k]] as an expression. *)
Definition lookup {V : Type} (k : string) (d : dict V) : result exn V :=
  match get k d with
  | Some v => Ok v
  | None => Raise KeyError
  end.

Definition keys {V : Type} (d : dict V) : list string := map fst d.
Definition values {V : Type} (d : dict V) : list V := map snd d.

(** [l[i]] on a Python list, negative indices counting from the end. *)
Definition list_index {A : Type} (l : list A) (i : Z) : result exn A :=
  let n := Z.of_nat (List.length l) in
  let i' := if (i <? 0)%Z then (i + n)%Z else i in
  if (i' <? 0)%Z then Raise IndexError
  else match nth_error l (Z.to_nat i') with
       | Some x => Ok x
       | None => Raise IndexError
       end.

(** ** Numbers *)

(** [Fin r a b] is the real number [r + log2 (a / b)]. *)
Inductive num : Type :=
| NegInf
| Fin (r : Q) (a b : positive).

(** A number written as such in the program (the [0] of [add_emis], a
    probability stored without taking its logarithm). *)
Definition lit (x : Q) : num := Fin x 1 1.

(** [math.log2 (p)], for [p > 0]; the program guards every call. *)
Definition log2 (p : Q) : num := Fin 0 (Z.to_pos (Qnum p)) (Qden p).

(** [x + y] on floats; [-inf] absorbs every finite number. *)
Definition add (x y : num) : num :=
  match x, y with
  | Fin r1 a1 b1, Fin r2 a2 b2 => Fin (r1 + r2) (a1 * a2) (b1 * b2)
  | _, _ => NegInf
  end.

(** The sign of [n/m + log2 (a / b)] is the sign of
    [log2 (2^n * a^m / b^m)], decided on integers. *)
Definition sgn (r : Q) (a b : positive) : comparison :=
  let n := Qnum r in
  let m := Zpos (Qden r) in
  (2 ^ Z.max n 0 * Zpos a ^ m ?= 2 ^ Z.max (- n) 0 * Zpos b ^ m)%Z.

(** Three-way comparison of floats. *)
Definition num_cmp (x y : num) : comparison :=
  match x, y with
  | NegInf, NegInf => Eq
  | NegInf, Fin _ _ _ => Lt
  | Fin _ _ _, NegInf => Gt
  | Fin r1 a1 b1, Fin r2 a2 b2 => sgn (r1 - r2) (a1 * b2) (b1 * a2)
  end.

Definition is_neg_inf (x : num) : bool :=
  match x with
  | NegInf => true
  | Fin _ _ _ => false
  end.

(** [a / b] on integers: true division. *)
Definition truediv (a b : Z) : result exn Q :=
  if (b =? 0)%Z then Raise ZeroDivisionError
  else Ok (inject_Z a / inject_Z b)%Q.

(** The pattern
    [if x != 0: x = math.log2(x) else: x = float('-inf')]
    that every estimator applies to its probabilities. *)
Definition log_prob (x : Q) : num :=
  if negb (Qeq_bool x 0) then log2 x else NegInf.

(** [collections.Counter(l)[p]]: the number of occurrences, 0 when absent. *)
Definition Counter_get (l : list string) (p : string) : Z :=
  Z.of_nat (count_occ string_dec l p).

(** ** Module 2: training *)

Definition find_init_prob (training_sent_init pos : list string)
  : result exn (dict num) :=
  init_probs <-
    mapM (fun p =>
            x <- truediv (Counter_get training_sent_init p)
                         (Z.of_nat (List.length training_sent_init)) ;;
            Ok (p, x)) pos ;;
  Ok (map (fun '(tag, x) => (tag, log_prob x)) init_probs).

Definition empty_dic (pos : list string) : dict Z :=
  map (fun p => (p, 0%Z)) pos.

(** The loop [for x in range(len(training_tags)-1)] over adjacent tags. *)
Fixpoint count_transitions (training_tags : list string) (pos_counts : dict (dict Z))
  : result exn (dict (dict Z)) :=
  match training_tags with
  | [] => Ok pos_counts
  | x :: rest =>
      match rest with
      | [] => Ok pos_counts
      | y :: _ =>
          row <- lookup x pos_counts ;;
          c <- lookup y row ;;
          count_transitions rest (put x (put y (c + 1)%Z row) pos_counts)
      end
  end.

Definition find_trans_prob (training_tags pos : list string)
  : result exn (dict (dict num)) :=
  let total_count := Counter_get training_tags in
  let pos_counts := map (fun tag => (tag, empty_dic pos)) pos in
  pos_counts <- count_transitions training_tags pos_counts ;;
  mapM (fun '(tag, row) =>
          row' <- mapM (fun '(word, c) =>
                          x <- truediv c (total_count tag) ;;
                          Ok (word, log_prob x)) row ;;
          Ok (tag, row')) pos_counts.

(** The counting loop shared by [find_emis_prob] and [laplace_emis_prob]. *)
Fixpoint count_emissions (training_tagged : list (string * string))
  (pos_counts : dict (dict Z)) : result exn (dict (dict Z)) :=
  match training_tagged with
  | [] => Ok pos_counts
  | (word, tag) :: rest =>
      row <- lookup tag pos_counts ;;
      let row' :=
        match get word row with
        | None => put word 1%Z row
        | Some c => put word (c + 1)%Z row
        end in
      count_emissions rest (put tag row' pos_counts)
  end.

Definition sum (l : list Z) : Z := fold_right Z.add 0%Z l.

(** [{tag: sum(total_count[tag].values()) for tag in pos}] *)
Definition count_totals (pos : list string) (pos_counts : dict (dict Z))
  : result exn (dict Z) :=
  mapM (fun tag => row <- lookup tag pos_counts ;; Ok (tag, sum (values row))) pos.

Definition find_emis_prob (training_tagged : list (string * string)) (pos : list string)
  : result exn (dict (dict num)) :=
  pos_counts <- count_emissions training_tagged (map (fun p => (p, [])) pos) ;;
  total_count <- count_totals pos pos_counts ;;
  mapM (fun '(tag, row) =>
          row' <- mapM (fun '(word, c) =>
                          t <- lookup tag total_count ;;
                          x <- truediv c t ;;
                          Ok (word, log_prob x)) row ;;
          Ok (tag, row')) pos_counts.

(** The two assignments inside the loops of [laplace_emis_prob]: the
    smoothed entry of a word seen under [tag], and the residual of a tag. *)
Definition smooth (V : Z) (total_count : dict Z) (tag : string)
  : string * Z -> result exn (string * num) :=
  fun '(word, c) =>
    t <- lookup tag total_count ;;
    x <- truediv (c + 1) (t + V) ;;
    Ok (word, log_prob x).

Definition residual (V : Z) (total_count : dict Z) (tag : string)
  : result exn (string * Q) :=
  t <- lookup tag total_count ;;
  x <- truediv 1 (t + V) ;;
  Ok (tag, x).

(** The body of [for tag in pos_counts] in [laplace_emis_prob]: the row of
    [tag] is smoothed, then [unseen_values] is (re)computed for every tag.
    [unseen] is [None] while the name is still unbound. *)
Fixpoint laplace_rows (V : Z) (pos : list string) (total_count : dict Z)
  (pos_counts : dict (dict Z)) (unseen : option (dict Q))
  : result exn (dict (dict num) * option (dict Q)) :=
  match pos_counts with
  | [] => Ok ([], unseen)
  | (tag, row) :: rest =>
      row' <- mapM (smooth V total_count tag) row ;;
      unseen_values <- mapM (residual V total_count) pos ;;
      '(rest', u) <- laplace_rows V pos total_count rest (Some unseen_values) ;;
      Ok ((tag, row') :: rest', u)
  end.

(** [training_vocab] is the module-level set of training words. *)
Definition laplace_emis_prob (training_vocab : list string)
  (training_tagged : list (string * string)) (pos : list string)
  : result exn (dict (dict num) * dict Q) :=
  let V := Z.of_nat (List.length training_vocab) in
  pos_counts <- count_emissions training_tagged (map (fun p => (p, [])) pos) ;;
  total_count <- count_totals pos pos_counts ;;
  '(smoothed, unseen) <- laplace_rows V pos total_count pos_counts None ;;
  match unseen with
  | Some unseen_values => Ok (smoothed, unseen_values)
  | None => Raise UnboundLocalError
  end.

(** ** Unknown word handling *)

(** [[w for w in test_vocab if w not in training_vocab]] *)
Definition unknown_words (test_vocab training_vocab : list string) : list string :=
  filter (fun w => negb (existsb (String.eqb w) training_vocab)) test_vocab.

(** The double loop of [add_emis] and [laplace_add_emis]:
    [for word in unknown_words: for j in pos: table[j][word] = value j],
    the right-hand side being evaluated first. *)
Section Patch.
Variable value : string -> result exn num.
Variable pos : list string.

Fixpoint patch_word (js : list string) (word : string) (table : dict (dict num))
  : result exn (dict (dict num)) :=
  match js with
  | [] => Ok table
  | j :: js' =>
      v <- value j ;;
      row <- lookup j table ;;
      patch_word js' word (put j (put word v row) table)
  end.

Fixpoint patch (table : dict (dict num)) (words : list string)
  : result exn (dict (dict num)) :=
  match words with
  | [] => Ok table
  | word :: rest =>
      table' <- patch_word pos word table ;;
      patch table' rest
  end.
End Patch.

Definition add_emis (pos : list string) (emis_prob : dict (dict num))
  (unknown_words : list string) : result exn (dict (dict num)) :=
  patch (fun _ => Ok (lit 0)) pos emis_prob unknown_words.

Definition laplace_add_emis (pos : list string) (smoothed_emis_prob : dict (dict num))
  (unknown_words : list string) (unseen_values : dict Q)
  : result exn (dict (dict num)) :=
  patch (fun j => x <- lookup j unseen_values ;; Ok (lit x)) pos
        smoothed_emis_prob unknown_words.

(** ** Module 3: Viterbi tagging *)

(** What a cell of [backpointer] can hold: the [0] that [empty_dic] put
    there, or a string (a tag, or the marker ["origin"]). *)
Inductive cell : Set :=
| Zero
| Str (s : string).

Definition origin : string := "origin".

(** The part of [viterbi_algorithm] an exception comes from. *)
Inductive stage : Set :=
| Setup
| Initialization
| Recursion
| Termination
| Backtracking.

Definition at_stage {A : Type} (s : stage) (m : result exn A) : result (stage * exn) A :=
  match m with
  | Ok a => Ok a
  | Raise e => Raise (s, e)
  end.

(** [a > b] on tuples [(probability, tag)]: the first components decide
    unless they are equal. *)
Definition pair_gt (p q : num * string) : bool :=
  match num_cmp (fst p) (fst q) with
  | Gt => true
  | Lt => false
  | Eq => (snd q <? snd p)%string
  end.

(** [max(l)]: the first of the greatest elements. *)
Definition py_max (l : list (num * string)) : result exn (num * string) :=
  match l with
  | [] => Raise ValueError
  | x :: rest =>
      Ok (fold_left (fun current item => if pair_gt item current then item else current)
                    rest x)
  end.

Section Decoder.
Variables observations states : list string.
Variable init_prob : dict num.
Variables trans_prob emis_prob : dict (dict num).

(** One iteration of a loop [for j in states] that assigns [viterbi[t][j]]
    and possibly [backpointer[t][j]]; the two rows are built side by side.
    The rows start as [{p: None}] and [{p: 0}], and every key is assigned
    a score, so only the backpointer's initial [0] can survive. *)
Fixpoint fill_rows (body : string -> result exn (num * cell)) (js : list string)
  : result exn (dict num * dict cell) :=
  match js with
  | [] => Ok ([], [])
  | j :: rest =>
      '(v, b) <- body j ;;
      '(vs, bs) <- fill_rows body rest ;;
      Ok ((j, v) :: vs, (j, b) :: bs)
  end.

(** Initialization, aka base case ([t = 0]). *)
Definition init_cell (j : string) : result exn (num * cell) :=
  current_obs <- list_index observations 0 ;;
  row <- lookup j emis_prob ;;
  v <- (if mem current_obs row
        then a <- lookup j init_prob ;;
             e <- lookup current_obs row ;;
             Ok (add a e)
        else Ok NegInf) ;;
  Ok (v, Str origin).

(** Recursion step, aka inductive case, for one [t] and one [j];
    [prev] is [viterbi[t-1]]. *)
Definition rec_cell (prev : dict num) (current_obs j : string)
  : result exn (num * cell) :=
  row <- lookup j emis_prob ;;
  if mem current_obs row
  then options <- mapM (fun i =>
                          v <- lookup i prev ;;
                          from_i <- lookup i trans_prob ;;
                          a <- lookup j from_i ;;
                          e <- lookup current_obs row ;;
                          Ok (add (add v a) e, i)) states ;;
       maximum <- py_max options ;;
       Ok (fst maximum, Str (snd maximum))
  else Ok (NegInf, Zero).

(** The loop [for t in range(1, T)], over [observations[1:]]. *)
Fixpoint recursion (prev : dict num) (rest : list string)
  : result exn (list (dict num) * list (dict cell)) :=
  match rest with
  | [] => Ok ([], [])
  | current_obs :: rest' =>
      '(v, b) <- fill_rows (rec_cell prev current_obs) states ;;
      '(vs, bs) <- recursion v rest' ;;
      Ok (v :: vs, b :: bs)
  end.

(** The chart after initialization and recursion: [viterbi] (rows
    [0 .. T-1]) and [backpointer]. *)
Definition forward : result (stage * exn) (list (dict num) * list (dict cell)) :=
  '(v0, b0) <- at_stage Initialization (fill_rows init_cell states) ;;
  match observations with
  | [] => Ok ([], [])
  | _ :: rest =>
      '(vs, bs) <- at_stage Recursion (recursion v0 rest) ;;
      Ok (v0 :: vs, b0 :: bs)
  end.

(** Termination step: [viterbi] is a dictionary keyed by [0 .. T-1]. *)
Definition termination (viterbi : list (dict num)) : result exn string :=
  let T := Z.of_nat (List.length observations) in
  last_round <- (if (T - 1 <? 0)%Z then Raise KeyError
                 else match nth_error viterbi (Z.to_nat (T - 1)) with
                      | Some row => Ok row
                      | None => Raise KeyError
                      end) ;;
  m <- py_max (map (fun '(key, v) => (v, key)) last_round) ;;
  Ok (snd m).

(** Backtracking step.  The counter [k] is [T + len(backpointer)]: each
    iteration decrements [T], and [backpointer[T-1]] raises [IndexError]
    once [T - 1 < - len(backpointer)], that is once [k = 0]. *)
Fixpoint backtrack (backpointer : list (dict cell)) (k : nat) (predicted_obs : cell)
  (final_list : list string) : result exn (list string) :=
  let T := (Z.of_nat k - Z.of_nat (List.length backpointer))%Z in
  match predicted_obs with
  | Str s =>
      if s =? origin then Ok final_list
      else
        row <- list_index backpointer (T - 1) ;;
        next <- lookup s row ;;
        match k with
        | O => Raise IndexError
        | S k' => backtrack backpointer k' next (final_list ++ [s])
        end
  | Zero =>
      (* [0 != "origin"]; [0] is appended, and is not a key of any row *)
      _ <- list_index backpointer (T - 1) ;;
      Raise KeyError
  end.

Definition viterbi_algorithm : result (stage * exn) (list string) :=
  '(viterbi, backpointer) <- forward ;;
  predicted_obs <- at_stage Termination (termination viterbi) ;;
  final_list <- at_stage Backtracking
                  (backtrack backpointer
                     (List.length observations + List.length backpointer)
                     (Str predicted_obs) []) ;;
  Ok (rev final_list).
End Decoder.

(** ** Vocabulary of the properties *)

(** [table[j][w]], when both keys are present. *)
Definition entry {V : Type} (table : dict (dict V)) (j w : string) : option V :=
  match get j table with
  | Some row => get w row
  | None => None
  end.

(** The real number a finite [num] stands for. *)
Definition fval (r : Q) (a b : positive) : R :=
  (Q2R r + (ln (IZR (Zpos a)) - ln (IZR (Zpos b))) / ln 2)%R.

(** [2 ** x], the probability behind a log-space entry; [-inf] gives 0, so
    such entries do not count in a sum. *)
Definition exp2 (x : num) : R :=
  match x with
  | NegInf => 0%R
  | Fin r a b => Rpower 2 (fval r a b)
  end.

Definition Rsum (l : list R) : R := fold_right Rplus 0%R l.

(** The probability mass of one row of a table. *)
Definition row_mass (row : dict num) : R := Rsum (map exp2 (values row)).

(** "Equals 1.0 within floating-point tolerance (e.g. 1e-9)". *)
Definition within_tolerance (x : R) : Prop := (Rabs (x - 1) <= / 1000000000)%R.

Definition num_le (x y : num) : Prop := num_cmp x y <> Gt.
Definition num_eq (x y : num) : Prop := num_cmp x y = Eq.

(** [viterbi[t-1][i] + transition[i][j]], the score of reaching [j] through
    the predecessor [i]. *)
Definition via (prev : dict num) (trans_prob : dict (dict num)) (j i : string)
  : option num :=
  match get i prev, entry trans_prob i j with
  | Some v, Some a => Some (add v a)
  | _, _ => None
  end.


(** The backpointer chain from the cell [(t, j)] back to time 0, last tag
    first: it exists when every cell on the way names its predecessor and
    the cell reached at time 0 holds the origin marker. *)
Fixpoint chain (backpointer : list (dict cell)) (t : nat) (j : string)
  : option (list string) :=
  match nth_error backpointer t with
  | None => None
  | Some row =>
      match get j row, t with
      | Some (Str s), O => if s =? origin then Some [j] else None
      | Some (Str i), S t' =>
          match chain backpointer t' i with
          | Some c => Some (j :: c)
          | None => None
          end
      | _, _ => None
      end
  end.

(** What the cells of [backpointer] hold after initialization and
    recursion: the origin marker at time 0; later either a tag or the [0]
    the table was allocated with. *)
Definition backpointer_wf (states : list string) (backpointer : list (dict cell)) : Prop :=
  forall t row j,
    nth_error backpointer t = Some row -> In j states ->
    match t with
    | O => get j row = Some (Str origin)
    | S _ => get j row = Some Zero \/ exists i, In i states /\ get j row = Some (Str i)
    end.

(** The order of which [max] returns the greatest element. *)
Definition pair_le (p q : num * string) : Prop := pair_gt p q = false.

(** A call "rejected before entering the state machine" raises before the
    initialization loop starts. *)
Definition rejected_at_entry {A : Type} (r : result (stage * exn) A) : Prop :=
  exists e, r = Raise (Setup, e).

(** The number of transitions that leave [tag] in the flattened tag
    sequence: its occurrences other than at the last position. *)
Definition outgoing (training_tags : list string) (tag : string) : Z :=
  Counter_get (removelast training_tags) tag.

(** The number of sentence-initial tags that are elements of [pos]. *)
Definition initial_in_pos (training_sent_init pos : list string) : Z :=
  Z.of_nat (List.length
              (filter (fun x => existsb (String.eqb x) pos) training_sent_init)).

(** ** Scores of tag paths *)

(** The score of starting in [j] on the word [w]; a word without emission
    entry under [j] is scored [-inf], as the initialization step does. *)
Definition start_score (init_prob : dict num) (emis_prob : dict (dict num))
  (w j : string) : num :=
  match entry emis_prob j w, get j init_prob with
  | Some e, Some a => add a e
  | _, _ => NegInf
  end.

(** The score of moving from [i], reached with [score], to [j] on the word
    [w], added in the order of the recursion step. *)
Definition step_score (trans_prob emis_prob : dict (dict num)) (score : num)
  (i j w : string) : num :=
  match entry emis_prob j w, entry trans_prob i j with
  | Some e, Some a => add (add score a) e
  | _, _ => NegInf
  end.

(** The score of the tag path whose tags at the times [t, t-1, .., 0] are
    [rpath] (last tag first) on the words [observations[0..t]]. *)
Fixpoint rscore (init_prob : dict num) (trans_prob emis_prob : dict (dict num))
  (observations : list string) (t : nat) (rpath : list string) : num :=
  match rpath, nth_error observations t with
  | j :: rest, Some w =>
      match t, rest with
      | O, [] => start_score init_prob emis_prob w j
      | S t', i :: _ =>
          step_score trans_prob emis_prob
            (rscore init_prob trans_prob emis_prob observations t' rest) i j w
      | _, _ => NegInf
      end
  | _, _ => NegInf
  end.

(** The score of a tag sequence for the whole observation sequence. *)
Definition path_score (init_prob : dict num) (trans_prob emis_prob : dict (dict num))
  (observations path : list string) : num :=
  rscore init_prob trans_prob emis_prob observations (List.length path - 1) (rev path).

(** ** Counts behind the trained entries *)

(** The number of training pairs [(word, tag)]. *)
Definition pair_count (training_tagged : list (string * string)) (word tag : string) : Z :=
  Z.of_nat (List.length
              (filter (fun '(w, t) => (w =? word) && (t =? tag)) training_tagged)).

(** The number of positions of the flattened tag sequence where [i] is
    immediately followed by [j]. *)
Definition adjacent_count (training_tags : list string) (i j : string) : Z :=
  Z.of_nat (List.length
              (filter (fun '(a, b) => (a =? i) && (b =? j))
                      (combine training_tags (tl training_tags)))).

(** [pos_counts[tag][word]] read as a count, 0 when there is no entry. *)
Definition count_at (pos_counts : dict (dict Z)) (tag word : string) : Z :=
  match entry pos_counts tag word with
  | Some c => c
  | None => 0%Z
  end.

(** ** The script that trains, patches and decodes *)

(** The part of the script an exception comes from. *)
Inductive phase : Set :=
| Training
| Patching
| Decoding (s : stage).

Definition in_phase {A : Type} (p : phase) (m : result exn A) : result (phase * exn) A :=
  match m with
  | Ok a => Ok a
  | Raise e => Raise (p, e)
  end.

Definition decoding {A : Type} (m : result (stage * exn) A) : result (phase * exn) A :=
  match m with
  | Ok a => Ok a
  | Raise (s, e) => Raise (Decoding s, e)
  end.

(** The module-level statements between the corpus reader and the output
    writer, in the order they run: the four tables are trained, both
    emission tables are patched for the unknown words, and the test
    observations are decoded with the unsmoothed tables (twice) and with
    the smoothed emission table.  The arguments are the values the corpus
    reader produced; the result is the pair of the two tag sequences that
    are handed to [add_tags].  Reading and writing files is left out. *)
Definition tagger (training_sent_init training_tags : list string)
  (training_tagged : list (string * string))
  (pos training_vocab test_vocab test_obs : list string)
  : result (phase * exn) (list string * list string) :=
  init_prob <- in_phase Training (find_init_prob training_sent_init pos) ;;
  trans_prob <- in_phase Training (find_trans_prob training_tags pos) ;;
  emis_prob <- in_phase Training (find_emis_prob training_tagged pos) ;;
  '(smoothed_emis_prob, unseen_values) <-
    in_phase Training (laplace_emis_prob training_vocab training_tagged pos) ;;
  let unknown := unknown_words test_vocab training_vocab in
  emis_prob <- in_phase Patching (add_emis pos emis_prob unknown) ;;
  smoothed_emis_prob <-
    in_phase Patching (laplace_add_emis pos smoothed_emis_prob unknown unseen_values) ;;
  _ <- decoding (viterbi_algorithm test_obs pos init_prob trans_prob emis_prob) ;;
  unsmoothed <- decoding (viterbi_algorithm test_obs pos init_prob trans_prob emis_prob) ;;
  smoothed <-
    decoding (viterbi_algorithm test_obs pos init_prob trans_prob smoothed_emis_prob) ;;
  Ok (unsmoothed, smoothed).

(** ** Modules 1 and 4: the corpus reader and writer *)

(** The functions of these modules are modelled from the text that
    [read()] returns to the text that [write] receives.  A text is the
    list of its characters; the properties hold for every character type
    and every classification [isspace] of its characters into whitespace
    and others (Python fixes both), provided the newline and the tab are
    whitespace. *)

(** What [next] raises on an exhausted iterator. *)
Inductive iter_exn : Set :=
| StopIteration.

(** [l[::2]] and [l[1::2]] *)
Fixpoint evens {A : Type} (l : list A) : list A :=
  match l with
  | [] => []
  | x :: rest =>
      x :: match rest with
           | [] => []
           | _ :: rest' => evens rest'
           end
  end.

Definition odds {A : Type} (l : list A) : list A := evens (tl l).

Section Corpus.
Variable char : Type.
Variable char_eq_dec : forall a b : char, {a = b} + {a <> b}.
Variable isspace : char -> bool.
Variables newline tab : char.

(** [s.split()]: the maximal runs of characters that are not whitespace,
    in order.  [cur] is the run being read, its last character first. *)
Fixpoint str_split_from (cur s : list char) : list (list char) :=
  match s with
  | [] =>
      match cur with
      | [] => []
      | _ :: _ => [rev cur]
      end
  | c :: rest =>
      if isspace c
      then match cur with
           | [] => str_split_from [] rest
           | _ :: _ => rev cur :: str_split_from [] rest
           end
      else str_split_from (c :: cur) rest
  end.

Definition str_split (s : list char) : list (list char) := str_split_from [] s.

(** [s.split('\n\n')]: the pieces between the occurrences of two
    newlines, found from the left and not overlapping; empty pieces are
    kept. *)
Fixpoint str_split_blank_from (cur s : list char) : list (list char) :=
  match s with
  | [] => [rev cur]
  | c :: rest =>
      match rest with
      | [] => [rev (c :: cur)]
      | c' :: rest' =>
          if char_eq_dec c newline
          then if char_eq_dec c' newline
               then rev cur :: str_split_blank_from [] rest'
               else str_split_blank_from (c :: cur) rest
          else str_split_blank_from (c :: cur) rest
      end
  end.

Definition str_split_blank (s : list char) : list (list char) :=
  str_split_blank_from [] s.

(** [process_train], from [training_text] on. *)
Definition process_train (training_text : list char)
  : result exn (list (list char) * list (list char)
                * list (list char * list char) * list (list char)) :=
  let training_sents := str_split_blank training_text in
  let training_sent_init :=
    flat_map (fun sent => firstn 1 (skipn 1 (str_split sent))) training_sents in
  let training_text := str_split training_text in
  let training_obs := evens training_text in
  let training_tags := odds training_text in
  training_tagged <-
    mapM (fun x =>
            o <- list_index training_obs x ;;
            t <- list_index training_tags x ;;
            Ok (o, t))
         (map Z.of_nat (seq 0 (List.length training_obs))) ;;
  Ok (training_obs, training_tags, training_tagged, training_sent_init).

(** [process_test], from [test] on. *)
Definition process_test (test : list char) : list (list char) := str_split test.

(** The inner loop of [add_tags], over the words of one sentence;
    [tags] is what the iterator has left. *)
Fixpoint tag_sentence (sentence tags : list (list char)) (tagged_test : list char)
  : result iter_exn (list char * list (list char)) :=
  match sentence with
  | [] => Ok (tagged_test, tags)
  | word :: rest =>
      match tags with
      | [] => Raise StopIteration
      | tag :: tags' =>
          tag_sentence rest tags' (tagged_test ++ word ++ [tab] ++ tag ++ [newline])
      end
  end.

(** The outer loop of [add_tags], over the sentences. *)
Fixpoint tag_sentences (split_test : list (list (list char))) (tags : list (list char))
  (tagged_test : list char) : result iter_exn (list char) :=
  match split_test with
  | [] => Ok tagged_test
  | sentence :: rest =>
      '(tagged_test, tags) <- tag_sentence sentence tags tagged_test ;;
      tag_sentences rest tags (tagged_test ++ [newline])
  end.

(** [add_tags]: from [test] to the text written to the output file. *)
Definition add_tags (test : list char) (tags : list (list char))
  : result iter_exn (list char) :=
  let test := str_split_blank test in
  let split_test := map str_split test in
  tagged_test <- tag_sentences split_test tags [] ;;
  Ok (removelast tagged_test).

(** A token: not empty and free of whitespace. *)
Definition token (w : list char) : Prop :=
  w <> [] /\ Forall (fun c => isspace c = false) w.

(** The lines [add_tags] writes for the words of one sentence. *)
Definition tagged_lines (words tags : list (list char)) : list char :=
  List.concat (map (fun '(word, tag) => word ++ [tab] ++ tag ++ [newline])
              (combine words tags)).

(** The text [add_tags] builds for a list of sentences, before its last
    character is removed. *)
Fixpoint tagged_text (split_test : list (list (list char))) (tags : list (list char))
  : list char :=
  match split_test with
  | [] => []
  | sentence :: rest =>
      tagged_lines sentence tags ++ [newline]
      ++ tagged_text rest (skipn (List.length sentence) tags)
  end.
End Corpus.

Arguments str_split_from {char} isspace cur s.
Arguments str_split {char} isspace s.
Arguments str_split_blank_from {char} char_eq_dec newline cur s.
Arguments str_split_blank {char} char_eq_dec newline s.
Arguments process_train {char} char_eq_dec isspace newline training_text.
Arguments process_test {char} isspace test.
Arguments tag_sentence {char} newline tab sentence tags tagged_test.
Arguments tag_sentences {char} newline tab split_test tags tagged_test.
Arguments add_tags {char} char_eq_dec isspace newline tab test tags.
Arguments token {char} isspace w.
Arguments tagged_lines {char} newline tab words tags.
Arguments tagged_text {char} newline tab split_test tags.

(** The tokens of a tagged corpus: word, tag, word, tag, ... *)
Definition interleave {A : Type} (words tags : list A) : list A :=
  flat_map (fun '(word, tag) => [word; tag]) (combine words tags).

(** An instance of the character classification, for examples: the 8-bit
    characters, with the ASCII characters that [str.isspace] accepts. *)
Definition ascii_isspace (c : ascii) : bool :=
  let n := N_of_ascii c in
  ((9 <=? n) && (n <=? 13) || (28 <=? n) && (n <=? 32))%N.

(** The dictionary [{j: f(j) for j in js}]. *)
Definition tab {V : Type} (f : string -> V) (js : list string) : dict V :=
  map (fun j => (j, f j)) js.

(** * Properties *)

(** ** The error monad *)

Lemma bind_ok {E A B : Type} (m : result E A) (k : A -> result E B) (b : B) :
  bind m k = Ok b -> exists a, m = Ok a /\ k a = Ok b.
Proof. destruct m as [a | e]; simpl; intros H; [eauto | discriminate]. Qed.

(** Splits a hypothesis [x <- m ;; k = Ok b] into its two steps. *)
Ltac inv_bind H :=
  let a := fresh "a" in
  let Ha := fresh "Hstep" in
  apply bind_ok in H; destruct H as (a & Ha & H).

(** The same, naming the intermediate value and its equation. *)
Tactic Notation "bind_inv" hyp(H) "as" simple_intropattern(a) ident(Ha) :=
  apply bind_ok in H; destruct H as (a & Ha & H).

Lemma mapM_ok {E A B : Type} (f : A -> result E B) (l : list A) (l' : list B) :
  mapM f l = Ok l' -> Forall2 (fun x y => f x = Ok y) l l'.
Proof.
  revert l'. induction l as [| x l IH]; simpl; intros l' H.
  - injection H as <-. constructor.
  - inv_bind H. inv_bind H. injection H as <-. constructor; auto.
Qed.

Lemma mapM_total {E A B : Type} (f : A -> result E B) (l : list A) :
  (forall x, In x l -> exists y, f x = Ok y) -> exists l', mapM f l = Ok l'.
Proof.
  induction l as [| x l IH]; simpl; intros H.
  - eauto.
  - destruct (H x) as (y & Hy); auto. rewrite Hy. simpl.
    destruct IH as (l' & Hl'); auto. rewrite Hl'. simpl. eauto.
Qed.

(** ** Dictionaries *)

Lemma get_put_same {V : Type} (k : string) (v : V) (d : dict V) :
  get k (put k v d) = Some v.
Proof.
  induction d as [| [k' v'] d IH]; simpl.
  - now rewrite String.eqb_refl.
  - destruct (k' =? k) eqn:E; simpl; [now rewrite String.eqb_refl | now rewrite E].
Qed.

Lemma get_put_other {V : Type} (k k' : string) (v : V) (d : dict V) :
  k <> k' -> get k' (put k v d) = get k' d.
Proof.
  intros Hne. induction d as [| [k0 v0] d IH]; simpl.
  - apply String.eqb_neq in Hne. now rewrite Hne.
  - destruct (k0 =? k) eqn:E; simpl.
    + apply String.eqb_eq in E. subst k0.
      apply String.eqb_neq in Hne. now rewrite Hne.
    + now rewrite IH.
Qed.

Lemma get_in_keys {V : Type} (k : string) (d : dict V) :
  get k d <> None <-> In k (keys d).
Proof.
  induction d as [| [k' v'] d IH]; simpl.
  - tauto.
  - destruct (k' =? k) eqn:E.
    + apply String.eqb_eq in E. split; [auto | discriminate].
    + apply String.eqb_neq in E. rewrite IH. tauto.
Qed.

Lemma get_some_in {V : Type} (k : string) (v : V) (d : dict V) :
  get k d = Some v -> In (k, v) d.
Proof.
  induction d as [| [k' v'] d IH]; simpl; [discriminate |].
  destruct (k' =? k) eqn:E.
  - apply String.eqb_eq in E. intros [= ->]. subst. auto.
  - auto.
Qed.

Lemma in_get_nodup {V : Type} (k : string) (v : V) (d : dict V) :
  NoDup (keys d) -> In (k, v) d -> get k d = Some v.
Proof.
  induction d as [| [k' v'] d IH]; simpl; [tauto |].
  intros Hnd [Heq | Hin].
  - injection Heq as -> ->. now rewrite String.eqb_refl.
  - inversion Hnd as [| ? ? Hnotin Hnd']; subst.
    destruct (k' =? k) eqn:E.
    + apply String.eqb_eq in E. subst k'. exfalso. apply Hnotin.
      change k with (fst (k, v)). now apply in_map.
    + auto.
Qed.

Lemma keys_put_present {V : Type} (k : string) (v : V) (d : dict V) :
  In k (keys d) -> keys (put k v d) = keys d.
Proof.
  induction d as [| [k' v'] d IH]; simpl; [tauto |].
  intros H. destruct (k' =? k) eqn:E; simpl.
  - apply String.eqb_eq in E. now subst.
  - apply String.eqb_neq in E. f_equal. apply IH. tauto.
Qed.

Lemma keys_put_incl {V : Type} (k k' : string) (v : V) (d : dict V) :
  In k' (keys (put k v d)) <-> k' = k \/ In k' (keys d).
Proof.
  rewrite <- !get_in_keys. destruct (string_dec k k') as [-> | Hne].
  - rewrite get_put_same. split; [auto | discriminate].
  - rewrite get_put_other by assumption. split; [auto |].
    intros [-> | H]; [congruence | assumption].
Qed.

Lemma lookup_ok {V : Type} (k : string) (d : dict V) (v : V) :
  lookup k d = Ok v <-> get k d = Some v.
Proof.
  unfold lookup. destruct (get k d); split; congruence.
Qed.

Lemma mem_true {V : Type} (k : string) (d : dict V) :
  mem k d = true <-> In k (keys d).
Proof.
  rewrite <- get_in_keys. unfold mem. destruct (get k d); split; congruence.
Qed.

Lemma entry_some {V : Type} (table : dict (dict V)) (j w : string) (v : V) :
  entry table j w = Some v <-> exists row, get j table = Some row /\ get w row = Some v.
Proof.
  unfold entry. destruct (get j table) as [row |].
  - split; [eauto | intros (r & [= <-] & H); exact H].
  - split; [discriminate | intros (r & H & _); discriminate].
Qed.

(** ** Numbers: the comparison decides the order of the real values *)

Lemma ln2_pos : (0 < ln 2)%R.
Proof. pose proof ln_lt_2. lra. Qed.

Lemma ln_IZR_pow (c : positive) (k : Z) :
  (0 <= k)%Z -> ln (IZR (Zpos c ^ k)) = (IZR k * ln (IZR (Zpos c)))%R.
Proof.
  intros Hk. rewrite <- (Z2Nat.id k Hk) at 1.
  rewrite <- pow_IZR, ln_pow.
  - rewrite INR_IZR_INZ, Z2Nat.id by assumption. reflexivity.
  - apply IZR_lt. lia.
Qed.

Lemma IZR_pow_pos (c : positive) (k : Z) : (0 <= k)%Z -> (0 < IZR (Zpos c ^ k))%R.
Proof. intros. apply IZR_lt. apply Z.pow_pos_nonneg; lia. Qed.

Lemma sgn_scaled (r : Q) (a b : positive) :
  let n := Qnum r in
  let m := Zpos (Qden r) in
  (ln (IZR (2 ^ Z.max n 0 * Zpos a ^ m)) - ln (IZR (2 ^ Z.max (- n) 0 * Zpos b ^ m))
   = IZR m * ln 2 * fval r a b)%R.
Proof.
  intros n m. unfold fval, Q2R. fold n.
  rewrite !mult_IZR.
  rewrite !ln_mult by (apply IZR_pow_pos; lia).
  rewrite (ln_IZR_pow 2), (ln_IZR_pow a), (ln_IZR_pow 2), (ln_IZR_pow b) by lia.
  replace (IZR (Z.max n 0)) with (IZR n + IZR (Z.max (- n) 0))%R.
  2:{ rewrite <- plus_IZR. f_equal. lia. }
  change (IZR (Z.pos (Qden r))) with (IZR m).
  assert (IZR m <> 0)%R by (apply not_0_IZR; unfold m; lia).
  pose proof ln2_pos. field. split; lra.
Qed.

Lemma sgn_spec (r : Q) (a b : positive) :
  match sgn r a b with
  | Lt => (fval r a b < 0)%R
  | Eq => (fval r a b = 0)%R
  | Gt => (fval r a b > 0)%R
  end.
Proof.
  pose proof (sgn_scaled r a b) as Hs. cbv zeta in Hs. unfold sgn.
  set (L := (2 ^ Z.max (Qnum r) 0 * Z.pos a ^ Z.pos (Qden r))%Z) in *.
  set (U := (2 ^ Z.max (- Qnum r) 0 * Z.pos b ^ Z.pos (Qden r))%Z) in *.
  assert (HL : (0 < L)%Z) by (unfold L; apply Z.mul_pos_pos; apply Z.pow_pos_nonneg; lia).
  assert (HU : (0 < U)%Z) by (unfold U; apply Z.mul_pos_pos; apply Z.pow_pos_nonneg; lia).
  assert (Hm : (0 < IZR (Z.pos (Qden r)) * ln 2)%R).
  { apply Rmult_lt_0_compat; [apply IZR_lt; lia | apply ln2_pos]. }
  destruct (Z.compare_spec L U) as [E | E | E].
  - rewrite E, Rminus_diag in Hs. symmetry in Hs.
    apply Rmult_integral in Hs. destruct Hs; [lra | assumption].
  - assert (ln (IZR L) < ln (IZR U))%R
      by (apply ln_increasing; [apply IZR_lt; lia | apply IZR_lt; assumption]).
    nra.
  - assert (ln (IZR U) < ln (IZR L))%R
      by (apply ln_increasing; [apply IZR_lt; lia | apply IZR_lt; assumption]).
    nra.
Qed.

Lemma fval_sub r1 a1 b1 r2 a2 b2 :
  fval (r1 - r2) (a1 * b2) (b1 * a2) = (fval r1 a1 b1 - fval r2 a2 b2)%R.
Proof.
  unfold fval. rewrite Q2R_minus, !Pos2Z.inj_mul, !mult_IZR.
  rewrite !ln_mult by (apply IZR_lt; lia).
  pose proof ln2_pos. field. lra.
Qed.

Lemma fval_add r1 a1 b1 r2 a2 b2 :
  fval (r1 + r2) (a1 * a2) (b1 * b2) = (fval r1 a1 b1 + fval r2 a2 b2)%R.
Proof.
  unfold fval. rewrite Q2R_plus, !Pos2Z.inj_mul, !mult_IZR.
  rewrite !ln_mult by (apply IZR_lt; lia).
  pose proof ln2_pos. field. lra.
Qed.

Lemma num_cmp_fin r1 a1 b1 r2 a2 b2 :
  match num_cmp (Fin r1 a1 b1) (Fin r2 a2 b2) with
  | Lt => (fval r1 a1 b1 < fval r2 a2 b2)%R
  | Eq => (fval r1 a1 b1 = fval r2 a2 b2)%R
  | Gt => (fval r1 a1 b1 > fval r2 a2 b2)%R
  end.
Proof.
  simpl. pose proof (sgn_spec (r1 - r2) (a1 * b2) (b1 * a2)) as H.
  rewrite fval_sub in H. destruct (sgn _ _ _); lra.
Qed.

(** Decides a goal on the order of [num]s by moving to the reals. *)
Ltac num_order :=
  repeat match goal with
  | x : num |- _ => destruct x
  end;
  repeat match goal with
  | |- context [num_cmp (Fin ?r1 ?a1 ?b1) (Fin ?r2 ?a2 ?b2)] =>
      let H := fresh in
      pose proof (num_cmp_fin r1 a1 b1 r2 a2 b2) as H;
      destruct (num_cmp (Fin r1 a1 b1) (Fin r2 a2 b2))
  | H0 : context [num_cmp (Fin ?r1 ?a1 ?b1) (Fin ?r2 ?a2 ?b2)] |- _ =>
      let H := fresh in
      pose proof (num_cmp_fin r1 a1 b1 r2 a2 b2) as H;
      destruct (num_cmp (Fin r1 a1 b1) (Fin r2 a2 b2))
  end;
  simpl in *; try congruence; try (exfalso; lra).

Lemma num_cmp_refl x : num_cmp x x = Eq.
Proof. num_order. Qed.

Lemma num_cmp_antisym x y : num_cmp y x = CompOpp (num_cmp x y).
Proof. num_order. Qed.

Lemma num_le_refl x : num_le x x.
Proof. unfold num_le. rewrite num_cmp_refl. discriminate. Qed.

Lemma num_le_trans x y z : num_le x y -> num_le y z -> num_le x z.
Proof. unfold num_le. num_order. Qed.

Lemma num_le_antisym x y : num_le x y -> num_le y x -> num_eq x y.
Proof. unfold num_le, num_eq. num_order. Qed.

Lemma num_eq_le x y : num_eq x y -> num_le x y.
Proof. unfold num_le, num_eq. congruence. Qed.

Lemma num_eq_sym x y : num_eq x y -> num_eq y x.
Proof. unfold num_eq. num_order. Qed.

Lemma num_eq_trans x y z : num_eq x y -> num_eq y z -> num_eq x z.
Proof. unfold num_eq. num_order. Qed.

Lemma num_cmp_eq_l x y z : num_cmp x y = Eq -> num_cmp x z = num_cmp y z.
Proof. num_order. Qed.

Lemma num_cmp_eq_r x y z : num_cmp x y = Eq -> num_cmp z x = num_cmp z y.
Proof. num_order. Qed.

Lemma num_lt_le_trans x y z : num_cmp x y = Lt -> num_le y z -> num_cmp x z = Lt.
Proof. unfold num_le. num_order. Qed.

Lemma num_le_lt_trans x y z : num_le x y -> num_cmp y z = Lt -> num_cmp x z = Lt.
Proof. unfold num_le. num_order. Qed.

Lemma add_cmp_r x y r a b :
  num_cmp (add x (Fin r a b)) (add y (Fin r a b)) = num_cmp x y.
Proof.
  destruct x as [| r1 a1 b1], y as [| r2 a2 b2]; simpl add; try reflexivity.
  pose proof (num_cmp_fin r1 a1 b1 r2 a2 b2) as H1.
  pose proof (num_cmp_fin (r1 + r) (a1 * a) (b1 * b) (r2 + r) (a2 * a) (b2 * b)) as H2.
  rewrite !fval_add in H2.
  destruct (num_cmp (Fin r1 a1 b1) (Fin r2 a2 b2));
    destruct (num_cmp (Fin (r1 + r) _ _) _); try reflexivity; exfalso; lra.
Qed.

Lemma add_mono_r x y e : num_le x y -> num_le (add x e) (add y e).
Proof.
  unfold num_le. destruct e as [| r a b].
  - destruct x, y; simpl; congruence.
  - now rewrite add_cmp_r.
Qed.

Lemma add_eq_r x y e : num_eq x y -> num_eq (add x e) (add y e).
Proof.
  intros H. apply num_le_antisym; apply add_mono_r, num_eq_le;
    [assumption | now apply num_eq_sym].
Qed.


Lemma add_finite x y : is_neg_inf (add x y) = false ->
  is_neg_inf x = false /\ is_neg_inf y = false.
Proof. destruct x, y; simpl; auto. Qed.

Lemma num_le_finite x y : num_le x y -> is_neg_inf x = false -> is_neg_inf y = false.
Proof. unfold num_le. destruct x, y; simpl; congruence. Qed.

(** ** Probabilities behind the log-space entries *)

Lemma exp2_log2 (p : Q) : (0 < p)%Q -> exp2 (log2 p) = Q2R p.
Proof.
  intros Hp. destruct p as [n d]. unfold Qlt in Hp. simpl in Hp.
  assert (Hn : (0 < n)%Z) by lia.
  unfold log2, exp2, fval, Rpower, Q2R. simpl Qnum. simpl Qden.
  rewrite Z2Pos.id by assumption.
  assert (Hn' : (0 < IZR n)%R) by (now apply IZR_lt).
  assert (Hd' : (0 < IZR (Zpos d))%R) by (apply IZR_lt; lia).
  pose proof ln2_pos.
  replace ((IZR 0 * / IZR 1 + (ln (IZR n) - ln (IZR (Z.pos d))) / ln 2) * ln 2)%R
    with (ln (IZR n) - ln (IZR (Z.pos d)))%R by (field; lra).
  assert (Hi : (0 < / IZR (Z.pos d))%R) by (now apply Rinv_0_lt_compat).
  replace (ln (IZR n) - ln (IZR (Z.pos d)))%R with (ln (IZR n * / IZR (Z.pos d))).
  - apply exp_ln. now apply Rmult_lt_0_compat.
  - rewrite ln_mult, ln_Rinv by assumption. lra.
Qed.

Lemma exp2_log_prob (x : Q) : (0 <= x)%Q -> exp2 (log_prob x) = Q2R x.
Proof.
  intros Hx. unfold log_prob. destruct (Qeq_bool x 0) eqn:E; simpl negb; cbv iota.
  - apply Qeq_bool_eq in E. simpl. rewrite (Qeq_eqR _ _ E). unfold Q2R. simpl. lra.
  - apply exp2_log2. apply Qeq_bool_neq in E.
    apply Qle_lteq in Hx. destruct Hx as [Hx | Hx]; [assumption |].
    exfalso. apply E. now symmetry.
Qed.

Lemma exp2_lit_0 : exp2 (lit 0) = 1%R.
Proof.
  unfold lit, exp2, fval, Rpower, Q2R. simpl.
  replace ((0 * / 1 + (ln 1 - ln 1) / ln 2) * ln 2)%R with 0%R.
  - apply exp_0.
  - pose proof ln2_pos. field. lra.
Qed.

Lemma Q2R_div_Z (c t : Z) :
  t <> 0%Z -> Q2R (inject_Z c / inject_Z t) = (IZR c / IZR t)%R.
Proof.
  intros Ht. rewrite Q2R_div.
  - unfold Q2R, inject_Z. simpl. field. now apply not_0_IZR.
  - unfold Qeq, inject_Z. simpl. lia.
Qed.

Lemma div_Z_nonneg (c t : Z) :
  (0 <= c)%Z -> (0 < t)%Z -> (0 <= inject_Z c / inject_Z t)%Q.
Proof.
  intros Hc Ht. apply Qle_shift_div_l.
  - unfold Qlt, inject_Z. simpl. lia.
  - unfold Qle, inject_Z. simpl. lia.
Qed.

Lemma Rsum_app (l1 l2 : list R) : Rsum (l1 ++ l2) = (Rsum l1 + Rsum l2)%R.
Proof. induction l1 as [| x l1 IH]; simpl; [lra | rewrite IH; lra]. Qed.

(** ** The order of strings *)

Lemma ascii_compare_trans (a b c : ascii) :
  Ascii.compare a b = Lt -> Ascii.compare b c = Lt -> Ascii.compare a c = Lt.
Proof.
  unfold Ascii.compare. rewrite !N.compare_lt_iff. lia.
Qed.

Lemma string_compare_refl (s : string) : String.compare s s = Eq.
Proof.
  induction s as [| a s IH]; simpl; [reflexivity |].
  unfold Ascii.compare. now rewrite N.compare_refl.
Qed.

Lemma string_compare_trans (s1 s2 s3 : string) :
  String.compare s1 s2 = Lt -> String.compare s2 s3 = Lt -> String.compare s1 s3 = Lt.
Proof.
  revert s2 s3. induction s1 as [| a s1 IH]; intros [| b s2] [| c s3]; simpl;
    try congruence.
  destruct (Ascii.compare a b) eqn:Eab; try discriminate;
    destruct (Ascii.compare b c) eqn:Ebc; try discriminate; intros H1 H2.
  - apply Ascii.compare_eq_iff in Eab, Ebc. subst.
    unfold Ascii.compare. rewrite N.compare_refl. eauto.
  - apply Ascii.compare_eq_iff in Eab. subst. now rewrite Ebc.
  - apply Ascii.compare_eq_iff in Ebc. subst. now rewrite Eab.
  - now rewrite (ascii_compare_trans a b c).
Qed.

Lemma string_ltb_irrefl (s : string) : (s <? s)%string = false.
Proof. unfold String.ltb. now rewrite string_compare_refl. Qed.

Lemma string_ltb_leb (s1 s2 : string) :
  (s1 <? s2)%string = false <-> (s2 <=? s1)%string = true.
Proof.
  unfold String.ltb, String.leb. rewrite (String.compare_antisym s1 s2).
  destruct (String.compare s2 s1); simpl; split; intros H;
    reflexivity || discriminate.
Qed.

Lemma string_leb_trans (s1 s2 s3 : string) :
  (s1 <=? s2)%string = true -> (s2 <=? s3)%string = true -> (s1 <=? s3)%string = true.
Proof.
  unfold String.leb.
  destruct (String.compare s1 s2) eqn:E12; try discriminate;
    destruct (String.compare s2 s3) eqn:E23; try discriminate; intros _ _.
  - apply String.compare_eq_iff in E12, E23. subst. now rewrite string_compare_refl.
  - apply String.compare_eq_iff in E12. subst. now rewrite E23.
  - apply String.compare_eq_iff in E23. subst. now rewrite E12.
  - now rewrite (string_compare_trans s1 s2 s3).
Qed.

(** ** The maximum of a list of [(probability, tag)] pairs *)

Lemma pair_le_refl (p : num * string) : pair_le p p.
Proof.
  unfold pair_le, pair_gt. rewrite num_cmp_refl. apply string_ltb_irrefl.
Qed.

Lemma pair_le_iff (p q : num * string) :
  pair_le p q <->
  num_cmp (fst p) (fst q) = Lt \/
  (num_eq (fst p) (fst q) /\ (snd p <=? snd q)%string = true).
Proof.
  unfold pair_le, pair_gt, num_eq. rewrite <- string_ltb_leb.
  destruct (num_cmp (fst p) (fst q)); split; intros H; auto; try discriminate.
  - destruct H as [H | [_ H]]; [discriminate | assumption].
  - destruct H as [H | [H _]]; discriminate.
Qed.

Lemma pair_le_trans (p q r : num * string) :
  pair_le p q -> pair_le q r -> pair_le p r.
Proof.
  rewrite !pair_le_iff. intros [H1 | [H1 L1]] [H2 | [H2 L2]].
  - left. eapply num_lt_le_trans; [eassumption |]. unfold num_le. congruence.
  - left. unfold num_eq in H2. now rewrite <- (num_cmp_eq_r _ _ _ H2).
  - left. unfold num_eq in H1. now rewrite (num_cmp_eq_l _ _ _ H1).
  - right. split; [eapply num_eq_trans | eapply string_leb_trans]; eassumption.
Qed.

Lemma pair_gt_le (p q : num * string) : pair_gt p q = true -> pair_le q p.
Proof.
  unfold pair_le, pair_gt. rewrite (num_cmp_antisym (fst p) (fst q)).
  destruct (num_cmp (fst p) (fst q)); simpl; try congruence.
  unfold String.ltb. rewrite (String.compare_antisym (snd q) (snd p)).
  destruct (String.compare (snd p) (snd q)); simpl; congruence.
Qed.

Lemma fold_max_spec (rest : list (num * string)) (x : num * string) :
  let m := fold_left (fun current item => if pair_gt item current then item else current)
                     rest x in
  In m (x :: rest) /\ forall p, In p (x :: rest) -> pair_le p m.
Proof.
  revert x. induction rest as [| y rest IH]; intros x; simpl.
  - split; [auto |]. intros p [<- | []]. apply pair_le_refl.
  - destruct (pair_gt y x) eqn:E.
    + destruct (IH y) as [Hin Hmax]. split.
      * simpl in Hin. tauto.
      * intros p [<- | Hp]; [| now apply Hmax].
        eapply pair_le_trans; [apply pair_gt_le; eassumption |].
        apply Hmax. now left.
    + destruct (IH x) as [Hin Hmax]. split.
      * simpl in Hin. tauto.
      * intros p [<- | [<- | Hp]].
        -- apply Hmax. now left.
        -- eapply pair_le_trans; [exact E |]. apply Hmax. now left.
        -- apply Hmax. now right.
Qed.

Lemma py_max_spec (l : list (num * string)) (m : num * string) :
  py_max l = Ok m -> In m l /\ forall p, In p l -> pair_le p m.
Proof.
  destruct l as [| x rest]; simpl; [discriminate |].
  intros [= <-]. apply fold_max_spec.
Qed.

Lemma py_max_total (l : list (num * string)) :
  l <> [] -> exists m, py_max l = Ok m.
Proof. destruct l; [congruence | simpl; eauto]. Qed.

(** ** The chart built by the decoder *)

Lemma at_stage_ok {A : Type} (s : stage) (m : result exn A) (a : A) :
  at_stage s m = Ok a -> m = Ok a.
Proof. destruct m; simpl; congruence. Qed.

Lemma fill_rows_keys body js vs bs :
  fill_rows body js = Ok (vs, bs) -> keys vs = js /\ keys bs = js.
Proof.
  revert vs bs. induction js as [| j js IH]; simpl; intros vs bs H.
  - injection H as <- <-. auto.
  - inv_bind H. destruct a as [v b]. inv_bind H. destruct a as [vs' bs'].
    injection H as <- <-. destruct (IH _ _ Hstep0) as [E1 E2].
    unfold keys in *. simpl. rewrite E1, E2. auto.
Qed.

Lemma fill_rows_get body js vs bs j :
  fill_rows body js = Ok (vs, bs) -> NoDup js -> In j js ->
  exists v b, body j = Ok (v, b) /\ get j vs = Some v /\ get j bs = Some b.
Proof.
  revert vs bs. induction js as [| j0 js IH]; simpl; intros vs bs H Hnd Hin; [tauto |].
  inv_bind H. destruct a as [v b]. inv_bind H. destruct a as [vs' bs'].
  injection H as <- <-. inversion Hnd as [| ? ? Hnotin Hnd']; subst.
  simpl. destruct (j0 =? j) eqn:E.
  - apply String.eqb_eq in E. subst j0. eauto.
  - apply String.eqb_neq in E. destruct Hin as [Heq | Hin]; [congruence |].
    eapply IH; eauto.
Qed.

Lemma fill_rows_total body js :
  (forall j, In j js -> exists c, body j = Ok c) ->
  exists vs bs, fill_rows body js = Ok (vs, bs).
Proof.
  induction js as [| j js IH]; simpl; intros H; [eauto |].
  destruct (H j) as ([v b] & Hb); auto. rewrite Hb. simpl.
  destruct IH as (vs & bs & Hr); auto. rewrite Hr. simpl. eauto.
Qed.

Lemma recursion_rows states trans_prob emis_prob rest :
  forall prev vs bs,
    recursion states trans_prob emis_prob prev rest = Ok (vs, bs) ->
    List.length vs = List.length rest /\ List.length bs = List.length rest /\
    forall t w, nth_error rest t = Some w ->
      exists before cur brow,
        nth_error (prev :: vs) t = Some before /\
        nth_error vs t = Some cur /\ nth_error bs t = Some brow /\
        fill_rows (rec_cell states trans_prob emis_prob before w) states = Ok (cur, brow).
Proof.
  induction rest as [| w0 rest IH]; simpl; intros prev vs bs H.
  - injection H as <- <-. repeat split; auto. intros [| t] w; discriminate.
  - inv_bind H. destruct a as [v b]. inv_bind H. destruct a as [vs' bs'].
    injection H as <- <-. destruct (IH _ _ _ Hstep0) as (Lv & Lb & Hrows).
    simpl. repeat split; try congruence.
    intros [| t] w Hw; simpl in Hw.
    + injection Hw as <-. exists prev, v, b. auto.
    + destruct (Hrows t w Hw) as (before & cur & brow & H1 & H2 & H3 & H4).
      exists before, cur, brow. auto.
Qed.

Lemma forward_inv w0 rest states init_prob trans_prob emis_prob viterbi backpointer :
  forward (w0 :: rest) states init_prob trans_prob emis_prob = Ok (viterbi, backpointer) ->
  exists v0 b0 vs bs,
    viterbi = v0 :: vs /\ backpointer = b0 :: bs /\
    fill_rows (init_cell (w0 :: rest) init_prob emis_prob) states = Ok (v0, b0) /\
    recursion states trans_prob emis_prob v0 rest = Ok (vs, bs).
Proof.
  unfold forward. intros H. inv_bind H. destruct a as [v0 b0].
  inv_bind H. destruct a as [vs bs]. injection H as <- <-.
  apply at_stage_ok in Hstep, Hstep0. exists v0, b0, vs, bs. auto.
Qed.

Lemma forward_lengths observations states init_prob trans_prob emis_prob viterbi backpointer :
  forward observations states init_prob trans_prob emis_prob = Ok (viterbi, backpointer) ->
  List.length viterbi = List.length observations /\
  List.length backpointer = List.length observations.
Proof.
  destruct observations as [| w0 rest]; intros H.
  - unfold forward in H. inv_bind H. destruct a. injection H as <- <-. auto.
  - apply forward_inv in H. destruct H as (v0 & b0 & vs & bs & -> & -> & _ & Hr).
    apply recursion_rows in Hr. simpl. destruct Hr as (-> & -> & _). auto.
Qed.

(** Every row [t >= 1] of the chart is the recursion step applied to the
    row before it. *)
Lemma forward_step observations states init_prob trans_prob emis_prob viterbi backpointer t w :
  forward observations states init_prob trans_prob emis_prob = Ok (viterbi, backpointer) ->
  nth_error observations (S t) = Some w ->
  exists before cur brow,
    nth_error viterbi t = Some before /\
    nth_error viterbi (S t) = Some cur /\ nth_error backpointer (S t) = Some brow /\
    fill_rows (rec_cell states trans_prob emis_prob before w) states = Ok (cur, brow).
Proof.
  destruct observations as [| w0 rest]; [discriminate |]. intros H Hw.
  apply forward_inv in H. destruct H as (v0 & b0 & vs & bs & -> & -> & _ & Hr).
  apply recursion_rows in Hr. destruct Hr as (_ & _ & Hrows).
  simpl in Hw. exact (Hrows t w Hw).
Qed.

Lemma forward_first observations states init_prob trans_prob emis_prob viterbi backpointer :
  forward observations states init_prob trans_prob emis_prob = Ok (viterbi, backpointer) ->
  observations <> [] ->
  exists v0 b0,
    nth_error viterbi 0 = Some v0 /\ nth_error backpointer 0 = Some b0 /\
    fill_rows (init_cell observations init_prob emis_prob) states = Ok (v0, b0).
Proof.
  destruct observations as [| w0 rest]; [congruence |]. intros H _.
  apply forward_inv in H. destruct H as (v0 & b0 & vs & bs & -> & -> & Hi & _).
  exists v0, b0. auto.
Qed.

(** ** One cell of the recursion step *)


Lemma options_spec states trans_prob prev j w row e options :
  get w row = Some e ->
  mapM (fun i =>
          v <- lookup i prev ;;
          from_i <- lookup i trans_prob ;;
          a <- lookup j from_i ;;
          e <- lookup w row ;;
          Ok (add (add v a) e, i)) states = Ok options ->
  (forall i, In i states -> exists x, via prev trans_prob j i = Some x /\ In (add x e, i) options) /\
  (forall p, In p options ->
     exists x, In (snd p) states /\ via prev trans_prob j (snd p) = Some x /\ fst p = add x e).
Proof.
  intros He. revert options. induction states as [| i0 states IH]; simpl; intros options H.
  - injection H as <-. split; [tauto | simpl; tauto].
  - bind_inv H as o Ho. bind_inv H as os Hos. injection H as <-.
    bind_inv Ho as v Hv. bind_inv Ho as from_i Hfrom. bind_inv Ho as a Ha.
    bind_inv Ho as e' He'. injection Ho as <-.
    apply lookup_ok in Hv, Hfrom, Ha, He'.
    assert (e' = e) by congruence. subst e'.
    assert (Hvia : via prev trans_prob j i0 = Some (add v a)).
    { unfold via, entry. now rewrite Hv, Hfrom, Ha. }
    destruct (IH _ Hos) as [IH1 IH2]. split.
    + intros i [<- | Hi].
      * exists (add v a). split; [assumption | now left].
      * destruct (IH1 i Hi) as (x & Hx & Hin). exists x. split; [assumption | now right].
    + intros p [<- | Hp].
      * exists (add v a). simpl. auto.
      * destruct (IH2 p Hp) as (x & H1 & H2 & H3). exists x. auto.
Qed.




(** ** Loops that rewrite the values of a dictionary in place *)

Lemma mapM_keys {A B : Type} (f : string * A -> result exn (string * B))
  (d : dict A) (d' : dict B) :
  (forall kv y, f kv = Ok y -> fst y = fst kv) ->
  mapM f d = Ok d' -> keys d' = keys d.
Proof.
  intros Hf H. apply mapM_ok in H. unfold keys.
  induction H as [| kv y d d' Hy _ IH]; simpl; [reflexivity |].
  now rewrite (Hf _ _ Hy), IH.
Qed.

Lemma mapM_get {A B : Type} (f : string * A -> result exn (string * B))
  (d : dict A) (d' : dict B) (k : string) (v : A) :
  (forall kv y, f kv = Ok y -> fst y = fst kv) ->
  mapM f d = Ok d' ->
  get k d = Some v ->
  exists y, f (k, v) = Ok (k, y) /\ get k d' = Some y.
Proof.
  intros Hf H. apply mapM_ok in H.
  induction H as [| [k0 v0] [k1 y1] d d' Hy _ IH]; simpl; [discriminate |].
  pose proof (Hf _ _ Hy) as Hk. simpl in Hk. subst k1.
  destruct (k0 =? k) eqn:E; [| exact IH].
  apply String.eqb_eq in E. subst k0. intros [= ->]. eauto.
Qed.

Lemma mapM_length {E A B : Type} (f : A -> result E B) (l : list A) (l' : list B) :
  mapM f l = Ok l' -> List.length l' = List.length l.
Proof.
  intros H. apply mapM_ok in H. induction H; simpl; congruence.
Qed.

(** ** The unknown-word patches *)

Section PatchFacts.
Variable value : string -> result exn num.

Lemma entry_put_row (table : dict (dict num)) (j0 word : string) (v : num)
  (row : dict num) (j w : string) :
  get j0 table = Some row ->
  entry (put j0 (put word v row) table) j w =
  if (j0 =? j) && (word =? w) then Some v else entry table j w.
Proof.
  intros Hrow. unfold entry. destruct (string_dec j0 j) as [<- | Hj].
  - rewrite get_put_same, String.eqb_refl, Hrow. simpl.
    destruct (string_dec word w) as [<- | Hw].
    + now rewrite get_put_same, String.eqb_refl.
    + rewrite get_put_other by assumption.
      apply String.eqb_neq in Hw. now rewrite Hw.
  - rewrite get_put_other by assumption.
    apply String.eqb_neq in Hj. now rewrite Hj.
Qed.

Lemma patch_word_spec (js : list string) (word : string) :
  forall table table',
    patch_word value js word table = Ok table' ->
    keys table' = keys table /\
    (forall j w, w <> word -> entry table' j w = entry table j w) /\
    (forall j, ~ In j js -> entry table' j word = entry table j word) /\
    (forall j, In j js -> exists v, value j = Ok v /\ entry table' j word = Some v).
Proof.
  induction js as [| j0 js IH]; simpl; intros table table' H.
  - injection H as <-. repeat split; auto. tauto.
  - bind_inv H as v Hv. bind_inv H as row Hrow. apply lookup_ok in Hrow.
    destruct (IH _ _ H) as (Hk & Hother & Hout & Hin).
    assert (Hkeys : In j0 (keys table)) by (apply get_in_keys; congruence).
    split; [| split; [| split]].
    + rewrite Hk. now apply keys_put_present.
    + intros j w Hw. rewrite Hother by assumption.
      rewrite (entry_put_row _ _ _ _ _ _ _ Hrow).
      apply not_eq_sym, String.eqb_neq in Hw. rewrite Hw.
      now rewrite andb_false_r.
    + intros j Hj. rewrite Hout by tauto.
      rewrite (entry_put_row _ _ _ _ _ _ _ Hrow).
      assert (j0 <> j) by tauto.
      apply String.eqb_neq in H0. now rewrite H0.
    + intros j [<- | Hj]; [| now apply Hin].
      destruct (in_dec string_dec j0 js) as [Hj | Hj]; [now apply Hin |].
      exists v. split; [assumption |]. rewrite Hout by assumption.
      rewrite (entry_put_row _ _ _ _ _ _ _ Hrow). now rewrite !String.eqb_refl.
Qed.

Lemma patch_word_total (js : list string) (word : string) :
  forall table,
    (forall j, In j js -> In j (keys table) /\ exists v, value j = Ok v) ->
    exists table', patch_word value js word table = Ok table'.
Proof.
  induction js as [| j0 js IH]; simpl; intros table H; [eauto |].
  destruct (H j0) as (Hk & v & Hv); [now left |]. rewrite Hv. simpl.
  apply get_in_keys in Hk. unfold lookup.
  destruct (get j0 table) as [row |] eqn:Hrow; [| congruence]. simpl.
  apply IH. intros j Hj. destruct (H j) as (Hk' & Hv'); [now right |].
  split; [| assumption]. rewrite keys_put_present; [assumption |].
  apply get_in_keys. congruence.
Qed.

Lemma patch_spec (pos words : list string) :
  forall table table',
    patch value pos table words = Ok table' ->
    keys table' = keys table /\
    (forall j w, ~ In w words -> entry table' j w = entry table j w) /\
    (forall j w, In w words -> In j pos ->
                 exists v, value j = Ok v /\ entry table' j w = Some v).
Proof.
  induction words as [| word words IH]; simpl; intros table table' H.
  - injection H as <-. repeat split; auto. tauto.
  - bind_inv H as table1 H1.
    destruct (patch_word_spec _ _ _ _ H1) as (Hk1 & Hother1 & _ & Hin1).
    destruct (IH _ _ H) as (Hk & Hframe & Hin).
    split; [congruence |]. split.
    + intros j w Hw. rewrite Hframe by tauto. apply Hother1. intros ->. tauto.
    + intros j w [<- | Hw] Hj.
      * destruct (in_dec string_dec word words) as [Hw | Hw]; [now apply Hin |].
        destruct (Hin1 j Hj) as (v & Hv & He). exists v. split; [assumption |].
        now rewrite Hframe.
      * now apply Hin.
Qed.

Lemma patch_total (pos words : list string) :
  forall table,
    (forall j, In j pos -> In j (keys table) /\ exists v, value j = Ok v) ->
    exists table', patch value pos table words = Ok table'.
Proof.
  induction words as [| word words IH]; simpl; intros table H; [eauto |].
  destruct (patch_word_total pos word table H) as (table1 & H1). rewrite H1. simpl.
  apply IH. intros j Hj. destruct (H j Hj) as (Hk & Hv). split; [| assumption].
  destruct (patch_word_spec _ _ _ _ H1) as (-> & _). assumption.
Qed.
End PatchFacts.

Lemma unknown_words_spec (test_vocab training_vocab : list string) (w : string) :
  In w (unknown_words test_vocab training_vocab) <->
  In w test_vocab /\ ~ In w training_vocab.
Proof.
  unfold unknown_words. rewrite filter_In, negb_true_iff.
  split; intros [H1 H2]; split; auto.
  - intros Hin. assert (existsb (String.eqb w) training_vocab = true); [| congruence].
    apply existsb_exists. exists w. split; [assumption | apply String.eqb_refl].
  - destruct (existsb (String.eqb w) training_vocab) eqn:E; [| reflexivity].
    apply existsb_exists in E. destruct E as (x & Hx & Heq).
    apply String.eqb_eq in Heq. subst x. tauto.
Qed.

(** ** Decoding an empty observation sequence *)

(** C9, as the code has it.  No guard precedes the dynamic program: on a
    zero-length observation sequence the call fails inside it, with the
    [IndexError] of [observations[0]] in the first iteration of the
    initialization loop, or, when there is no tag at all, with the
    [KeyError] of [viterbi[-1]] in the termination step.  No tag sequence is
    returned. *)
Theorem decode_empty_input
  (states : list string) (init_prob : dict num) (trans_prob emis_prob : dict (dict num)) :
  viterbi_algorithm [] states init_prob trans_prob emis_prob =
  match states with
  | [] => Raise (Termination, KeyError)
  | _ :: _ => Raise (Initialization, IndexError)
  end.
Proof. destruct states; reflexivity. Qed.

(** C9, as stated, fails: the empty input is not rejected before the state
    machine is entered. *)
Lemma decode_empty_input_not_rejected_at_entry :
  ~ rejected_at_entry (viterbi_algorithm [] ["A"] [] [] []).
Proof. intros (e & H). vm_compute in H. discriminate. Qed.

(** ** A decode whose scores are all negative infinity *)

(** C7 at its failing input.  Trained on the two pairs [a/A], [b/B] (one
    sentence) and asked to tag [b a], every score of the chart is
    [-inf]; the termination step picks [B] by the order of the tags, the
    cell [backpointer[1][B]] still holds the [0] it was allocated with
    because [a] has no emission entry under [B], and backtracking raises
    [KeyError] on it. *)
Theorem decode_all_neg_inf_aborts :
  exists init_prob trans_prob emis_prob viterbi backpointer,
    find_init_prob ["A"] ["A"; "B"] = Ok init_prob /\
    find_trans_prob ["A"; "B"] ["A"; "B"] = Ok trans_prob /\
    find_emis_prob [("a", "A"); ("b", "B")] ["A"; "B"] = Ok emis_prob /\
    forward ["b"; "a"] ["A"; "B"] init_prob trans_prob emis_prob = Ok (viterbi, backpointer) /\
    (forall row j v, In row viterbi -> get j row = Some v -> v = NegInf) /\
    nth_error backpointer 1 = Some [("A", Str "B"); ("B", Zero)] /\
    viterbi_algorithm ["b"; "a"] ["A"; "B"] init_prob trans_prob emis_prob
    = Raise (Backtracking, KeyError).
Proof.
  do 5 eexists.
  split; [vm_compute; reflexivity |].
  split; [vm_compute; reflexivity |].
  split; [vm_compute; reflexivity |].
  split; [vm_compute; reflexivity |].
  split; [| split; [reflexivity | vm_compute; reflexivity]].
  intros row j v [<- | [<- | []]] Hj; simpl in Hj;
    repeat match type of Hj with
           | (if ?c then _ else _) = _ => destruct c
           end; congruence.
Qed.

(** ** The scenario of the tag sequence A B A B A *)

(** C2, as the code has it.  [A] occurs three times and is followed by [B]
    twice, so [transition[A][B] = log2 (2/3)]; [B] occurs twice and is
    followed by [A] twice, so [transition[B][A] = log2 (2/2) = 0].  The
    counts that leave a tag are divided by the number of occurrences of the
    tag, which for [A], the last tag of the sequence, is one more than the
    number of transitions that leave it. *)
Theorem transition_scenario :
  exists trans_prob,
    find_trans_prob ["A"; "B"; "A"; "B"; "A"] ["A"; "B"] = Ok trans_prob /\
    entry trans_prob "A" "B" = Some (log2 (2 # 3)) /\
    entry trans_prob "B" "A" = Some (log2 (2 # 2)) /\
    num_eq (log2 (2 # 2)) (lit 0) /\
    Counter_get ["A"; "B"; "A"; "B"; "A"] "A" = 3%Z /\
    outgoing ["A"; "B"; "A"; "B"; "A"] "A" = 2%Z /\
    Counter_get ["A"; "B"; "A"; "B"; "A"] "B" = 2%Z /\
    outgoing ["A"; "B"; "A"; "B"; "A"] "B" = 2%Z.
Proof.
  eexists. split; [vm_compute; reflexivity |].
  repeat split; reflexivity.
Qed.

(** C2, as stated, fails: [transition[A][B]] is not [log2 (2/2) = 0]. *)
Lemma transition_scenario_A_B_not_zero :
  exists trans_prob x,
    find_trans_prob ["A"; "B"; "A"; "B"; "A"] ["A"; "B"] = Ok trans_prob /\
    entry trans_prob "A" "B" = Some x /\
    ~ num_eq x (log2 (2 # 2)).
Proof.
  eexists. eexists. split; [vm_compute; reflexivity |].
  split; [reflexivity |]. vm_compute. discriminate.
Qed.

(** ** The smoothed patch stores a probability, not its logarithm *)

(** C6 at its failing input.  Trained on the single pair [a/A], the
    residual of [A] is [1/(1+1)]; for the unknown word [u] the patch stores
    the number [1/2] itself, which is greater than [log2 (1/2) = -1], the
    entry the claim describes. *)
Theorem laplace_patch_stores_raw_residual :
  exists smoothed unseen_values patched,
    laplace_emis_prob ["a"] [("a", "A")] ["A"] = Ok (smoothed, unseen_values) /\
    get "A" unseen_values = Some (1 # 2) /\
    laplace_add_emis ["A"] smoothed (unknown_words ["u"] ["a"]) unseen_values = Ok patched /\
    entry patched "A" "u" = Some (lit (1 # 2)) /\
    num_cmp (lit (1 # 2)) (log2 (1 # 2)) = Gt /\
    num_eq (log2 (1 # 2)) (lit (-1)).
Proof.
  do 3 eexists. split; [vm_compute; reflexivity |].
  repeat split; reflexivity.
Qed.

(** ** Counting *)

Lemma Counter_get_cons (x : string) (l : list string) (p : string) :
  Counter_get (x :: l) p = ((if string_dec x p then 1 else 0) + Counter_get l p)%Z.
Proof.
  unfold Counter_get. simpl. destruct (string_dec x p); lia.
Qed.

Lemma Counter_get_nonneg (l : list string) (p : string) : (0 <= Counter_get l p)%Z.
Proof. unfold Counter_get. lia. Qed.

Lemma Counter_get_pos (l : list string) (p : string) :
  In p l -> (0 < Counter_get l p)%Z.
Proof.
  intros H. unfold Counter_get.
  apply (count_occ_In string_dec) in H. lia.
Qed.

Lemma sum_put (w : string) (c : Z) (row : dict Z) :
  sum (values (put w c row)) =
  (sum (values row) - match get w row with Some c0 => c0 | None => 0 end + c)%Z.
Proof.
  unfold sum, values. induction row as [| [k v] row IH]; simpl; [lia |].
  destruct (k =? w); simpl; lia.
Qed.

Lemma values_put_Forall (P : Z -> Prop) (w : string) (c : Z) (row : dict Z) :
  P c -> Forall P (values row) -> Forall P (values (put w c row)).
Proof.
  intros Hc. unfold values. induction row as [| [k v] row IH]; simpl; intros H.
  - constructor; auto.
  - inversion H; subst. destruct (k =? w); simpl; constructor; auto.
Qed.

Lemma get_values_Forall (P : Z -> Prop) (w : string) (c : Z) (row : dict Z) :
  Forall P (values row) -> get w row = Some c -> P c.
Proof.
  intros H Hg. apply get_some_in in Hg. rewrite Forall_forall in H.
  apply H. unfold values. change c with (snd (w, c)). now apply in_map.
Qed.

Lemma get_put (k k' : string) {V : Type} (v : V) (d : dict V) :
  get k' (put k v d) = if k =? k' then Some v else get k' d.
Proof.
  destruct (string_dec k k') as [<- | Hne].
  - now rewrite get_put_same, String.eqb_refl.
  - rewrite get_put_other by assumption. apply String.eqb_neq in Hne. now rewrite Hne.
Qed.

Lemma get_map_const {V : Type} (v : V) (pos : list string) (p : string) :
  get p (map (fun q => (q, v)) pos) = if in_dec string_dec p pos then Some v else None.
Proof.
  induction pos as [| q pos IH]; simpl; [reflexivity |].
  destruct (q =? p) eqn:E.
  - apply String.eqb_eq in E. subst. destruct (string_dec p p); [reflexivity | congruence].
  - apply String.eqb_neq in E. rewrite IH.
    destruct (string_dec q p); [congruence |].
    destruct (in_dec string_dec p pos); reflexivity.
Qed.

Lemma keys_map_const {V : Type} (v : V) (pos : list string) :
  keys (map (fun q => (q, v)) pos) = pos.
Proof. unfold keys. rewrite map_map. simpl. apply map_id. Qed.

(** What [count_emissions] does to the row of each tag. *)
Lemma count_emissions_spec (training_tagged : list (string * string)) :
  forall pos_counts pos_counts',
    count_emissions training_tagged pos_counts = Ok pos_counts' ->
    keys pos_counts' = keys pos_counts /\
    forall tag,
      match get tag pos_counts with
      | None => get tag pos_counts' = None
      | Some row =>
          exists row',
            get tag pos_counts' = Some row' /\
            sum (values row') =
              (sum (values row) + Counter_get (map snd training_tagged) tag)%Z /\
            (Forall (fun c => 1 <= c)%Z (values row) ->
             Forall (fun c => 1 <= c)%Z (values row')) /\
            (forall w, In w (keys row') -> In w (keys row) \/ In (w, tag) training_tagged)
      end.
Proof.
  induction training_tagged as [| [word tag0] rest IH]; simpl; intros pc pc' H.
  - injection H as <-. split; [reflexivity |]. intros tag.
    destruct (get tag pc) as [row |]; [| reflexivity].
    exists row. unfold Counter_get. simpl. split; [reflexivity |].
    split; [lia |]. auto.
  - bind_inv H as row0 Hrow0. apply lookup_ok in Hrow0.
    set (row0' := match get word row0 with
                  | Some c => put word (c + 1)%Z row0
                  | None => put word 1%Z row0
                  end) in *.
    destruct (IH _ _ H) as (Hk & Hrows). split.
    { rewrite Hk. apply keys_put_present, get_in_keys. congruence. }
    intros tag. specialize (Hrows tag). rewrite get_put in Hrows.
    rewrite Counter_get_cons.
    destruct (string_dec tag0 tag) as [<- | Hne].
    + rewrite String.eqb_refl in Hrows. rewrite Hrow0.
      destruct Hrows as (row' & Hg & Hsum & Hpos & Hkeys).
      exists row'. split; [assumption |].
      assert (Hs0 : sum (values row0') = (sum (values row0) + 1)%Z).
      { unfold row0'. destruct (get word row0) as [c |] eqn:Ec;
          rewrite sum_put, Ec; lia. }
      split; [lia |]. split.
      * intros Hall. apply Hpos. unfold row0'.
        destruct (get word row0) as [c |] eqn:Ec; apply values_put_Forall; auto; try lia.
        pose proof (get_values_Forall _ _ _ _ Hall Ec). simpl in H0. lia.
      * intros w Hw. destruct (Hkeys w Hw) as [Hw' | Hw']; [| auto].
        assert (Hw'' : w = word \/ In w (keys row0)).
        { unfold row0' in Hw'. destruct (get word row0);
            now apply keys_put_incl in Hw'. }
        destruct Hw'' as [-> | Hw'']; auto.
    + apply String.eqb_neq in Hne. rewrite Hne in Hrows.
      destruct (get tag pc) as [row |]; [| assumption].
      destruct Hrows as (row' & Hg & Hsum & Hpos & Hkeys).
      exists row'. split; [assumption |]. split; [lia |]. split; [assumption |].
      intros w Hw. destruct (Hkeys w Hw); auto.
Qed.

Lemma count_emissions_total (training_tagged : list (string * string)) :
  forall pos_counts,
    (forall w tag, In (w, tag) training_tagged -> In tag (keys pos_counts)) ->
    exists pos_counts', count_emissions training_tagged pos_counts = Ok pos_counts'.
Proof.
  induction training_tagged as [| [word tag0] rest IH]; simpl; intros pc H; [eauto |].
  assert (Hk : In tag0 (keys pc)) by (apply (H word); now left).
  apply get_in_keys in Hk. unfold lookup.
  destruct (get tag0 pc) as [row0 |] eqn:Hrow0; [| congruence]. simpl.
  apply IH. intros w tag Hin. rewrite keys_put_present.
  - apply (H w). now right.
  - apply get_in_keys. congruence.
Qed.

(** The counts a corpus leaves in the table that starts empty. *)
Lemma emission_counts (training_tagged : list (string * string)) (pos : list string)
  (pos_counts : dict (dict Z)) :
  count_emissions training_tagged (map (fun p => (p, [])) pos) = Ok pos_counts ->
  keys pos_counts = pos /\
  forall tag, In tag pos ->
    exists counts,
      get tag pos_counts = Some counts /\
      sum (values counts) = Counter_get (map snd training_tagged) tag /\
      Forall (fun c => 1 <= c)%Z (values counts) /\
      (forall w, In w (keys counts) -> In (w, tag) training_tagged).
Proof.
  intros H. apply count_emissions_spec in H. destruct H as (Hk & Hrows).
  rewrite keys_map_const in Hk. split; [assumption |].
  intros tag Htag. specialize (Hrows tag). rewrite get_map_const in Hrows.
  destruct (in_dec string_dec tag pos); [| tauto].
  destruct Hrows as (counts & Hg & Hsum & Hpos & Hkeys).
  exists counts. split; [assumption |]. split; [simpl in Hsum; lia |].
  split; [apply Hpos; constructor |].
  intros w Hw. destruct (Hkeys w Hw) as [[] | Hin]. assumption.
Qed.

Lemma count_totals_spec (pos : list string) (pos_counts : dict (dict Z))
  (total_count : dict Z) :
  count_totals pos pos_counts = Ok total_count ->
  forall tag, In tag pos ->
    exists counts,
      get tag pos_counts = Some counts /\ get tag total_count = Some (sum (values counts)).
Proof.
  unfold count_totals. revert total_count.
  induction pos as [| p pos IH]; simpl; intros tc H tag Htag; [tauto |].
  bind_inv H as y Hy. bind_inv H as ys Hys. injection H as <-.
  bind_inv Hy as row Hrow. injection Hy as <-. apply lookup_ok in Hrow.
  simpl. destruct (p =? tag) eqn:E.
  - apply String.eqb_eq in E. subst p. eauto.
  - apply String.eqb_neq in E. destruct Htag as [Heq | Htag]; [congruence |].
    now apply IH.
Qed.

Lemma count_totals_total (pos : list string) (pos_counts : dict (dict Z)) :
  (forall tag, In tag pos -> In tag (keys pos_counts)) ->
  exists total_count, count_totals pos pos_counts = Ok total_count.
Proof.
  intros H. apply mapM_total. intros tag Htag.
  apply H, get_in_keys in Htag. unfold lookup.
  destruct (get tag pos_counts); [simpl; eauto | congruence].
Qed.

(** ** Rows of probabilities *)

Lemma mapM_log_rows (body : string * Z -> result exn (string * num)) (q : Z -> Q)
  (counts : dict Z) (row : dict num) :
  (forall w c y, In (w, c) counts -> body (w, c) = Ok y -> y = (w, log_prob (q c))) ->
  mapM body counts = Ok row ->
  keys row = keys counts /\ values row = map (fun c => log_prob (q c)) (values counts).
Proof.
  revert row. unfold keys, values.
  induction counts as [| [w c] counts IH]; simpl; intros row Hbody H.
  - injection H as <-. auto.
  - bind_inv H as y Hy. bind_inv H as ys Hys. injection H as <-.
    rewrite (Hbody w c y (or_introl eq_refl) Hy). simpl.
    destruct (IH ys) as [-> ->]; auto.
Qed.

Lemma row_mass_log_probs (q : Z -> Q) (cs : list Z) :
  Forall (fun c => 0 <= q c)%Q cs ->
  Rsum (map exp2 (map (fun c => log_prob (q c)) cs)) = Rsum (map (fun c => Q2R (q c)) cs).
Proof.
  induction 1 as [| c cs Hc _ IH]; simpl; [reflexivity |].
  now rewrite exp2_log_prob, IH.
Qed.

Lemma Rsum_ratio (k t : Z) (cs : list Z) :
  t <> 0%Z ->
  Rsum (map (fun c => Q2R (inject_Z (c + k) / inject_Z t)) cs)
  = ((IZR (sum cs) + IZR k * IZR (Z.of_nat (List.length cs))) / IZR t)%R.
Proof.
  intros Ht. assert (IZR t <> 0)%R by (now apply not_0_IZR).
  unfold sum, Rsum. induction cs as [| c cs IH].
  - simpl. field. assumption.
  - cbn [map fold_right List.length]. rewrite IH, Q2R_div_Z by assumption.
    rewrite Nat2Z.inj_succ, succ_IZR, !plus_IZR. field. assumption.
Qed.

Lemma sum_ge_length (cs : list Z) :
  Forall (fun c => 1 <= c)%Z cs -> (Z.of_nat (List.length cs) <= sum cs)%Z.
Proof.
  unfold sum. induction 1 as [| c cs Hc _ IH]; simpl List.length; simpl fold_right; lia.
Qed.

Lemma sum_nonneg (cs : list Z) :
  Forall (fun c => 0 <= c)%Z cs -> (0 <= sum cs)%Z.
Proof.
  unfold sum. induction 1 as [| c cs Hc _ IH]; simpl; lia.
Qed.

Lemma in_values {V : Type} (w : string) (c : V) (d : dict V) :
  In (w, c) d -> In c (values d).
Proof. intros H. unfold values. change c with (snd (w, c)). now apply in_map. Qed.

Lemma in_keys {V : Type} (w : string) (c : V) (d : dict V) :
  In (w, c) d -> In w (keys d).
Proof. intros H. unfold keys. change w with (fst (w, c)). now apply in_map. Qed.

(** The mass of a row of smoothed or unsmoothed relative frequencies:
    every count [c] of the row became [log2 ((c + k) / t)]. *)
Lemma row_mass_ratio (k t : Z) (counts : dict Z) (row : dict num) :
  (0 <= k)%Z -> (0 < t)%Z ->
  Forall (fun c => 0 <= c)%Z (values counts) ->
  values row = map (fun c => log_prob (inject_Z (c + k) / inject_Z t)) (values counts) ->
  row_mass row
  = ((IZR (sum (values counts)) + IZR k * IZR (Z.of_nat (List.length counts))) / IZR t)%R.
Proof.
  intros Hk Ht Hpos Hv. unfold row_mass. rewrite Hv, row_mass_log_probs.
  - rewrite Rsum_ratio by lia. unfold values. now rewrite length_map.
  - rewrite Forall_forall in *. intros c Hc. apply div_Z_nonneg; [| assumption].
    specialize (Hpos c Hc). simpl in Hpos. lia.
Qed.

(** ** The unsmoothed emission table *)

Lemma find_emis_prob_spec (training_tagged : list (string * string)) (pos : list string) :
  NoDup pos ->
  (forall w tag, In (w, tag) training_tagged -> In tag pos) ->
  exists emis_prob,
    find_emis_prob training_tagged pos = Ok emis_prob /\
    keys emis_prob = pos /\
    forall tag, In tag pos ->
      exists counts row,
        get tag emis_prob = Some row /\
        sum (values counts) = Counter_get (map snd training_tagged) tag /\
        Forall (fun c => 1 <= c)%Z (values counts) /\
        (forall w, In w (keys counts) -> In (w, tag) training_tagged) /\
        keys row = keys counts /\
        values row = map (fun c => log_prob (inject_Z (c + 0) / inject_Z (sum (values counts))))
                         (values counts).
Proof.
  intros Hnd Htags. unfold find_emis_prob.
  destruct (count_emissions_total training_tagged (map (fun p => (p, [])) pos))
    as (pc & Hpc).
  { intros w tag Hin. rewrite keys_map_const. eauto. }
  rewrite Hpc. simpl. destruct (emission_counts _ _ _ Hpc) as (Hk & Hrows).
  destruct (count_totals_total pos pc) as (tc & Htc); [now rewrite Hk |].
  rewrite Htc. simpl. pose proof (count_totals_spec _ _ _ Htc) as Htot.
  set (body := fun '(tag, row) =>
                 row' <- mapM (fun '(word, c) =>
                                 t <- lookup tag tc ;;
                                 x <- truediv c t ;;
                                 Ok (word, log_prob x)) row ;;
                 Ok (tag, row')).
  assert (Hinner : forall tag counts, In tag pos -> get tag pc = Some counts ->
            Forall (fun c => 1 <= c)%Z (values counts) ->
            forall w c y, In (w, c) counts ->
              (t <- lookup tag tc ;; x <- truediv c t ;; Ok (w, log_prob x)) = Ok y <->
              y = (w, log_prob (inject_Z (c + 0) / inject_Z (sum (values counts))))).
  { intros tag counts Htag Hg Hall w c y Hin.
    destruct (Htot tag Htag) as (counts' & Hg' & Ht).
    assert (counts' = counts) by congruence. subst counts'.
    unfold lookup. rewrite Ht. simpl. unfold truediv.
    pose proof (sum_ge_length _ Hall) as Hlen.
    assert (0 < List.length (values counts))%nat.
    { apply in_values in Hin. destruct (values counts); [destruct Hin | simpl; lia]. }
    destruct (Z.eqb_spec (sum (values counts)) 0) as [E | E]; [lia |]. simpl.
    rewrite Z.add_0_r. split; congruence. }
  assert (Hbody : forall tag counts, In (tag, counts) pc -> exists y, body (tag, counts) = Ok y).
  { intros tag counts Hin. assert (Htag : In tag pos) by (rewrite <- Hk; eapply in_keys; eauto).
    assert (Hg : get tag pc = Some counts) by (apply in_get_nodup; [now rewrite Hk | assumption]).
    destruct (Hrows tag Htag) as (counts' & Hg' & _ & Hall & _).
    assert (counts' = counts) by congruence. subst counts'.
    unfold body. destruct (mapM_total
      (fun '(word, c) => t <- lookup tag tc ;; x <- truediv c t ;; Ok (word, log_prob x))
      counts) as (row' & Hrow').
    - intros [w c] Hin'. eexists. now apply (Hinner tag counts Htag Hg Hall w c).
    - rewrite Hrow'. simpl. eauto. }
  destruct (mapM_total body pc) as (emis & Hemis).
  { intros [tag counts]. apply Hbody. }
  exists emis. split; [exact Hemis |].
  assert (Hfst : forall kv y, body kv = Ok y -> fst y = fst kv).
  { intros [tag counts] y Hy. unfold body in Hy. bind_inv Hy as row' Hrow'.
    now injection Hy as <-. }
  split; [etransitivity; [exact (mapM_keys _ _ _ Hfst Hemis) | exact Hk] |].
  intros tag Htag. destruct (Hrows tag Htag) as (counts & Hg & Hsum & Hall & Hwords).
  destruct (mapM_get _ _ _ tag counts Hfst Hemis Hg) as (row & Hrow & Hgrow).
  unfold body in Hrow.
  bind_inv Hrow as row' Hrow'. injection Hrow as <-.
  exists counts, row'. split; [assumption |]. split; [assumption |].
  split; [assumption |]. split; [assumption |].
  apply (mapM_log_rows
           (fun '(word, c) => t <- lookup tag tc ;; x <- truediv c t ;; Ok (word, log_prob x))
           (fun c => inject_Z (c + 0) / inject_Z (sum (values counts)))%Q counts row');
    [| exact Hrow'].
  intros w c y Hin Hy. now apply (Hinner tag counts Htag Hg Hall w c).
Qed.

(** ** The smoothed emission table *)

Lemma Forall2_get {A B : Type} (R : string -> A -> B -> Prop) (d : dict A) (d' : dict B) :
  Forall2 (fun ka kb => fst kb = fst ka /\ R (fst ka) (snd ka) (snd kb)) d d' ->
  keys d' = keys d /\
  forall k a, get k d = Some a -> exists b, get k d' = Some b /\ R k a b.
Proof.
  unfold keys. induction 1 as [| [k0 a0] [k1 b1] d d' [Hk HR] _ [IHk IHg]]; simpl.
  - split; [reflexivity | discriminate].
  - simpl in Hk, HR. subst k1. split; [now rewrite IHk |].
    intros k a. destruct (k0 =? k) eqn:E; [| apply IHg].
    apply String.eqb_eq in E. subst k0. intros [= ->]. eauto.
Qed.

Section LaplaceRows.
Variable V : Z.
Variable pos : list string.
Variable total_count : dict Z.

Lemma laplace_rows_spec (pos_counts : dict (dict Z)) :
  forall unseen rows u,
    laplace_rows V pos total_count pos_counts unseen = Ok (rows, u) ->
    Forall2 (fun kc kr => fst kr = fst kc /\
                          mapM (smooth V total_count (fst kc)) (snd kc) = Ok (snd kr)) pos_counts rows /\
    (pos_counts = [] -> u = unseen) /\
    (pos_counts <> [] -> exists uv, u = Some uv /\ mapM (residual V total_count) pos = Ok uv).
Proof.
  induction pos_counts as [| [tag counts] rest IH]; simpl; intros unseen rows u H.
  - injection H as <- <-. split; [constructor |]. split; congruence.
  - bind_inv H as row' Hrow'. bind_inv H as uv Huv. bind_inv H as p Hp.
    destruct p as [rest' u']. injection H as <- <-.
    destruct (IH _ _ _ Hp) as (Hrows & Hnil & Hcons).
    split; [constructor; [split; [reflexivity | exact Hrow'] | exact Hrows] |].
    split; [discriminate |]. intros _.
    destruct rest as [| kc rest].
    + rewrite Hnil by reflexivity. eauto.
    + apply Hcons. discriminate.
Qed.

Lemma laplace_rows_total (pos_counts : dict (dict Z)) :
  (forall tag counts, In (tag, counts) pos_counts ->
                      exists row', mapM (smooth V total_count tag) counts = Ok row') ->
  (exists uv, mapM (residual V total_count) pos = Ok uv) ->
  forall unseen, exists rows u, laplace_rows V pos total_count pos_counts unseen = Ok (rows, u).
Proof.
  intros Hrows (uv & Huv).
  induction pos_counts as [| [tag counts] rest IH]; simpl; intros unseen; [eauto |].
  destruct (Hrows tag counts) as (row' & Hrow'); [now left |].
  rewrite Hrow'. simpl. rewrite Huv. simpl.
  destruct (IH (fun t c H => Hrows t c (or_intror H)) (Some uv)) as (rows & u & Hr).
  rewrite Hr. simpl. eauto.
Qed.

Lemma residual_spec (uv : dict Q) :
  mapM (residual V total_count) pos = Ok uv ->
  forall tag, In tag pos ->
    exists t, get tag total_count = Some t /\ (t + V <> 0)%Z /\
              get tag uv = Some (inject_Z 1 / inject_Z (t + V))%Q.
Proof.
  revert uv. induction pos as [| p ps IH]; simpl; intros uv H tag Htag; [tauto |].
  bind_inv H as y Hy. bind_inv H as ys Hys. injection H as <-.
  unfold residual in Hy. bind_inv Hy as t Ht. bind_inv Hy as x Hx. injection Hy as <-.
  apply lookup_ok in Ht. unfold truediv in Hx.
  destruct (Z.eqb_spec (t + V) 0) as [E | E]; [discriminate |]. injection Hx as <-.
  simpl. destruct (p =? tag) eqn:Ep.
  - apply String.eqb_eq in Ep. subst p. eauto.
  - apply String.eqb_neq in Ep. destruct Htag as [Heq | Htag]; [congruence |].
    now apply IH.
Qed.

Lemma smooth_spec (tag : string) (t : Z) (w : string) (c : Z) (y : string * num) :
  get tag total_count = Some t -> (t + V <> 0)%Z ->
  (smooth V total_count tag (w, c) = Ok y <-> y = (w, log_prob (inject_Z (c + 1) / inject_Z (t + V)))).
Proof.
  intros Ht Hne. unfold smooth, lookup, truediv. rewrite Ht. simpl.
  destruct (Z.eqb_spec (t + V) 0) as [E | E]; [congruence |]. simpl.
  split; congruence.
Qed.
End LaplaceRows.

Lemma laplace_emis_prob_spec (training_vocab : list string)
  (training_tagged : list (string * string)) (pos : list string) :
  let V := Z.of_nat (List.length training_vocab) in
  NoDup pos -> pos <> [] -> training_vocab <> [] ->
  (forall w tag, In (w, tag) training_tagged -> In tag pos) ->
  exists smoothed unseen_values,
    laplace_emis_prob training_vocab training_tagged pos = Ok (smoothed, unseen_values) /\
    keys smoothed = pos /\
    forall tag, In tag pos ->
      exists counts row,
        get tag smoothed = Some row /\
        get tag unseen_values = Some (inject_Z 1 / inject_Z (sum (values counts) + V))%Q /\
        sum (values counts) = Counter_get (map snd training_tagged) tag /\
        Forall (fun c => 1 <= c)%Z (values counts) /\
        (forall w, In w (keys counts) -> In (w, tag) training_tagged) /\
        keys row = keys counts /\
        values row = map (fun c => log_prob (inject_Z (c + 1) / inject_Z (sum (values counts) + V)))
                         (values counts).
Proof.
  intros V Hnd Hpos Hvocab Htags. unfold laplace_emis_prob. fold V.
  assert (HV : (0 < V)%Z).
  { unfold V. destruct training_vocab; [congruence | simpl List.length; lia]. }
  destruct (count_emissions_total training_tagged (map (fun p => (p, [])) pos))
    as (pc & Hpc).
  { intros w tag Hin. rewrite keys_map_const. eauto. }
  rewrite Hpc. simpl. destruct (emission_counts _ _ _ Hpc) as (Hk & Hrows).
  destruct (count_totals_total pos pc) as (tc & Htc); [now rewrite Hk |].
  rewrite Htc. simpl. pose proof (count_totals_spec _ _ _ Htc) as Htot.
  assert (Hden : forall tag, In tag pos ->
            exists counts, get tag pc = Some counts /\
                           get tag tc = Some (sum (values counts)) /\
                           (sum (values counts) + V <> 0)%Z).
  { intros tag Htag. destruct (Hrows tag Htag) as (counts & Hg & _ & Hall & _).
    destruct (Htot tag Htag) as (counts' & Hg' & Ht).
    assert (counts' = counts) by congruence. subst counts'.
    exists counts. split; [assumption |]. split; [assumption |].
    pose proof (sum_ge_length _ Hall). lia. }
  assert (Hsm : forall tag counts, In (tag, counts) pc ->
            exists row', mapM (smooth V tc tag) counts = Ok row').
  { intros tag counts Hin. apply mapM_total. intros [w c] _.
    assert (Htag : In tag pos) by (rewrite <- Hk; eapply in_keys; eauto).
    destruct (Hden tag Htag) as (counts' & _ & Ht & Hne).
    eexists. now apply (smooth_spec V tc tag _ w c _ Ht Hne). }
  assert (Hre : exists uv, mapM (residual V tc) pos = Ok uv).
  { apply mapM_total. intros tag Htag.
    destruct (Hden tag Htag) as (counts & _ & Ht & Hne).
    unfold residual, lookup, truediv. rewrite Ht. simpl.
    destruct (Z.eqb_spec (sum (values counts) + V) 0); [congruence |]. simpl. eauto. }
  destruct (laplace_rows_total V pos tc pc Hsm Hre None) as (rows & u & Hlr).
  rewrite Hlr. simpl.
  destruct (laplace_rows_spec V pos tc pc _ _ _ Hlr) as (Hf2 & _ & Hu).
  destruct Hu as (uv & -> & Huv).
  { intros ->. unfold keys in Hk. simpl in Hk. congruence. }
  exists rows, uv. split; [reflexivity |].
  apply Forall2_get with (R := fun tag counts row =>
    mapM (smooth V tc tag) counts = Ok row) in Hf2.
  destruct Hf2 as (Hkeys & Hget). split; [etransitivity; [exact Hkeys | exact Hk] |].
  intros tag Htag. destruct (Hrows tag Htag) as (counts & Hg & Hsum & Hall & Hwords).
  destruct (Hden tag Htag) as (counts' & Hg' & Ht & Hne).
  assert (counts' = counts) by congruence. subst counts'.
  destruct (Hget tag counts Hg) as (row & Hgrow & Hrow).
  destruct (residual_spec V pos tc uv Huv tag Htag) as (t & Ht' & _ & Hres).
  assert (t = sum (values counts)) by congruence. subst t.
  exists counts, row. repeat (split; [assumption |]).
  apply (mapM_log_rows (smooth V tc tag)
           (fun c => inject_Z (c + 1) / inject_Z (sum (values counts) + V))%Q counts row);
    [| exact Hrow].
  intros w c y _ Hy. now apply (smooth_spec V tc tag _ w c y Ht Hne).
Qed.

(** ** Unknown words in the unsmoothed table *)

(** The words with an entry in a trained table were seen in training. *)
Lemma row_words_seen (training_tagged : list (string * string)) (tag w : string)
  (counts : dict Z) (row : dict num) (e : num) :
  (forall w', In w' (keys counts) -> In (w', tag) training_tagged) ->
  keys row = keys counts -> get w row = Some e -> In (w, tag) training_tagged.
Proof.
  intros Hwords Hkeys Hg. apply Hwords. rewrite <- Hkeys.
  apply get_in_keys. congruence.
Qed.

(** C5, as the code has it.  After [add_emis], every word of the decode
    vocabulary that is absent from the training vocabulary has, under every
    tag, the emission entry [0]: the logarithm of probability 1, which is
    finite. *)
Theorem unsmoothed_unknown_entries
  (training_tagged : list (string * string)) (pos test_vocab training_vocab : list string) :
  NoDup pos ->
  (forall w tag, In (w, tag) training_tagged -> In tag pos) ->
  exists emis_prob patched,
    find_emis_prob training_tagged pos = Ok emis_prob /\
    add_emis pos emis_prob (unknown_words test_vocab training_vocab) = Ok patched /\
    (forall word j, In word test_vocab -> ~ In word training_vocab -> In j pos ->
                    entry patched j word = Some (lit 0)) /\
    exp2 (lit 0) = 1%R /\ is_neg_inf (lit 0) = false.
Proof.
  intros Hnd Htags.
  destruct (find_emis_prob_spec _ _ Hnd Htags) as (emis & Hemis & Hk & _).
  destruct (patch_total (fun _ => Ok (lit 0)) pos
              (unknown_words test_vocab training_vocab) emis) as (patched & Hp).
  { intros j Hj. rewrite Hk. eauto. }
  exists emis, patched. split; [assumption |]. split; [exact Hp |].
  split; [| split; [apply exp2_lit_0 | reflexivity]].
  intros word j Hw Hnw Hj.
  destruct (patch_spec _ _ _ _ _ Hp) as (_ & _ & Hin).
  destruct (Hin j word) as (v & Hv & He); [now apply unknown_words_spec | assumption |].
  now injection Hv as <-.
Qed.

Lemma unsmoothed_unknown_entries_witness :
  exists emis_prob patched,
    find_emis_prob [("a", "A"); ("b", "B")] ["A"; "B"] = Ok emis_prob /\
    add_emis ["A"; "B"] emis_prob (unknown_words ["a"; "u"] ["a"; "b"]) = Ok patched /\
    (forall word j, In word ["a"; "u"] -> ~ In word ["a"; "b"] -> In j ["A"; "B"] ->
                    entry patched j word = Some (lit 0)) /\
    exp2 (lit 0) = 1%R /\ is_neg_inf (lit 0) = false.
Proof.
  apply (unsmoothed_unknown_entries [("a", "A"); ("b", "B")] ["A"; "B"] ["a"; "u"] ["a"; "b"]).
  - repeat constructor; simpl; intuition discriminate.
  - intros w tag [H | [H | []]]; injection H as <- <-; simpl; auto.
Defined.

(** C5, as stated, fails: the entry of an unknown word is not negative
    infinity. *)
Lemma unsmoothed_unknown_entry_not_neg_inf :
  exists emis_prob patched x,
    find_emis_prob [("a", "A")] ["A"] = Ok emis_prob /\
    add_emis ["A"] emis_prob (unknown_words ["u"] ["a"]) = Ok patched /\
    entry patched "A" "u" = Some x /\
    ~ num_eq x NegInf.
Proof.
  do 3 eexists. split; [vm_compute; reflexivity |].
  split; [vm_compute; reflexivity |]. split; [reflexivity |].
  vm_compute. discriminate.
Qed.

(** ** What the patches touch *)

(** C10.  On the tables trained from a corpus, [add_emis] and
    [laplace_add_emis] return a table with an entry for every unknown word
    under every tag and with every entry of the trained table unchanged;
    and there is a corpus and a decode vocabulary for which, after the
    patch, a word of the decode vocabulary still has no entry under some
    tag (a training word never seen with that tag). *)
Theorem patches_frame :
  (forall (training_vocab : list string) (training_tagged : list (string * string))
          (pos test_vocab : list string),
     NoDup pos -> pos <> [] -> training_vocab <> [] ->
     (forall w tag, In (w, tag) training_tagged -> In tag pos /\ In w training_vocab) ->
     let unknown := unknown_words test_vocab training_vocab in
     exists emis_prob smoothed unseen_values patched smoothed_patched,
       find_emis_prob training_tagged pos = Ok emis_prob /\
       laplace_emis_prob training_vocab training_tagged pos = Ok (smoothed, unseen_values) /\
       add_emis pos emis_prob unknown = Ok patched /\
       laplace_add_emis pos smoothed unknown unseen_values = Ok smoothed_patched /\
       (forall word j, In word unknown -> In j pos ->
                       entry patched j word <> None /\
                       entry smoothed_patched j word <> None) /\
       (forall j w e, entry emis_prob j w = Some e -> entry patched j w = Some e) /\
       (forall j w e, entry smoothed j w = Some e -> entry smoothed_patched j w = Some e)) /\
  (exists emis_prob patched,
     find_emis_prob [("a", "A"); ("b", "B")] ["A"; "B"] = Ok emis_prob /\
     add_emis ["A"; "B"] emis_prob (unknown_words ["a"; "u"] ["a"; "b"]) = Ok patched /\
     In "a" ["a"; "u"] /\ In "B" ["A"; "B"] /\
     entry patched "B" "a" = None).
Proof.
  split.
  - intros training_vocab training_tagged pos test_vocab Hnd Hpos Hvocab Hcorpus unknown.
    assert (Htags : forall w tag, In (w, tag) training_tagged -> In tag pos)
      by (intros w tag H; now apply (Hcorpus w tag)).
    destruct (find_emis_prob_spec _ _ Hnd Htags) as (emis & Hemis & Hk & Hrows).
    destruct (laplace_emis_prob_spec training_vocab _ _ Hnd Hpos Hvocab Htags)
      as (smoothed & unseen & Hsm & Hks & Hsrows).
    destruct (patch_total (fun _ => Ok (lit 0)) pos unknown emis) as (patched & Hp).
    { intros j Hj. rewrite Hk. eauto. }
    destruct (patch_total (fun j => x <- lookup j unseen ;; Ok (lit x)) pos unknown smoothed)
      as (spatched & Hsp).
    { intros j Hj. rewrite Hks. split; [assumption |].
      destruct (Hsrows j Hj) as (counts & row & _ & Hu & _).
      unfold lookup. rewrite Hu. simpl. eauto. }
    exists emis, smoothed, unseen, patched, spatched.
    repeat (split; [assumption |]).
    destruct (patch_spec _ _ _ _ _ Hp) as (_ & Hframe & Hin).
    destruct (patch_spec _ _ _ _ _ Hsp) as (_ & Hsframe & Hsin).
    assert (Hseen : forall w tag, In (w, tag) training_tagged -> ~ In w unknown).
    { intros w tag Hin' Hun. apply unknown_words_spec in Hun.
      destruct Hun as [_ Hun]. apply Hun. now apply (Hcorpus w tag). }
    split; [| split].
    + intros word j Hw Hj. split.
      * destruct (Hin j word Hw Hj) as (v & _ & ->). discriminate.
      * destruct (Hsin j word Hw Hj) as (v & _ & ->). discriminate.
    + intros j w e He. rewrite Hframe; [assumption |].
      apply entry_some in He. destruct He as (row & Hg & Hw).
      assert (Hj : In j pos) by (rewrite <- Hk; apply get_in_keys; congruence).
      destruct (Hrows j Hj) as (counts & row' & Hg' & _ & _ & Hwords & Hkeys & _).
      assert (row' = row) by congruence. subst row'.
      apply (Hseen w j). eapply row_words_seen; eauto.
    + intros j w e He. rewrite Hsframe; [assumption |].
      apply entry_some in He. destruct He as (row & Hg & Hw).
      assert (Hj : In j pos) by (rewrite <- Hks; apply get_in_keys; congruence).
      destruct (Hsrows j Hj) as (counts & row' & Hg' & _ & _ & _ & Hwords & Hkeys & _).
      assert (row' = row) by congruence. subst row'.
      apply (Hseen w j). eapply row_words_seen; eauto.
  - do 2 eexists. split; [vm_compute; reflexivity |].
    split; [vm_compute; reflexivity |].
    split; [simpl; auto |]. split; [simpl; auto |]. reflexivity.
Qed.

Lemma patches_frame_witness :
  exists emis_prob smoothed unseen_values patched smoothed_patched,
    find_emis_prob [("a", "A"); ("b", "B")] ["A"; "B"] = Ok emis_prob /\
    laplace_emis_prob ["a"; "b"] [("a", "A"); ("b", "B")] ["A"; "B"]
    = Ok (smoothed, unseen_values) /\
    add_emis ["A"; "B"] emis_prob (unknown_words ["a"; "u"] ["a"; "b"]) = Ok patched /\
    laplace_add_emis ["A"; "B"] smoothed (unknown_words ["a"; "u"] ["a"; "b"]) unseen_values
    = Ok smoothed_patched /\
    (forall word j, In word (unknown_words ["a"; "u"] ["a"; "b"]) -> In j ["A"; "B"] ->
                    entry patched j word <> None /\
                    entry smoothed_patched j word <> None) /\
    (forall j w e, entry emis_prob j w = Some e -> entry patched j w = Some e) /\
    (forall j w e, entry smoothed j w = Some e -> entry smoothed_patched j w = Some e).
Proof.
  apply (proj1 patches_frame ["a"; "b"] [("a", "A"); ("b", "B")] ["A"; "B"] ["a"; "u"]).
  - repeat constructor; simpl; intuition discriminate.
  - discriminate.
  - discriminate.
  - intros w tag [H | [H | []]]; injection H as <- <-; simpl; auto.
Defined.

(** ** The mass of a smoothed row *)

(** C4, as the code has it.  With [C] the number of training pairs of the
    tag, [V] the size of the training vocabulary and [n] the number of
    entries of the tag's smoothed row (the distinct words seen under the
    tag), the residual is [1/(C+V)], the smoothed probabilities of the row
    sum to [(C+n)/(C+V)], so the residual plus that sum is
    [(C+n+1)/(C+V)]; what equals 1 is the sum plus [V - n] times the
    residual, one residual for every vocabulary word unseen under the
    tag. *)
Theorem laplace_row_mass
  (training_vocab : list string) (training_tagged : list (string * string))
  (pos : list string) :
  let V := Z.of_nat (List.length training_vocab) in
  NoDup pos -> pos <> [] -> training_vocab <> [] ->
  (forall w tag, In (w, tag) training_tagged -> In tag pos) ->
  exists smoothed unseen_values,
    laplace_emis_prob training_vocab training_tagged pos = Ok (smoothed, unseen_values) /\
    forall tag, In tag pos ->
      exists row residual,
        let C := Counter_get (map snd training_tagged) tag in
        let n := Z.of_nat (List.length row) in
        get tag smoothed = Some row /\
        get tag unseen_values = Some residual /\
        Q2R residual = (1 / IZR (C + V))%R /\
        (row_mass row + Q2R residual = IZR (C + n + 1) / IZR (C + V))%R /\
        (row_mass row + IZR (V - n) * Q2R residual = 1)%R.
Proof.
  intros V Hnd Hpos Hvocab Htags.
  destruct (laplace_emis_prob_spec training_vocab _ _ Hnd Hpos Hvocab Htags)
    as (smoothed & unseen & Hsm & _ & Hrows).
  exists smoothed, unseen. split; [exact Hsm |].
  intros tag Htag.
  destruct (Hrows tag Htag) as (counts & row & Hg & Hu & Hsum & Hall & _ & Hkeys & Hvals).
  fold V in Hu, Hvals. rewrite Hsum in Hu, Hvals.
  exists row, (inject_Z 1 / inject_Z (Counter_get (map snd training_tagged) tag + V))%Q.
  cbv zeta.
  assert (HV : (0 < V)%Z).
  { unfold V. destruct training_vocab; [congruence | simpl List.length; lia]. }
  pose proof (Counter_get_nonneg (map snd training_tagged) tag) as HC.
  set (C := Counter_get (map snd training_tagged) tag) in *.
  assert (Hlen : List.length row = List.length counts).
  { unfold keys in Hkeys. apply (f_equal (@List.length string)) in Hkeys.
    now rewrite !length_map in Hkeys. }
  assert (Hmass : row_mass row
                  = ((IZR C + 1 * IZR (Z.of_nat (List.length counts))) / IZR (C + V))%R).
  { rewrite <- Hsum. apply row_mass_ratio; try lia.
    - eapply Forall_impl; [| exact Hall]. simpl. intros; lia.
    - rewrite Hsum. exact Hvals. }
  assert (HCV : (IZR (C + V) <> 0)%R) by (apply not_0_IZR; lia).
  split; [assumption |]. split; [assumption |].
  rewrite Q2R_div_Z by lia. rewrite Hmass, Hlen.
  split; [reflexivity |]. rewrite !plus_IZR, minus_IZR.
  rewrite plus_IZR in HCV. split; field; assumption.
Qed.

Lemma laplace_row_mass_witness :
  exists smoothed unseen_values,
    laplace_emis_prob ["a"; "b"] [("a", "A"); ("b", "B")] ["A"; "B"]
    = Ok (smoothed, unseen_values) /\
    forall tag, In tag ["A"; "B"] ->
      exists row residual,
        let C := Counter_get (map snd [("a", "A"); ("b", "B")]) tag in
        let n := Z.of_nat (List.length row) in
        get tag smoothed = Some row /\
        get tag unseen_values = Some residual /\
        Q2R residual = (1 / IZR (C + Z.of_nat (List.length ["a"; "b"])))%R /\
        (row_mass row + Q2R residual
         = IZR (C + n + 1) / IZR (C + Z.of_nat (List.length ["a"; "b"])))%R /\
        (row_mass row + IZR (Z.of_nat (List.length ["a"; "b"]) - n) * Q2R residual = 1)%R.
Proof.
  apply (laplace_row_mass ["a"; "b"] [("a", "A"); ("b", "B")] ["A"; "B"]).
  - repeat constructor; simpl; intuition discriminate.
  - discriminate.
  - discriminate.
  - intros w tag [H | [H | []]]; injection H as <- <-; simpl; auto.
Defined.

(** C4, as stated, fails: trained on the single pair [a/A], the smoothed
    row of [A] has the mass [2/2] and the residual is [1/2]; their sum is
    [3/2]. *)
Lemma laplace_residual_plus_row_not_one :
  exists smoothed unseen_values row residual,
    laplace_emis_prob ["a"] [("a", "A")] ["A"] = Ok (smoothed, unseen_values) /\
    get "A" smoothed = Some row /\
    get "A" unseen_values = Some residual /\
    ~ within_tolerance (Q2R residual + row_mass row).
Proof.
  do 4 eexists. split; [vm_compute; reflexivity |].
  split; [reflexivity |]. split; [reflexivity |].
  change (row_mass [("a", Fin 0 2 2)]) with (exp2 (log2 (2 # 2)) + 0)%R.
  rewrite exp2_log2 by reflexivity.
  unfold within_tolerance, Q2R. simpl.
  replace (1 * / 2 + (2 * / 2 + 0) - 1)%R with (/ 2)%R by field.
  rewrite Rabs_pos_eq by lra. lra.
Qed.

(** ** The transition table *)

Lemma outgoing_cons (x y : string) (l : list string) (tag : string) :
  outgoing (x :: y :: l) tag
  = ((if string_dec x tag then 1 else 0) + outgoing (y :: l) tag)%Z.
Proof.
  unfold outgoing. change (removelast (x :: y :: l)) with (x :: removelast (y :: l)).
  apply Counter_get_cons.
Qed.

(** Every tag but the last has as many outgoing transitions as
    occurrences; the last one has one less. *)
Lemma outgoing_last (l : list string) (tag : string) :
  l <> [] ->
  Counter_get l tag
  = (outgoing l tag + (if string_dec (last l "") tag then 1 else 0))%Z.
Proof.
  induction l as [| x l IH]; [congruence |]. intros _.
  destruct l as [| y l].
  - unfold outgoing, Counter_get. simpl. destruct (string_dec x tag); lia.
  - rewrite outgoing_cons, Counter_get_cons, IH by discriminate.
    change (last (x :: y :: l) "") with (last (y :: l) ""). lia.
Qed.

Lemma count_transitions_spec (training_tags : list string) :
  forall pos_counts pos_counts',
    count_transitions training_tags pos_counts = Ok pos_counts' ->
    keys pos_counts' = keys pos_counts /\
    forall tag,
      match get tag pos_counts with
      | None => get tag pos_counts' = None
      | Some row =>
          exists row',
            get tag pos_counts' = Some row' /\
            keys row' = keys row /\
            sum (values row') = (sum (values row) + outgoing training_tags tag)%Z /\
            (Forall (fun c => 0 <= c)%Z (values row) ->
             Forall (fun c => 0 <= c)%Z (values row'))
      end.
Proof.
  assert (Hstop : forall l pc tag, outgoing l tag = 0%Z ->
            match get tag pc with
            | None => get tag pc = None
            | Some row =>
                exists row' : dict Z,
                  get tag pc = Some row' /\ keys row' = keys row /\
                  sum (values row') = (sum (values row) + outgoing l tag)%Z /\
                  (Forall (fun c => 0 <= c)%Z (values row) ->
                   Forall (fun c => 0 <= c)%Z (values row'))
            end).
  { intros l pc tag H0. destruct (get tag pc) as [row |]; [| reflexivity].
    exists row. rewrite H0. repeat split; auto. lia. }
  induction training_tags as [| x rest IH]; intros pc pc' H.
  - injection H as <-. split; [reflexivity |]. intros tag. now apply Hstop.
  - destruct rest as [| y rest'].
    + injection H as <-. split; [reflexivity |]. intros tag. now apply Hstop.
    + cbn [count_transitions] in H.
      bind_inv H as row Hrow. bind_inv H as c Hc. apply lookup_ok in Hrow, Hc.
      destruct (IH _ _ H) as (Hk & Hrows). split.
      { rewrite Hk. apply keys_put_present, get_in_keys. congruence. }
      intros tag. specialize (Hrows tag). rewrite get_put in Hrows.
      rewrite outgoing_cons.
      destruct (string_dec x tag) as [<- | Hne].
      * rewrite String.eqb_refl in Hrows. rewrite Hrow.
        destruct Hrows as (row' & Hg & Hkeys & Hsum & Hpos).
        exists row'. split; [assumption |]. split.
        { rewrite Hkeys. apply keys_put_present, get_in_keys. congruence. }
        rewrite sum_put, Hc in Hsum. split; [lia |].
        intros Hall. apply Hpos. apply values_put_Forall; [| assumption].
        pose proof (get_values_Forall _ _ _ _ Hall Hc). simpl in H0. lia.
      * apply String.eqb_neq in Hne. rewrite Hne in Hrows.
        destruct (get tag pc) as [row0 |]; [| assumption].
        destruct Hrows as (row' & Hg & Hkeys & Hsum & Hpos).
        exists row'. repeat split; auto; lia.
Qed.

Lemma count_transitions_total (training_tags : list string) :
  forall pos_counts,
    (forall x, In x training_tags ->
       exists row, get x pos_counts = Some row /\
                   forall y, In y training_tags -> In y (keys row)) ->
    exists pos_counts', count_transitions training_tags pos_counts = Ok pos_counts'.
Proof.
  induction training_tags as [| x rest IH]; intros pc H; [simpl; eauto |].
  destruct rest as [| y rest']; [simpl; eauto |].
  cbn [count_transitions].
  destruct (H x) as (row & Hrow & Hkeys); [now left |].
  unfold lookup at 1. rewrite Hrow. simpl.
  assert (Hy : In y (keys row)) by (apply Hkeys; right; now left).
  apply get_in_keys in Hy. unfold lookup.
  destruct (get y row) as [c |] eqn:Hc; [| congruence]. simpl.
  apply IH. intros x' Hx'. rewrite get_put.
  destruct (x =? x') eqn:E.
  - exists (put y (c + 1)%Z row). split; [reflexivity |].
    intros y' Hy'. rewrite keys_put_present.
    + apply Hkeys. now right.
    + apply get_in_keys. congruence.
  - destruct (H x') as (row' & Hrow' & Hkeys'); [now right |].
    exists row'. split; [assumption |]. intros y' Hy'. apply Hkeys'. now right.
Qed.

Lemma sum_values_empty_dic (pos : list string) : sum (values (empty_dic pos)) = 0%Z.
Proof.
  unfold sum, values, empty_dic. induction pos as [| p pos IH]; simpl; [reflexivity | lia].
Qed.

Lemma values_empty_dic_nonneg (pos : list string) :
  Forall (fun c => 0 <= c)%Z (values (empty_dic pos)).
Proof.
  unfold values, empty_dic. induction pos as [| p pos IH]; simpl; constructor; [lia | assumption].
Qed.

Lemma find_trans_prob_spec (training_tags pos : list string) :
  NoDup pos ->
  (forall tag, In tag pos <-> In tag training_tags) ->
  exists trans_prob,
    find_trans_prob training_tags pos = Ok trans_prob /\
    keys trans_prob = pos /\
    forall tag, In tag pos ->
      exists counts row,
        get tag trans_prob = Some row /\
        keys row = pos /\
        sum (values counts) = outgoing training_tags tag /\
        Forall (fun c => 0 <= c)%Z (values counts) /\
        values row = map (fun c => log_prob (inject_Z (c + 0)
                                             / inject_Z (Counter_get training_tags tag)))
                         (values counts).
Proof.
  intros Hnd Hpos. unfold find_trans_prob.
  set (pc0 := map (fun tag => (tag, empty_dic pos)) pos).
  assert (Hg0 : forall tag, In tag pos -> get tag pc0 = Some (empty_dic pos)).
  { intros tag Htag. unfold pc0. rewrite (get_map_const (empty_dic pos)).
    destruct (in_dec string_dec tag pos); [reflexivity | tauto]. }
  assert (Hke : keys (empty_dic pos) = pos) by apply keys_map_const.
  destruct (count_transitions_total training_tags pc0) as (pc & Hpc).
  { intros x Hx. exists (empty_dic pos). split; [apply Hg0; now apply Hpos |].
    intros y Hy. rewrite Hke. now apply Hpos. }
  rewrite Hpc. simpl. destruct (count_transitions_spec _ _ _ Hpc) as (Hk & Hrows).
  unfold pc0 in Hk. rewrite keys_map_const in Hk. fold pc0 in Hk.
  set (body := fun '(tag, row) =>
                 row' <- mapM (fun '(word, c) =>
                                 x <- truediv c (Counter_get training_tags tag) ;;
                                 Ok (word, log_prob x)) row ;;
                 Ok (tag, row')).
  assert (Hinner : forall tag, In tag pos -> forall (w : string) (c : Z) (y : string * num),
            (x <- truediv c (Counter_get training_tags tag) ;; Ok (w, log_prob x)) = Ok y <->
            y = (w, log_prob (inject_Z (c + 0) / inject_Z (Counter_get training_tags tag)))).
  { intros tag Htag w c y. unfold truediv.
    pose proof (Counter_get_pos training_tags tag (proj1 (Hpos tag) Htag)).
    destruct (Z.eqb_spec (Counter_get training_tags tag) 0) as [E | E]; [lia |]. simpl.
    rewrite Z.add_0_r. split; congruence. }
  destruct (mapM_total body pc) as (trans & Htrans).
  { intros [tag counts] Hin.
    assert (Htag : In tag pos) by (rewrite <- Hk; eapply in_keys; eauto).
    unfold body. destruct (mapM_total
      (fun '(word, c) => x <- truediv c (Counter_get training_tags tag) ;; Ok (word, log_prob x))
      counts) as (row' & Hrow').
    - intros [w c] _. eexists. now apply (Hinner tag Htag w c).
    - rewrite Hrow'. simpl. eauto. }
  exists trans. split; [exact Htrans |].
  assert (Hfst : forall kv y, body kv = Ok y -> fst y = fst kv).
  { intros [tag counts] y Hy. unfold body in Hy. bind_inv Hy as row' Hrow'.
    now injection Hy as <-. }
  split; [etransitivity; [exact (mapM_keys _ _ _ Hfst Htrans) | exact Hk] |].
  intros tag Htag. specialize (Hrows tag). rewrite (Hg0 tag Htag) in Hrows.
  destruct Hrows as (counts & Hg & Hkeys & Hsum & Hall).
  destruct (mapM_get _ _ _ tag counts Hfst Htrans Hg) as (row & Hrow & Hgrow).
  unfold body in Hrow. bind_inv Hrow as row' Hrow'. injection Hrow as <-.
  rewrite sum_values_empty_dic in Hsum.
  destruct (mapM_log_rows
              (fun '(word, c) =>
                 x <- truediv c (Counter_get training_tags tag) ;; Ok (word, log_prob x))
              (fun c => inject_Z (c + 0) / inject_Z (Counter_get training_tags tag))%Q
              counts row') as (Hkr & Hvr); [| exact Hrow' |].
  { intros w c y _ Hy. now apply (Hinner tag Htag w c). }
  exists counts, row'. split; [assumption |].
  split; [rewrite Hkr, Hkeys; exact Hke |]. split; [lia |].
  split; [apply Hall, values_empty_dic_nonneg | exact Hvr].
Qed.

(** ** The initial table *)

Lemma sum_map_plus {A : Type} (f g : A -> Z) (l : list A) :
  sum (map (fun x => f x + g x)%Z l) = (sum (map f l) + sum (map g l))%Z.
Proof. unfold sum. induction l as [| x l IH]; simpl; lia. Qed.

Lemma sum_indicator (x : string) (pos : list string) :
  NoDup pos -> In x pos ->
  sum (map (fun p => if string_dec x p then 1 else 0)%Z pos) = 1%Z.
Proof.
  unfold sum. induction 1 as [| p pos Hnotin Hnd IH]; simpl; [tauto |].
  intros [-> | Hin].
  - destruct (string_dec x x); [| congruence].
    assert (fold_right Z.add 0%Z (map (fun p => if string_dec x p then 1 else 0)%Z pos) = 0%Z).
    { clear IH Hnd. induction pos as [| q pos IH]; simpl; [reflexivity |].
      destruct (string_dec x q) as [-> | _]; [exfalso; apply Hnotin; now left |].
      rewrite IH; [reflexivity |]. intros H. apply Hnotin. now right. }
    lia.
  - destruct (string_dec x p) as [-> | _]; [tauto |]. rewrite IH by assumption. lia.
Qed.

(** The counts of the tags of [pos] add up to the length of a list drawn
    from [pos]. *)
Lemma sum_Counter_get (l pos : list string) :
  NoDup pos -> incl l pos ->
  sum (map (Counter_get l) pos) = Z.of_nat (List.length l).
Proof.
  intros Hnd. induction l as [| x l IH]; intros Hincl.
  - clear Hnd Hincl. unfold sum, Counter_get. simpl.
    induction pos as [| p pos IH]; simpl; [reflexivity | exact IH].
  - rewrite (map_ext _ (fun p => (if string_dec x p then 1 else 0) + Counter_get l p)%Z)
      by (intros; apply Counter_get_cons).
    rewrite sum_map_plus, sum_indicator, IH.
    + simpl List.length. lia.
    + intros y Hy. apply Hincl. now right.
    + assumption.
    + apply Hincl. now left.
Qed.

Lemma find_init_prob_spec (training_sent_init pos : list string) :
  training_sent_init <> [] ->
  exists init_prob,
    find_init_prob training_sent_init pos = Ok init_prob /\
    keys init_prob = pos /\
    values init_prob
    = map (fun c => log_prob (inject_Z (c + 0)
                              / inject_Z (Z.of_nat (List.length training_sent_init))))
          (map (Counter_get training_sent_init) pos).
Proof.
  intros Hne. unfold find_init_prob.
  set (n := Z.of_nat (List.length training_sent_init)).
  assert (Hn : (n <> 0)%Z).
  { unfold n. destruct training_sent_init; [congruence | simpl List.length; lia]. }
  assert (Hm : mapM (fun p => x <- truediv (Counter_get training_sent_init p) n ;; Ok (p, x)) pos
               = Ok (map (fun p => (p, inject_Z (Counter_get training_sent_init p) / inject_Z n)%Q)
                         pos)).
  { induction pos as [| p pos IH]; simpl; [reflexivity |].
    unfold truediv at 1. destruct (Z.eqb_spec n 0); [congruence |]. simpl.
    now rewrite IH. }
  rewrite Hm. simpl. eexists. split; [reflexivity |].
  unfold keys, values. rewrite !map_map. split.
  - simpl. apply map_id.
  - apply map_ext. intros p. simpl. now rewrite Z.add_0_r.
Qed.

(** ** Sentence-initial tags outside the tag set *)

Lemma existsb_eqb_In (x : string) (pos : list string) :
  existsb (String.eqb x) pos = true <-> In x pos.
Proof.
  rewrite existsb_exists. split.
  - intros (y & Hy & E). apply String.eqb_eq in E. now subst.
  - intros H. exists x. split; [assumption | apply String.eqb_refl].
Qed.

Lemma Counter_get_filter (l pos : list string) (p : string) :
  In p pos ->
  Counter_get (filter (fun x => existsb (String.eqb x) pos) l) p = Counter_get l p.
Proof.
  intros Hp. induction l as [| x l IH]; [reflexivity |].
  cbn [filter]. destruct (existsb (String.eqb x) pos) eqn:E.
  - now rewrite !Counter_get_cons, IH.
  - rewrite Counter_get_cons, IH.
    destruct (string_dec x p) as [-> | _]; [| lia].
    apply existsb_eqb_In in Hp. congruence.
Qed.

(** The counts of the tags of [pos] add up to the number of elements of
    the list that are in [pos]. *)
Lemma sum_Counter_get_in_pos (l pos : list string) :
  NoDup pos -> sum (map (Counter_get l) pos) = initial_in_pos l pos.
Proof.
  intros Hnd. unfold initial_in_pos.
  rewrite <- (sum_Counter_get (filter (fun x => existsb (String.eqb x) pos) l) pos Hnd).
  - f_equal. apply map_ext_in. intros p Hp. symmetry. now apply Counter_get_filter.
  - intros x Hx. apply filter_In in Hx. now apply existsb_eqb_In.
Qed.

Lemma filter_all_length {A : Type} (f : A -> bool) (l : list A) :
  List.length (filter f l) = List.length l -> forall x, In x l -> f x = true.
Proof.
  induction l as [| y l IH]; intros Hlen x Hx; [destruct Hx |].
  cbn [filter] in Hlen. pose proof (filter_length_le f l) as Hle.
  destruct (f y) eqn:E; cbn [List.length] in Hlen; [| lia].
  destruct Hx as [<- | Hx]; [assumption |]. apply IH; [lia | assumption].
Qed.

Lemma initial_in_pos_all (l pos : list string) :
  initial_in_pos l pos = Z.of_nat (List.length l) <-> incl l pos.
Proof.
  unfold initial_in_pos. split.
  - intros H x Hx. apply existsb_eqb_In.
    apply (filter_all_length (fun x => existsb (String.eqb x) pos) l); [lia | assumption].
  - intros Hincl. f_equal. f_equal. apply forallb_filter_id.
    apply forallb_forall. intros x Hx. apply existsb_eqb_In. now apply Hincl.
Qed.

(** ** The mass of the rows of the trained tables *)

(** C3, as the code has it.  For a corpus with at least one
    sentence-initial tag, the row of every tag in the unsmoothed emission
    table has mass 1.  The row of the initial table has as mass the
    fraction of the sentence-initial tags that are in [pos]; it is 1
    exactly when every sentence-initial tag is in [pos].  The row of a
    source tag in the transition table has mass 1 unless the tag is the
    last one of the flattened tag sequence: that tag occurs [c] times but
    is left only [c - 1] times, and since the counts are divided by [c]
    its row has mass [1 - 1/c]. *)
Theorem trained_rows_mass
  (training_tagged : list (string * string)) (training_sent_init pos : list string) :
  let training_tags := map snd training_tagged in
  training_sent_init <> [] ->
  NoDup pos ->
  (forall tag, In tag pos <-> In tag training_tags) ->
  exists init_prob trans_prob emis_prob,
    find_init_prob training_sent_init pos = Ok init_prob /\
    find_trans_prob training_tags pos = Ok trans_prob /\
    find_emis_prob training_tagged pos = Ok emis_prob /\
    row_mass init_prob
    = (IZR (initial_in_pos training_sent_init pos)
       / IZR (Z.of_nat (List.length training_sent_init)))%R /\
    (row_mass init_prob = 1%R <-> incl training_sent_init pos) /\
    (forall tag, In tag pos ->
       exists row, get tag emis_prob = Some row /\ row_mass row = 1%R) /\
    (forall tag, In tag pos ->
       exists row,
         get tag trans_prob = Some row /\
         row_mass row
         = if string_dec (last training_tags "") tag
           then (1 - 1 / IZR (Counter_get training_tags tag))%R
           else 1%R).
Proof.
  intros training_tags Hsi Hnd Hpos.
  destruct (find_init_prob_spec training_sent_init pos Hsi) as (init & Hinit & _ & Hiv).
  destruct (find_trans_prob_spec training_tags pos Hnd Hpos) as (trans & Htrans & _ & Htr).
  destruct (find_emis_prob_spec training_tagged pos Hnd) as (emis & Hemis & _ & Her).
  { intros w tag Hin. apply Hpos. unfold training_tags.
    change tag with (snd (w, tag)). now apply in_map. }
  exists init, trans, emis. repeat (split; [assumption |]).
  assert (Hn : (0 < Z.of_nat (List.length training_sent_init))%Z).
  { destruct training_sent_init; [congruence | simpl List.length; lia]. }
  assert (Hmass : row_mass init
                  = (IZR (initial_in_pos training_sent_init pos)
                     / IZR (Z.of_nat (List.length training_sent_init)))%R).
  { set (counts := map (fun p => (p, Counter_get training_sent_init p)) pos).
    assert (Hcv : values counts = map (Counter_get training_sent_init) pos).
    { unfold counts, values. now rewrite map_map. }
    rewrite (row_mass_ratio 0 (Z.of_nat (List.length training_sent_init)) counts init);
      try lia.
    + rewrite Hcv, sum_Counter_get_in_pos by assumption.
      field. apply not_0_IZR. lia.
    + rewrite Hcv. apply Forall_forall. intros c Hc. apply in_map_iff in Hc.
      destruct Hc as (p & <- & _). apply Counter_get_nonneg.
    + now rewrite Hcv. }
  split; [exact Hmass |]. split; [| split].
  - rewrite Hmass, <- initial_in_pos_all.
    assert (Hnz : IZR (Z.of_nat (List.length training_sent_init)) <> 0%R)
      by (apply not_0_IZR; lia).
    split.
    + intros H. apply eq_IZR.
      apply (Rmult_eq_compat_r (IZR (Z.of_nat (List.length training_sent_init)))) in H.
      unfold Rdiv in H. rewrite Rmult_assoc, Rinv_l, Rmult_1_r, Rmult_1_l in H by assumption.
      exact H.
    + intros ->. now apply Rdiv_diag.
  - intros tag Htag.
    destruct (Her tag Htag) as (counts & row & Hg & Hsum & Hall & _ & _ & Hv).
    exists row. split; [assumption |].
    pose proof (Counter_get_pos training_tags tag (proj1 (Hpos tag) Htag)) as Hc.
    fold training_tags in Hsum.
    rewrite (row_mass_ratio 0 (sum (values counts)) counts row); try lia.
    + field. apply not_0_IZR. lia.
    + eapply Forall_impl; [| exact Hall]. simpl. intros; lia.
    + exact Hv.
  - intros tag Htag.
    destruct (Htr tag Htag) as (counts & row & Hg & _ & Hsum & Hall & Hv).
    exists row. split; [assumption |].
    pose proof (Counter_get_pos training_tags tag (proj1 (Hpos tag) Htag)) as Hc.
    assert (Hne : training_tags <> []).
    { intros E. rewrite E in Hpos. now apply (Hpos tag). }
    pose proof (outgoing_last training_tags tag Hne) as Hlast.
    rewrite (row_mass_ratio 0 (Counter_get training_tags tag) counts row); try lia;
      [| assumption | assumption].
    rewrite Hsum.
    assert (IZR (Counter_get training_tags tag) <> 0)%R by (apply not_0_IZR; lia).
    destruct (string_dec (last training_tags "") tag).
    + replace (outgoing training_tags tag) with (Counter_get training_tags tag - 1)%Z by lia.
      rewrite minus_IZR. field. assumption.
    + replace (outgoing training_tags tag) with (Counter_get training_tags tag) by lia.
      field. assumption.
Qed.

Lemma trained_rows_mass_witness :
  let training_tagged := [("a", "A"); ("b", "B"); ("a", "A")] in
  let training_tags := map snd training_tagged in
  exists init_prob trans_prob emis_prob,
    find_init_prob ["A"; "c"] ["A"; "B"] = Ok init_prob /\
    find_trans_prob training_tags ["A"; "B"] = Ok trans_prob /\
    find_emis_prob training_tagged ["A"; "B"] = Ok emis_prob /\
    row_mass init_prob
    = (IZR (initial_in_pos ["A"; "c"] ["A"; "B"])
       / IZR (Z.of_nat (List.length ["A"; "c"])))%R /\
    (row_mass init_prob = 1%R <-> incl ["A"; "c"] ["A"; "B"]) /\
    (forall tag, In tag ["A"; "B"] ->
       exists row, get tag emis_prob = Some row /\ row_mass row = 1%R) /\
    (forall tag, In tag ["A"; "B"] ->
       exists row,
         get tag trans_prob = Some row /\
         row_mass row
         = if string_dec (last training_tags "") tag
           then (1 - 1 / IZR (Counter_get training_tags tag))%R
           else 1%R).
Proof.
  apply (trained_rows_mass [("a", "A"); ("b", "B"); ("a", "A")] ["A"; "c"] ["A"; "B"]).
  - discriminate.
  - repeat constructor; simpl; intuition discriminate.
  - intros tag. simpl. tauto.
Defined.

(** C3, as stated, fails on the transition table: for the tag sequence
    A B A B A the row of [A] has the mass [2/3]. *)
Lemma transition_row_of_last_tag_not_one :
  exists trans_prob row,
    find_trans_prob (map snd [("a", "A"); ("b", "B"); ("a", "A"); ("b", "B"); ("a", "A")])
                    ["A"; "B"] = Ok trans_prob /\
    get "A" trans_prob = Some row /\
    ~ within_tolerance (row_mass row).
Proof.
  do 2 eexists. split; [vm_compute; reflexivity |]. split; [reflexivity |].
  change (row_mass [("A", NegInf); ("B", Fin 0 2 3)])
    with (0 + (exp2 (log2 (2 # 3)) + 0))%R.
  rewrite exp2_log2 by reflexivity.
  unfold within_tolerance, Q2R. simpl.
  replace (0 + (2 * / 3 + 0) - 1)%R with (- / 3)%R by field.
  rewrite Rabs_Ropp, Rabs_pos_eq by lra. lra.
Qed.

(** ** Backtracking *)

Lemma list_index_nat {A : Type} (l : list A) (t : nat) (x : A) :
  nth_error l t = Some x -> list_index l (Z.of_nat t) = Ok x.
Proof.
  intros H. unfold list_index.
  assert (E : (Z.of_nat t <? 0)%Z = false) by (apply Z.ltb_ge; lia).
  cbv zeta. rewrite !E, Nat2Z.id, H. reflexivity.
Qed.

Lemma rec_cell_cases states trans_prob emis_prob prev w j v b :
  rec_cell states trans_prob emis_prob prev w j = Ok (v, b) ->
  (v = NegInf /\ b = Zero) \/
  (exists i vi a e, b = Str i /\ In i states /\ get i prev = Some vi /\
                    v = add (add vi a) e).
Proof.
  unfold rec_cell. intros H. bind_inv H as row Hrow.
  destruct (mem w row) eqn:Hmem.
  - right. bind_inv H as options Hopts. bind_inv H as m Hm. injection H as <- <-.
    assert (He : exists e, get w row = Some e).
    { unfold mem in Hmem. destruct (get w row); [eauto | discriminate]. }
    destruct He as (e & He).
    destruct (options_spec _ _ _ _ _ _ _ _ He Hopts) as [_ Hback].
    apply py_max_spec in Hm. destruct Hm as [Hin _].
    destruct (Hback _ Hin) as (x & Hi & Hx & Hfst).
    unfold via in Hx. destruct (get (snd m) prev) as [vi |] eqn:Hvi; [| discriminate].
    destruct (entry trans_prob (snd m) j) as [a |]; [| discriminate].
    injection Hx as <-. exists (snd m), vi, a, e. auto.
  - left. injection H as <- <-. auto.
Qed.

Lemma init_cell_bp observations init_prob emis_prob j v b :
  init_cell observations init_prob emis_prob j = Ok (v, b) -> b = Str origin.
Proof.
  unfold init_cell. intros H. bind_inv H as w Hw. bind_inv H as row Hrow.
  bind_inv H as x Hx. injection H as _ Hb. now symmetry.
Qed.

Section Chart.
Variables observations states : list string.
Variable init_prob : dict num.
Variables trans_prob emis_prob : dict (dict num).
Variable viterbi : list (dict num).
Variable backpointer : list (dict cell).
Hypothesis Hforward :
  forward observations states init_prob trans_prob emis_prob = Ok (viterbi, backpointer).
Hypothesis Hnodup : NoDup states.

Lemma chart_row_at (t : nat) :
  (t < List.length observations)%nat ->
  exists row brow,
    nth_error viterbi t = Some row /\ nth_error backpointer t = Some brow /\
    keys row = states /\ keys brow = states.
Proof.
  intros Ht. destruct t as [| t].
  - destruct (forward_first _ _ _ _ _ _ _ Hforward) as (v0 & b0 & H1 & H2 & H3).
    { intros E. rewrite E in Ht. simpl in Ht. lia. }
    apply fill_rows_keys in H3. exists v0, b0. tauto.
  - destruct (nth_error observations (S t)) as [w |] eqn:Hw.
    + destruct (forward_step _ _ _ _ _ _ _ _ _ Hforward Hw)
        as (before & cur & brow & _ & H1 & H2 & H3).
      apply fill_rows_keys in H3. exists cur, brow. tauto.
    + apply nth_error_None in Hw. lia.
Qed.

Lemma forward_wf : backpointer_wf states backpointer.
Proof.
  intros t row j Hrow Hj.
  assert (Ht : (t < List.length observations)%nat).
  { destruct (forward_lengths _ _ _ _ _ _ _ Hforward) as [_ <-].
    apply nth_error_Some. congruence. }
  destruct t as [| t].
  - destruct (forward_first _ _ _ _ _ _ _ Hforward) as (v0 & b0 & _ & H2 & H3).
    { intros E. rewrite E in Ht. simpl in Ht. lia. }
    assert (b0 = row) by congruence. subst b0.
    destruct (fill_rows_get _ _ _ _ j H3 Hnodup Hj) as (v & b & Hc & _ & Hb).
    apply init_cell_bp in Hc. congruence.
  - destruct (nth_error observations (S t)) as [w |] eqn:Hw;
      [| apply nth_error_None in Hw; lia].
    destruct (forward_step _ _ _ _ _ _ _ _ _ Hforward Hw)
      as (before & cur & brow & _ & _ & H2 & H3).
    assert (brow = row) by congruence. subst brow.
    destruct (fill_rows_get _ _ _ _ j H3 Hnodup Hj) as (v & b & Hc & _ & Hb).
    apply rec_cell_cases in Hc.
    destruct Hc as [[_ ->] | (i & vi & a & e & -> & Hi & _)]; [now left |].
    right. eauto.
Qed.

(** A finite score is the end of a complete backpointer chain. *)
Lemma finite_chain (t : nat) :
  forall j row v,
    nth_error viterbi t = Some row -> In j states -> get j row = Some v ->
    is_neg_inf v = false ->
    exists c, chain backpointer t j = Some c.
Proof.
  induction t as [| t IH]; intros j row v Hrow Hj Hv Hfin.
  - assert (Ht : (0 < List.length observations)%nat).
    { destruct (forward_lengths _ _ _ _ _ _ _ Hforward) as [<- _].
      apply nth_error_Some. congruence. }
    destruct (chart_row_at 0%nat Ht) as (_ & brow & _ & Hb & _).
    pose proof (forward_wf 0%nat brow j Hb Hj) as Hwf. simpl in Hwf.
    cbn [chain]. rewrite Hb, Hwf, String.eqb_refl. eauto.
  - assert (Ht : (S t < List.length observations)%nat).
    { destruct (forward_lengths _ _ _ _ _ _ _ Hforward) as [<- _].
      apply nth_error_Some. congruence. }
    destruct (nth_error observations (S t)) as [w |] eqn:Hw;
      [| apply nth_error_None in Hw; lia].
    destruct (forward_step _ _ _ _ _ _ _ _ _ Hforward Hw)
      as (before & cur & brow & Hbef & Hcur & Hbrow & Hfill).
    assert (cur = row) by congruence. subst cur.
    destruct (fill_rows_get _ _ _ _ j Hfill Hnodup Hj) as (v' & b & Hc & Hv' & Hb).
    assert (v' = v) by congruence. subst v'.
    apply rec_cell_cases in Hc.
    destruct Hc as [[-> _] | (i & vi & a & e & -> & Hi & Hvi & ->)]; [discriminate |].
    apply add_finite in Hfin. destruct Hfin as [Hfin _].
    apply add_finite in Hfin. destruct Hfin as [Hfin _].
    destruct (IH i before vi Hbef Hi Hvi Hfin) as (c & Hc).
    exists (j :: c). cbn [chain]. now rewrite Hbrow, Hb, Hc.
Qed.
End Chart.

Lemma chain_length (backpointer : list (dict cell)) (t : nat) :
  forall j c, chain backpointer t j = Some c -> List.length c = S t.
Proof.
  induction t as [| t IH]; intros j c; cbn [chain];
    destruct (nth_error backpointer _) as [row |]; try discriminate;
    destruct (get j row) as [[| s] |]; try discriminate.
  - destruct (s =? origin); [| discriminate]. now intros [= <-].
  - destruct (chain backpointer t s) as [c' |] eqn:Hc; [| discriminate].
    intros [= <-]. simpl. f_equal. eauto.
Qed.

Lemma backtrack_step (backpointer : list (dict cell)) (k : nat) (s : string)
  (acc : list string) :
  backtrack backpointer (S k) (Str s) acc
  = if s =? origin then Ok acc
    else row <- list_index backpointer
                  (Z.of_nat (S k) - Z.of_nat (List.length backpointer) - 1) ;;
         next <- lookup s row ;;
         backtrack backpointer k next (acc ++ [s]).
Proof. reflexivity. Qed.

Lemma backtrack_origin (backpointer : list (dict cell)) (k : nat) (acc : list string) :
  backtrack backpointer k (Str origin) acc = Ok acc.
Proof. destruct k; reflexivity. Qed.

Lemma backtrack_zero (backpointer : list (dict cell)) (k : nat) (acc : list string) :
  backtrack backpointer k Zero acc
  = (_ <- list_index backpointer
            (Z.of_nat k - Z.of_nat (List.length backpointer) - 1) ;;
     Raise KeyError).
Proof. destruct k; reflexivity. Qed.

(** The loop of the backtracking step follows the chain, and raises
    [KeyError] where the chain is interrupted by a [0]. *)
Lemma backtrack_chain (states : list string) (backpointer : list (dict cell)) :
  backpointer_wf states backpointer ->
  ~ In origin states ->
  forall t j acc,
    (t < List.length backpointer)%nat -> In j states ->
    backtrack backpointer (S t + List.length backpointer) (Str j) acc
    = match chain backpointer t j with
      | Some c => Ok (acc ++ c)
      | None => Raise KeyError
      end.
Proof.
  intros Hwf Hor. induction t as [| t IH]; intros j acc Ht Hj.
  - assert (Hjo : (j =? origin) = false) by (apply String.eqb_neq; intros ->; tauto).
    destruct (nth_error backpointer 0) as [row |] eqn:Hrow;
      [| apply nth_error_None in Hrow; lia].
    pose proof (Hwf 0%nat row j Hrow Hj) as Hcell. simpl in Hcell.
    change (1 + List.length backpointer)%nat with (S (0 + List.length backpointer)).
    rewrite backtrack_step, Hjo. cbn [chain]. rewrite Hrow, Hcell, String.eqb_refl.
    replace (Z.of_nat (S (0 + List.length backpointer))
             - Z.of_nat (List.length backpointer) - 1)%Z
      with (Z.of_nat 0) by lia.
    rewrite (list_index_nat _ _ _ Hrow). cbn [bind]. unfold lookup. rewrite Hcell.
    cbn [bind]. apply backtrack_origin.
  - assert (Hjo : (j =? origin) = false) by (apply String.eqb_neq; intros ->; tauto).
    destruct (nth_error backpointer (S t)) as [row |] eqn:Hrow;
      [| apply nth_error_None in Hrow; lia].
    destruct (nth_error backpointer t) as [row' |] eqn:Hrow';
      [| apply nth_error_None in Hrow'; lia].
    pose proof (Hwf (S t) row j Hrow Hj) as Hcell. simpl in Hcell.
    change (S (S t) + List.length backpointer)%nat
      with (S (S t + List.length backpointer)).
    rewrite backtrack_step, Hjo. cbn [chain]. rewrite Hrow.
    replace (Z.of_nat (S (S t + List.length backpointer))
             - Z.of_nat (List.length backpointer) - 1)%Z
      with (Z.of_nat (S t)) by lia.
    rewrite (list_index_nat _ _ _ Hrow). cbn [bind]. unfold lookup.
    destruct Hcell as [Hcell | (i & Hi & Hcell)]; rewrite Hcell; cbn [bind].
    + rewrite backtrack_zero.
      replace (Z.of_nat (S t + List.length backpointer)
               - Z.of_nat (List.length backpointer) - 1)%Z
        with (Z.of_nat t) by lia.
      now rewrite (list_index_nat _ _ _ Hrow').
    + rewrite IH by (assumption || lia).
      destruct (chain backpointer t i) as [c |]; [| reflexivity].
      now rewrite <- app_assoc.
Qed.

(** ** The decoded sequence *)

Lemma termination_spec (observations : list string) (viterbi : list (dict num))
  (final : string) :
  termination observations viterbi = Ok final ->
  observations <> [] /\
  exists last_round m,
    nth_error viterbi (List.length observations - 1) = Some last_round /\
    py_max (map (fun '(key, v) => (v, key)) last_round) = Ok m /\
    final = snd m.
Proof.
  unfold termination. intros H. bind_inv H as last_round Hlast. bind_inv H as m Hm.
  injection H as <-.
  destruct (Z.ltb_spec (Z.of_nat (List.length observations) - 1) 0) as [Hlt | Hge];
    [discriminate |].
  replace (Z.to_nat (Z.of_nat (List.length observations) - 1))
    with (List.length observations - 1)%nat in Hlast by lia.
  split.
  - intros ->. simpl in Hge. lia.
  - exists last_round, m.
    destruct (nth_error viterbi (List.length observations - 1)); [| discriminate].
    injection Hlast as ->. auto.
Qed.

Lemma in_swapped (row : dict num) (m : num * string) :
  In m (map (fun '(key, v) => (v, key)) row) <-> In (snd m, fst m) row.
Proof.
  rewrite in_map_iff. split.
  - intros ([k v] & <- & Hin). exact Hin.
  - intros Hin. exists (snd m, fst m). split; [now destruct m | assumption].
Qed.

(** C8, as the code has it.  When no tag is the string ["origin"]: a tag
    sequence returned by [viterbi_algorithm] has the length of the
    observation sequence and is the reverse of the backpointer chain that
    leads from the tag chosen by the termination step back to the origin
    marker at time 0; and the call does return such a sequence whenever
    some tag has a finite score at the last step. *)
Theorem decode_length_and_chain
  (observations states : list string) (init_prob : dict num)
  (trans_prob emis_prob : dict (dict num)) :
  NoDup states ->
  ~ In origin states ->
  (forall tags,
     viterbi_algorithm observations states init_prob trans_prob emis_prob = Ok tags ->
     exists viterbi backpointer final,
       forward observations states init_prob trans_prob emis_prob = Ok (viterbi, backpointer) /\
       termination observations viterbi = Ok final /\
       chain backpointer (List.length observations - 1) final = Some (rev tags) /\
       List.length tags = List.length observations) /\
  (forall viterbi backpointer last_round j v,
     forward observations states init_prob trans_prob emis_prob = Ok (viterbi, backpointer) ->
     nth_error viterbi (List.length observations - 1) = Some last_round ->
     In j states -> get j last_round = Some v -> is_neg_inf v = false ->
     exists tags,
       viterbi_algorithm observations states init_prob trans_prob emis_prob = Ok tags).
Proof.
  intros Hnd Hor.
  assert (Hback : forall viterbi backpointer final,
            forward observations states init_prob trans_prob emis_prob
            = Ok (viterbi, backpointer) ->
            termination observations viterbi = Ok final ->
            In final states /\
            backtrack backpointer (List.length observations + List.length backpointer)
                      (Str final) []
            = match chain backpointer (List.length observations - 1) final with
              | Some c => Ok c
              | None => Raise KeyError
              end).
  { intros V B final Hf Hterm.
    destruct (termination_spec _ _ _ Hterm) as (Hne & last_round & m & Hlast & Hm & ->).
    destruct (forward_lengths _ _ _ _ _ _ _ Hf) as [HlV HlB].
    assert (HT : (0 < List.length observations)%nat)
      by (destruct observations; [congruence | simpl; lia]).
    destruct (chart_row_at _ _ _ _ _ _ _ Hf (List.length observations - 1))
      as (row & brow & Hrow & _ & Hkeys & _); [lia |].
    assert (row = last_round) by congruence. subst row.
    apply py_max_spec in Hm. destruct Hm as [Hin _].
    apply in_swapped, in_keys in Hin. rewrite Hkeys in Hin.
    split; [assumption |].
    replace (List.length observations + List.length B)%nat
      with (S (List.length observations - 1) + List.length B)%nat by lia.
    rewrite (backtrack_chain states B (forward_wf _ _ _ _ _ _ _ Hf Hnd) Hor)
      by (assumption || lia).
    reflexivity. }
  split.
  - intros tags H. unfold viterbi_algorithm in H.
    bind_inv H as chart Hf. destruct chart as [V B].
    bind_inv H as final Hterm. bind_inv H as fl Hbt. injection H as <-.
    apply at_stage_ok in Hterm, Hbt.
    destruct (Hback _ _ _ Hf Hterm) as [Hfinal Heq]. rewrite Heq in Hbt.
    destruct (chain B (List.length observations - 1) final) as [c |] eqn:Hc;
      [| discriminate].
    injection Hbt as ->.
    destruct (termination_spec _ _ _ Hterm) as (Hne & _).
    exists V, B, final. rewrite rev_involutive, length_rev.
    repeat (split; [assumption |]).
    rewrite (chain_length _ _ _ _ Hc).
    destruct observations; [congruence | simpl; lia].
  - intros V B last_round j v Hf Hlast Hj Hv Hfin.
    destruct (forward_lengths _ _ _ _ _ _ _ Hf) as [HlV HlB].
    assert (HT : (0 < List.length observations)%nat).
    { destruct observations; [| simpl; lia].
      simpl in HlV. destruct V; [discriminate | discriminate]. }
    destruct (chart_row_at _ _ _ _ _ _ _ Hf (List.length observations - 1))
      as (row & brow & Hrow & _ & Hkeys & _); [lia |].
    assert (row = last_round) by congruence. subst row.
    destruct (py_max_total (map (fun '(key, v) => (v, key)) last_round)) as (m & Hm).
    { apply get_some_in in Hv. destruct last_round; [destruct Hv | discriminate]. }
    assert (Hterm : termination observations V = Ok (snd m)).
    { unfold termination.
      destruct (Z.ltb_spec (Z.of_nat (List.length observations) - 1) 0) as [Hlt | _];
        [lia |].
      replace (Z.to_nat (Z.of_nat (List.length observations) - 1))
        with (List.length observations - 1)%nat by lia.
      rewrite Hlast. cbn [bind]. rewrite Hm. reflexivity. }
    destruct (Hback _ _ _ Hf Hterm) as [Hfinal Heq].
    pose proof (py_max_spec _ _ Hm) as [Hin Hmax].
    assert (Hmfin : is_neg_inf (fst m) = false).
    { assert (Hle : pair_le (v, j) m).
      { apply Hmax. apply in_swapped. simpl. now apply get_some_in. }
      apply pair_le_iff in Hle. simpl in Hle.
      apply (num_le_finite v); [| assumption].
      unfold num_le. destruct Hle as [Hlt | [Heq' _]]; [| unfold num_eq in Heq']; congruence. }
    assert (Hgm : get (snd m) last_round = Some (fst m)).
    { apply in_get_nodup; [now rewrite Hkeys | now apply in_swapped]. }
    destruct (finite_chain _ _ _ _ _ _ _ Hf Hnd _ _ _ _ Hlast Hfinal Hgm Hmfin) as (c & Hc).
    rewrite Hc in Heq. exists (rev c).
    unfold viterbi_algorithm. rewrite Hf. cbn [bind]. rewrite Hterm. cbn [bind at_stage].
    rewrite Heq. reflexivity.
Qed.

Lemma decode_length_and_chain_witness :
  let init_prob := [("A", lit 0); ("B", log2 (1 # 2))] in
  let trans_prob := [("A", [("A", log2 (1 # 2)); ("B", log2 (1 # 2))]);
                     ("B", [("A", log2 (1 # 4)); ("B", log2 (3 # 4))])] in
  let emis_prob := [("A", [("a", log2 (1 # 2)); ("b", log2 (1 # 2))]);
                    ("B", [("b", lit 0)])] in
  exists tags viterbi backpointer final,
    viterbi_algorithm ["a"; "b"] ["A"; "B"] init_prob trans_prob emis_prob = Ok tags /\
    forward ["a"; "b"] ["A"; "B"] init_prob trans_prob emis_prob = Ok (viterbi, backpointer) /\
    termination ["a"; "b"] viterbi = Ok final /\
    chain backpointer (List.length ["a"; "b"] - 1) final = Some (rev tags) /\
    List.length tags = List.length ["a"; "b"].
Proof.
  intros init_prob trans_prob emis_prob.
  destruct (decode_length_and_chain ["a"; "b"] ["A"; "B"] init_prob trans_prob emis_prob)
    as [Hreturned Hreturns].
  - repeat constructor; simpl; intuition discriminate.
  - simpl. intuition discriminate.
  - edestruct Hreturns with (j := "B") as (tags & Htags).
    + vm_compute. reflexivity.
    + reflexivity.
    + simpl. auto.
    + reflexivity.
    + reflexivity.
    + destruct (Hreturned tags Htags) as (viterbi & backpointer & final & H1 & H2 & H3 & H4).
      exists tags, viterbi, backpointer, final. auto.
Defined.

(** C8, as stated, fails for a model with a tag called ["origin"]: the
    backtracking loop takes the chosen tag for the marker and returns the
    empty sequence for a one-word input. *)
Lemma decode_with_origin_tag_is_short :
  exists tags,
    viterbi_algorithm ["w"] ["origin"] [("origin", lit 0)]
                      [("origin", [("origin", lit 0)])] [("origin", [("w", lit 0)])]
    = Ok tags /\
    List.length tags <> List.length ["w"].
Proof.
  exists []. split; [vm_compute; reflexivity | discriminate].
Qed.

(** ** The chart exists for complete tables *)

Section Totality.
Variables states : list string.
Variable init_prob : dict num.
Variables trans_prob emis_prob : dict (dict num).
Hypothesis Hinit : forall j, In j states -> In j (keys init_prob).
Hypothesis Hemis : forall j, In j states -> In j (keys emis_prob).
Hypothesis Htrans : forall i j, In i states -> In j states -> entry trans_prob i j <> None.

Lemma lookup_total {V : Type} (k : string) (d : dict V) :
  In k (keys d) -> exists v, lookup k d = Ok v.
Proof.
  intros H. apply get_in_keys in H. unfold lookup.
  destruct (get k d); [eauto | congruence].
Qed.

Lemma init_cell_total (observations : list string) (j : string) :
  observations <> [] -> In j states ->
  exists c, init_cell observations init_prob emis_prob j = Ok c.
Proof.
  intros Hobs Hj. unfold init_cell.
  destruct observations as [| w rest]; [congruence |].
  change (list_index (w :: rest) 0) with (@Ok exn _ w). cbn [bind].
  destruct (lookup_total j emis_prob (Hemis j Hj)) as (row & ->). cbn [bind].
  destruct (mem w row) eqn:Hmem; [| cbn [bind]; eauto].
  destruct (lookup_total j init_prob (Hinit j Hj)) as (a & ->). cbn [bind].
  apply mem_true in Hmem. destruct (lookup_total w row Hmem) as (e & ->).
  cbn [bind]. eauto.
Qed.

Lemma rec_cell_total (prev : dict num) (w j : string) :
  keys prev = states -> In j states ->
  exists c, rec_cell states trans_prob emis_prob prev w j = Ok c.
Proof.
  intros Hprev Hj. unfold rec_cell.
  destruct (lookup_total j emis_prob (Hemis j Hj)) as (row & ->). cbn [bind].
  destruct (mem w row) eqn:Hmem; [| eauto].
  apply mem_true in Hmem. destruct (lookup_total w row Hmem) as (e & He).
  destruct (mapM_total
              (fun i =>
                 v <- lookup i prev ;;
                 from_i <- lookup i trans_prob ;;
                 a <- lookup j from_i ;;
                 e <- lookup w row ;;
                 Ok (add (add v a) e, i)) states) as (options & Hopts).
  { intros i Hi.
    destruct (lookup_total i prev) as (v & ->); [now rewrite Hprev |]. cbn [bind].
    pose proof (Htrans i j Hi Hj) as Hij. unfold entry in Hij. unfold lookup at 1.
    destruct (get i trans_prob) as [from_i |]; [| congruence]. cbn [bind].
    unfold lookup at 1. destruct (get j from_i) as [a |]; [| congruence]. cbn [bind].
    rewrite He. cbn [bind]. eauto. }
  rewrite Hopts. cbn [bind].
  destruct (py_max_total options) as (m & ->); [| cbn [bind]; eauto].
  apply mapM_length in Hopts. intros ->. destruct states; [destruct Hj | discriminate].
Qed.

Lemma recursion_total (rest : list string) :
  forall prev, keys prev = states ->
    exists rows, recursion states trans_prob emis_prob prev rest = Ok rows.
Proof.
  induction rest as [| w rest IH]; intros prev Hprev; simpl; [eauto |].
  destruct (fill_rows_total (rec_cell states trans_prob emis_prob prev w) states)
    as (v & b & Hfill).
  { intros j Hj. now apply rec_cell_total. }
  rewrite Hfill. cbn [bind]. apply fill_rows_keys in Hfill.
  destruct (IH v (proj1 Hfill)) as ([vs bs] & ->). cbn [bind]. eauto.
Qed.

(** For a non-empty observation sequence and tables with an entry for
    every tag and every pair of tags, initialization and recursion raise
    nothing. *)
Lemma forward_total (observations : list string) :
  observations <> [] ->
  exists viterbi backpointer,
    forward observations states init_prob trans_prob emis_prob = Ok (viterbi, backpointer).
Proof.
  intros Hobs. unfold forward.
  destruct (fill_rows_total (init_cell observations init_prob emis_prob) states)
    as (v0 & b0 & Hfill).
  { intros j Hj. now apply init_cell_total. }
  rewrite Hfill. cbn [bind at_stage].
  destruct observations as [| w rest]; [congruence |].
  apply fill_rows_keys in Hfill.
  destruct (recursion_total rest v0 (proj1 Hfill)) as ([vs bs] & ->).
  cbn [bind at_stage]. eauto.
Qed.
End Totality.

(** ** Trained emission entries are finite *)

Lemma log_prob_finite (c t : Z) :
  (0 < c)%Z -> (0 < t)%Z -> is_neg_inf (log_prob (inject_Z c / inject_Z t)) = false.
Proof.
  intros Hc Ht. unfold log_prob.
  destruct (Qeq_bool (inject_Z c / inject_Z t) 0) eqn:E; [| reflexivity].
  apply Qeq_bool_eq in E. exfalso.
  assert (H : (0 < inject_Z c / inject_Z t)%Q).
  { apply Qlt_shift_div_l; unfold Qlt, inject_Z; simpl; lia. }
  rewrite E in H. now apply Qlt_irrefl in H.
Qed.

Lemma trained_emission_finite (training_tagged : list (string * string))
  (pos : list string) (emis_prob : dict (dict num)) (j w : string) (e : num) :
  NoDup pos ->
  (forall w' tag, In (w', tag) training_tagged -> In tag pos) ->
  find_emis_prob training_tagged pos = Ok emis_prob ->
  entry emis_prob j w = Some e ->
  is_neg_inf e = false.
Proof.
  intros Hnd Htags Hemis He.
  destruct (find_emis_prob_spec _ _ Hnd Htags) as (emis & Hemis' & Hk & Hrows).
  assert (emis = emis_prob) by congruence. subst emis.
  apply entry_some in He. destruct He as (row & Hg & Hw).
  assert (Hj : In j pos) by (rewrite <- Hk; apply get_in_keys; congruence).
  destruct (Hrows j Hj) as (counts & row' & Hg' & _ & Hall & _ & _ & Hv).
  assert (row' = row) by congruence. subst row'.
  apply get_some_in, in_values in Hw. rewrite Hv in Hw.
  apply in_map_iff in Hw. destruct Hw as (c & <- & Hc).
  pose proof (sum_ge_length _ Hall) as Hlen.
  rewrite Forall_forall in Hall. specialize (Hall c Hc). simpl in Hall.
  apply log_prob_finite; [lia |].
  destruct (values counts); [destruct Hc | simpl List.length in Hlen; lia].
Qed.

(** * Further properties of the decoder *)

(** ** The chart holds the best score of every cell *)

Lemma num_le_neg_inf (x : num) : num_le NegInf x.
Proof. unfold num_le. destruct x; simpl; discriminate. Qed.

Lemma step_score_mono trans_prob emis_prob (s s' : num) (i j w : string) :
  num_le s s' ->
  num_le (step_score trans_prob emis_prob s i j w)
         (step_score trans_prob emis_prob s' i j w).
Proof.
  intros H. unfold step_score.
  destruct (entry emis_prob j w); [| apply num_le_refl].
  destruct (entry trans_prob i j); [| apply num_le_refl].
  now apply add_mono_r, add_mono_r.
Qed.

Lemma init_cell_value observations init_prob emis_prob j v b :
  init_cell observations init_prob emis_prob j = Ok (v, b) ->
  exists w, nth_error observations 0 = Some w /\
            v = start_score init_prob emis_prob w j.
Proof.
  unfold init_cell. intros H. bind_inv H as w Hw. bind_inv H as row Hrow.
  bind_inv H as x Hx. injection H as <- _.
  apply lookup_ok in Hrow.
  assert (Hw0 : nth_error observations 0 = Some w).
  { destruct observations as [| w0 rest]; [discriminate |].
    vm_compute in Hw. injection Hw as ->. reflexivity. }
  exists w. split; [assumption |].
  unfold start_score, entry. rewrite Hrow. unfold mem in Hx.
  destruct (get w row) as [e |] eqn:He.
  - bind_inv Hx as a Ha. bind_inv Hx as e' He'. injection Hx as <-.
    apply lookup_ok in Ha, He'. rewrite Ha. congruence.
  - now injection Hx as <-.
Qed.

(** A cell of the recursion step with a backpointer: its score is the step
    from the recorded predecessor. *)
Lemma rec_cell_str states trans_prob emis_prob prev w j v i :
  rec_cell states trans_prob emis_prob prev w j = Ok (v, Str i) ->
  In i states /\
  exists vi, get i prev = Some vi /\ v = step_score trans_prob emis_prob vi i j w.
Proof.
  unfold rec_cell. intros H. bind_inv H as row Hrow. apply lookup_ok in Hrow.
  destruct (mem w row) eqn:Hmem; [| discriminate].
  bind_inv H as options Hopts. bind_inv H as m Hm. injection H as <- <-.
  assert (He : exists e, get w row = Some e).
  { unfold mem in Hmem. destruct (get w row); [eauto | discriminate]. }
  destruct He as (e & He).
  destruct (options_spec _ _ _ _ _ _ _ _ He Hopts) as [_ Hback].
  apply py_max_spec in Hm. destruct Hm as [Hin _].
  destruct (Hback _ Hin) as (x & Hi & Hx & Hfst).
  split; [assumption |]. unfold via in Hx.
  destruct (get (snd m) prev) as [vi |]; [| discriminate].
  exists vi. split; [reflexivity |].
  unfold step_score, entry at 1. rewrite Hrow, He.
  destruct (entry trans_prob (snd m) j) as [a |]; [| discriminate].
  injection Hx as <-. assumption.
Qed.

(** A cell of the recursion step is at least the step from any
    predecessor. *)
Lemma rec_cell_upper states trans_prob emis_prob prev w j v b i vi :
  rec_cell states trans_prob emis_prob prev w j = Ok (v, b) ->
  In i states -> get i prev = Some vi ->
  num_le (step_score trans_prob emis_prob vi i j w) v.
Proof.
  unfold rec_cell. intros H Hi Hvi. bind_inv H as row Hrow. apply lookup_ok in Hrow.
  unfold step_score, entry at 1. rewrite Hrow.
  destruct (get w row) as [e |] eqn:He; [| apply num_le_neg_inf].
  assert (Hmem : mem w row = true) by (unfold mem; now rewrite He).
  rewrite Hmem in H. bind_inv H as options Hopts. bind_inv H as m Hm.
  injection H as <- <-.
  destruct (options_spec _ _ _ _ _ _ _ _ He Hopts) as [Hall _].
  destruct (Hall i Hi) as (x & Hx & Hin). unfold via in Hx. rewrite Hvi in Hx.
  destruct (entry trans_prob i j) as [a |]; [| discriminate]. injection Hx as <-.
  apply py_max_spec in Hm. destruct Hm as [_ Hmax].
  specialize (Hmax _ Hin). apply pair_le_iff in Hmax. simpl in Hmax.
  unfold num_le. destruct Hmax as [Hlt | [Heq _]]; [| unfold num_eq in Heq]; congruence.
Qed.

Lemma chain_head (backpointer : list (dict cell)) (t : nat) (j : string)
  (c : list string) :
  chain backpointer t j = Some c -> exists rest, c = j :: rest.
Proof.
  destruct t; cbn [chain];
    destruct (nth_error backpointer _) as [row |]; try discriminate;
    destruct (get j row) as [[| s] |]; try discriminate.
  - destruct (s =? origin); [| discriminate]. intros [= <-]. eauto.
  - destruct (chain backpointer t s); [| discriminate]. intros [= <-]. eauto.
Qed.

Section ChartScores.
Variables observations states : list string.
Variable init_prob : dict num.
Variables trans_prob emis_prob : dict (dict num).
Variable viterbi : list (dict num).
Variable backpointer : list (dict cell).
Hypothesis Hforward :
  forward observations states init_prob trans_prob emis_prob = Ok (viterbi, backpointer).
Hypothesis Hnodup : NoDup states.

Lemma chart_first_row (j : string) :
  observations <> [] -> In j states ->
  exists row w,
    nth_error viterbi 0 = Some row /\ nth_error observations 0 = Some w /\
    get j row = Some (start_score init_prob emis_prob w j).
Proof.
  intros Hobs Hj.
  destruct (forward_first _ _ _ _ _ _ _ Hforward Hobs) as (v0 & b0 & H1 & _ & H3).
  destruct (fill_rows_get _ _ _ _ j H3 Hnodup Hj) as (v & b & Hc & Hv & _).
  apply init_cell_value in Hc. destruct Hc as (w & Hw & ->).
  exists v0, w. auto.
Qed.

(** No tag path into a cell scores more than the cell. *)
Lemma rscore_bound (t : nat) :
  forall j rest,
    List.length rest = t -> Forall (fun i => In i states) (j :: rest) ->
    (t < List.length observations)%nat ->
    exists row v,
      nth_error viterbi t = Some row /\ get j row = Some v /\
      num_le (rscore init_prob trans_prob emis_prob observations t (j :: rest)) v.
Proof.
  induction t as [| t IH]; intros j rest Hlen Hall Ht.
  - destruct rest; [| discriminate]. inversion Hall as [| ? ? Hj _]; subst.
    destruct (chart_first_row j) as (row & w & Hrow & Hw & Hv); [| assumption |].
    { intros E. rewrite E in Ht. simpl in Ht. lia. }
    exists row, (start_score init_prob emis_prob w j).
    cbn [rscore]. rewrite Hw. repeat split; auto. apply num_le_refl.
  - destruct rest as [| i rest]; [discriminate |].
    inversion Hall as [| ? ? Hj Hall']; subst.
    destruct (IH i rest) as (prev & vi & Hprev & Hvi & Hle);
      [simpl in Hlen; lia | assumption | lia |].
    destruct (nth_error observations (S t)) as [w |] eqn:Hw;
      [| apply nth_error_None in Hw; lia].
    destruct (forward_step _ _ _ _ _ _ _ _ _ Hforward Hw)
      as (before & cur & brow & Hbef & Hcur & _ & Hfill).
    assert (before = prev) by congruence. subst before.
    destruct (fill_rows_get _ _ _ _ j Hfill Hnodup Hj) as (v & b & Hc & Hv & _).
    exists cur, v. split; [assumption |]. split; [assumption |].
    cbn [rscore]. rewrite Hw.
    eapply num_le_trans; [apply step_score_mono; exact Hle |].
    inversion Hall' as [| ? ? Hi _]; subst.
    eapply rec_cell_upper; eauto.
Qed.

(** The score of a cell is the score of the path its backpointer chain
    spells. *)
Lemma chain_score (t : nat) :
  forall j c,
    chain backpointer t j = Some c -> In j states ->
    exists row,
      nth_error viterbi t = Some row /\
      get j row = Some (rscore init_prob trans_prob emis_prob observations t c).
Proof.
  induction t as [| t IH]; intros j c Hc Hj; cbn [chain] in Hc;
    destruct (nth_error backpointer _) as [brow |] eqn:Hbrow; try discriminate;
    destruct (get j brow) as [[| s] |] eqn:Hb; try discriminate.
  - destruct (s =? origin); [| discriminate]. injection Hc as <-.
    assert (Hobs : observations <> []).
    { destruct (forward_lengths _ _ _ _ _ _ _ Hforward) as [_ Hl].
      intros E. rewrite E in Hl. destruct backpointer; discriminate. }
    destruct (chart_first_row j Hobs Hj) as (row & w & Hrow & Hw & Hv).
    exists row. cbn [rscore]. rewrite Hw. auto.
  - destruct (chain backpointer t s) as [c' |] eqn:Hc'; [| discriminate].
    injection Hc as <-.
    assert (Ht : (S t < List.length observations)%nat).
    { destruct (forward_lengths _ _ _ _ _ _ _ Hforward) as [_ <-].
      apply nth_error_Some. congruence. }
    destruct (nth_error observations (S t)) as [w |] eqn:Hw;
      [| apply nth_error_None in Hw; lia].
    destruct (forward_step _ _ _ _ _ _ _ _ _ Hforward Hw)
      as (before & cur & brow' & Hbef & Hcur & Hbrow' & Hfill).
    assert (brow' = brow) by congruence. subst brow'.
    destruct (fill_rows_get _ _ _ _ j Hfill Hnodup Hj) as (v & b & Hcell & Hv & Hb').
    assert (b = Str s) by congruence. subst b.
    apply rec_cell_str in Hcell. destruct Hcell as (Hs & vi & Hvi & ->).
    destruct (IH s c' Hc' Hs) as (prev & Hprev & Hvs).
    assert (prev = before) by congruence. subst prev.
    assert (vi = rscore init_prob trans_prob emis_prob observations t c') by congruence.
    subst vi. exists cur. split; [assumption |].
    cbn [rscore]. rewrite Hw.
    destruct (chain_head _ _ _ _ Hc') as (rest & ->). exact Hv.
Qed.
End ChartScores.

(** ** What a call of the decoder can end in *)

Lemma chain_in_states (states : list string) (backpointer : list (dict cell)) :
  backpointer_wf states backpointer ->
  forall t j c,
    chain backpointer t j = Some c -> In j states ->
    Forall (fun i => In i states) c.
Proof.
  intros Hwf. induction t as [| t IH]; intros j c Hc Hj; cbn [chain] in Hc;
    destruct (nth_error backpointer _) as [row |] eqn:Hrow; try discriminate;
    destruct (get j row) as [[| s] |] eqn:Hb; try discriminate.
  - destruct (s =? origin); [| discriminate]. injection Hc as <-. auto.
  - destruct (chain backpointer t s) as [c' |] eqn:Hc'; [| discriminate].
    injection Hc as <-. constructor; [assumption |].
    apply (IH s c' Hc').
    destruct (Hwf (S t) row j Hrow Hj) as [Hz | (i & Hi & Hs)]; congruence.
Qed.

(** Once the chart is built and the termination step has chosen a tag,
    the call either returns the reversed chain of that tag or raises
    [KeyError] from the backtracking step. *)
Lemma decode_outcome
  (observations states : list string) (init_prob : dict num)
  (trans_prob emis_prob : dict (dict num))
  (viterbi : list (dict num)) (backpointer : list (dict cell)) (final : string) :
  NoDup states -> ~ In origin states ->
  forward observations states init_prob trans_prob emis_prob = Ok (viterbi, backpointer) ->
  termination observations viterbi = Ok final ->
  In final states /\
  (exists last_round v,
     nth_error viterbi (List.length observations - 1) = Some last_round /\
     get final last_round = Some v /\
     forall j x, In j states -> get j last_round = Some x -> pair_le (x, j) (v, final)) /\
  viterbi_algorithm observations states init_prob trans_prob emis_prob
  = match chain backpointer (List.length observations - 1) final with
    | Some c => Ok (rev c)
    | None => Raise (Backtracking, KeyError)
    end.
Proof.
  intros Hnd Hor Hf Hterm.
  destruct (termination_spec _ _ _ Hterm) as (Hne & last_round & m & Hlast & Hm & ->).
  destruct (forward_lengths _ _ _ _ _ _ _ Hf) as [HlV HlB].
  assert (HT : (0 < List.length observations)%nat)
    by (destruct observations; [congruence | simpl; lia]).
  destruct (chart_row_at _ _ _ _ _ _ _ Hf (List.length observations - 1)%nat)
    as (row & brow & Hrow & _ & Hkeys & _); [lia |].
  assert (row = last_round) by congruence. subst row.
  pose proof (py_max_spec _ _ Hm) as [Hin Hmax].
  assert (Hfinal : In (snd m) states).
  { apply in_swapped, in_keys in Hin. now rewrite Hkeys in Hin. }
  split; [assumption |]. split.
  - exists last_round, (fst m). split; [assumption |]. split.
    + apply in_get_nodup; [now rewrite Hkeys | now apply in_swapped].
    + intros j x Hj Hx. replace (fst m, snd m) with m by now destruct m.
      apply Hmax, in_swapped. simpl. now apply get_some_in.
  - unfold viterbi_algorithm. rewrite Hf. cbn [bind]. rewrite Hterm. cbn [bind at_stage].
    replace (List.length observations + List.length backpointer)%nat
      with (S (List.length observations - 1) + List.length backpointer)%nat by lia.
    rewrite (backtrack_chain states backpointer (forward_wf _ _ _ _ _ _ _ Hf Hnd) Hor)
      by (assumption || lia).
    destruct (chain backpointer (List.length observations - 1) (snd m)); reflexivity.
Qed.

Lemma viterbi_algorithm_ok_inv
  (observations states : list string) (init_prob : dict num)
  (trans_prob emis_prob : dict (dict num)) (tags : list string) :
  viterbi_algorithm observations states init_prob trans_prob emis_prob = Ok tags ->
  exists viterbi backpointer final,
    forward observations states init_prob trans_prob emis_prob = Ok (viterbi, backpointer) /\
    termination observations viterbi = Ok final.
Proof.
  unfold viterbi_algorithm. intros H. bind_inv H as chart Hf. destruct chart as [V B].
  bind_inv H as final Hterm. apply at_stage_ok in Hterm. eauto.
Qed.

(** X1.  Optimality of the decoder.  When no tag is the string
    ["origin"], a tag sequence returned by [viterbi_algorithm] scores at
    least as much as every sequence of tags of the same length, the score
    of a sequence being the sum, in the order the chart adds them, of the
    initial, transition and emission entries along it ([-inf] where a word
    has no emission entry under its tag). *)
Theorem decode_is_optimal
  (observations states : list string) (init_prob : dict num)
  (trans_prob emis_prob : dict (dict num)) (tags path : list string) :
  NoDup states -> ~ In origin states ->
  viterbi_algorithm observations states init_prob trans_prob emis_prob = Ok tags ->
  List.length path = List.length observations ->
  Forall (fun i => In i states) path ->
  num_le (path_score init_prob trans_prob emis_prob observations path)
         (path_score init_prob trans_prob emis_prob observations tags).
Proof.
  intros Hnd Hor Hdec Hlen Hpath.
  destruct (viterbi_algorithm_ok_inv _ _ _ _ _ _ Hdec) as (V & B & final & Hf & Hterm).
  destruct (decode_outcome _ _ _ _ _ _ _ _ Hnd Hor Hf Hterm)
    as (Hfinal & (last_round & v & Hlast & Hv & Hmax) & Hres).
  rewrite Hdec in Hres.
  destruct (chain B (List.length observations - 1) final) as [c |] eqn:Hc;
    [| discriminate].
  injection Hres as ->.
  destruct (termination_spec _ _ _ Hterm) as (Hne & _).
  assert (HT : (0 < List.length observations)%nat)
    by (destruct observations; [congruence | simpl; lia]).
  unfold path_score. rewrite rev_involutive, length_rev, (chain_length _ _ _ _ Hc).
  replace (S (List.length observations - 1) - 1)%nat
    with (List.length observations - 1)%nat by lia.
  rewrite Hlen.
  destruct (chain_score _ _ _ _ _ _ _ Hf Hnd _ _ _ Hc Hfinal) as (row & Hrow & Hscore).
  assert (row = last_round) by congruence. subst row.
  assert (v = rscore init_prob trans_prob emis_prob observations
                     (List.length observations - 1) c) by congruence.
  subst v.
  destruct (rev path) as [| j rest] eqn:Hrev.
  { apply (f_equal (@List.length string)) in Hrev. rewrite length_rev in Hrev.
    simpl in Hrev. lia. }
  assert (Hall : Forall (fun i => In i states) (j :: rest)).
  { rewrite <- Hrev. now apply Forall_rev. }
  destruct (rscore_bound _ _ _ _ _ _ _ Hf Hnd
              (List.length observations - 1) j rest) as (row & x & Hrow' & Hx & Hle).
  { apply (f_equal (@List.length string)) in Hrev. rewrite length_rev in Hrev.
    simpl in Hrev. lia. }
  { assumption. }
  { lia. }
  assert (row = last_round) by congruence. subst row.
  eapply num_le_trans; [exact Hle |].
  inversion Hall as [| ? ? Hj _]; subst.
  specialize (Hmax j x Hj Hx). apply pair_le_iff in Hmax. simpl in Hmax.
  unfold num_le. destruct Hmax as [Hlt | [Heq _]]; [| unfold num_eq in Heq]; congruence.
Qed.

Lemma decode_is_optimal_witness :
  let init_prob := [("A", lit 0); ("B", log2 (1 # 2))] in
  let trans_prob := [("A", [("A", log2 (1 # 2)); ("B", log2 (1 # 2))]);
                     ("B", [("A", log2 (1 # 4)); ("B", log2 (3 # 4))])] in
  let emis_prob := [("A", [("a", log2 (1 # 2)); ("b", log2 (1 # 2))]);
                    ("B", [("b", lit 0)])] in
  num_le (path_score init_prob trans_prob emis_prob ["a"; "b"] ["A"; "A"])
         (path_score init_prob trans_prob emis_prob ["a"; "b"] ["A"; "B"]).
Proof.
  intros init_prob trans_prob emis_prob.
  apply (decode_is_optimal ["a"; "b"] ["A"; "B"] init_prob trans_prob emis_prob
           ["A"; "B"] ["A"; "A"]).
  - repeat constructor; simpl; intuition discriminate.
  - simpl. intuition discriminate.
  - vm_compute. reflexivity.
  - reflexivity.
  - repeat constructor; simpl; auto.
Defined.

(** X2.  The ways a call can end.  When no tag is the string ["origin"]
    and the chart and the final tag have been computed, the call returns
    the reversed backpointer chain of the final tag if that chain reaches
    time 0, and otherwise raises [KeyError] from the backtracking step;
    the index [T-1] into [backpointer] never leaves the list. *)
Theorem decode_returns_chain_or_key_error
  (observations states : list string) (init_prob : dict num)
  (trans_prob emis_prob : dict (dict num))
  (viterbi : list (dict num)) (backpointer : list (dict cell)) (final : string) :
  NoDup states -> ~ In origin states ->
  forward observations states init_prob trans_prob emis_prob = Ok (viterbi, backpointer) ->
  termination observations viterbi = Ok final ->
  viterbi_algorithm observations states init_prob trans_prob emis_prob
  = match chain backpointer (List.length observations - 1) final with
    | Some c => Ok (rev c)
    | None => Raise (Backtracking, KeyError)
    end.
Proof.
  intros Hnd Hor Hf Hterm.
  now destruct (decode_outcome _ _ _ _ _ _ _ _ Hnd Hor Hf Hterm) as (_ & _ & H).
Qed.

Lemma decode_returns_chain_or_key_error_witness :
  exists init_prob trans_prob emis_prob viterbi backpointer,
    find_init_prob ["A"] ["A"; "B"] = Ok init_prob /\
    find_trans_prob ["A"; "B"] ["A"; "B"] = Ok trans_prob /\
    find_emis_prob [("a", "A"); ("b", "B")] ["A"; "B"] = Ok emis_prob /\
    forward ["b"; "a"] ["A"; "B"] init_prob trans_prob emis_prob = Ok (viterbi, backpointer) /\
    viterbi_algorithm ["b"; "a"] ["A"; "B"] init_prob trans_prob emis_prob
    = match chain backpointer (List.length ["b"; "a"] - 1) "B" with
      | Some c => Ok (rev c)
      | None => Raise (Backtracking, KeyError)
      end.
Proof.
  do 5 eexists.
  split; [vm_compute; reflexivity |].
  split; [vm_compute; reflexivity |].
  split; [vm_compute; reflexivity |].
  split; [vm_compute; reflexivity |].
  eapply decode_returns_chain_or_key_error.
  - repeat constructor; simpl; intuition discriminate.
  - simpl. intuition discriminate.
  - vm_compute. reflexivity.
  - vm_compute. reflexivity.
Defined.

(** X3.  When no tag is the string ["origin"], every tag of a returned
    sequence is one of [states]. *)
Theorem decode_tags_in_states
  (observations states : list string) (init_prob : dict num)
  (trans_prob emis_prob : dict (dict num)) (tags : list string) :
  NoDup states -> ~ In origin states ->
  viterbi_algorithm observations states init_prob trans_prob emis_prob = Ok tags ->
  Forall (fun j => In j states) tags.
Proof.
  intros Hnd Hor Hdec.
  destruct (viterbi_algorithm_ok_inv _ _ _ _ _ _ Hdec) as (V & B & final & Hf & Hterm).
  destruct (decode_outcome _ _ _ _ _ _ _ _ Hnd Hor Hf Hterm) as (Hfinal & _ & Hres).
  rewrite Hdec in Hres.
  destruct (chain B (List.length observations - 1) final) as [c |] eqn:Hc;
    [| discriminate].
  injection Hres as ->. apply Forall_rev.
  eapply chain_in_states; eauto. eapply forward_wf; eauto.
Qed.

Lemma decode_tags_in_states_witness :
  Forall (fun j => In j ["A"; "B"]) ["A"; "B"].
Proof.
  apply (decode_tags_in_states ["a"; "b"] ["A"; "B"]
           [("A", lit 0); ("B", log2 (1 # 2))]
           [("A", [("A", log2 (1 # 2)); ("B", log2 (1 # 2))]);
            ("B", [("A", log2 (1 # 4)); ("B", log2 (3 # 4))])]
           [("A", [("a", log2 (1 # 2)); ("b", log2 (1 # 2))]); ("B", [("b", lit 0)])]
           ["A"; "B"]).
  - repeat constructor; simpl; intuition discriminate.
  - simpl. intuition discriminate.
  - vm_compute. reflexivity.
Defined.

(** ** Edge cases of the decoder *)

Lemma termination_total (observations : list string) (viterbi : list (dict num))
  (row : dict num) :
  observations <> [] ->
  nth_error viterbi (List.length observations - 1) = Some row -> row <> [] ->
  exists final, termination observations viterbi = Ok final.
Proof.
  intros Hobs Hrow Hne. unfold termination.
  destruct (Z.ltb_spec (Z.of_nat (List.length observations) - 1) 0) as [Hlt | Hge].
  - destruct observations; [congruence | cbn [List.length] in Hlt; lia].
  - replace (Z.to_nat (Z.of_nat (List.length observations) - 1))
      with (List.length observations - 1)%nat by lia.
    rewrite Hrow. cbn [bind].
    destruct (py_max_total (map (fun '(key, v) => (v, key)) row)) as (m & ->).
    { destruct row; [congruence | discriminate]. }
    cbn [bind]. eauto.
Qed.

(** X4.  One observation.  With distinct tags, none of them ["origin"],
    each with a row in the emission table and an entry in the initial
    table, decoding a single word always returns exactly one tag.  No tag
    has a greater score (initial score plus emission score) than the
    returned one, and among tags whose initial entry and emission entry
    are the same as those of the returned tag, the returned tag is the
    greatest. *)
Theorem decode_single_observation
  (w : string) (states : list string) (init_prob : dict num)
  (trans_prob emis_prob : dict (dict num)) :
  NoDup states -> states <> [] -> ~ In origin states ->
  (forall j, In j states -> In j (keys emis_prob)) ->
  (forall j, In j states -> In j (keys init_prob)) ->
  exists j,
    viterbi_algorithm [w] states init_prob trans_prob emis_prob = Ok [j] /\
    In j states /\
    (forall i, In i states ->
       num_le (start_score init_prob emis_prob w i) (start_score init_prob emis_prob w j)) /\
    (forall i, In i states ->
       get i init_prob = get j init_prob -> entry emis_prob i w = entry emis_prob j w ->
       (i <=? j)%string = true).
Proof.
  intros Hnd Hne Hor Hemis Hinit.
  destruct (fill_rows_total (init_cell [w] init_prob emis_prob) states) as (v0 & b0 & Hfill).
  { intros j Hj.
    apply (init_cell_total states init_prob emis_prob Hinit Hemis); [discriminate | assumption]. }
  assert (Hf : forward [w] states init_prob trans_prob emis_prob = Ok ([v0], [b0])).
  { unfold forward. rewrite Hfill. reflexivity. }
  destruct (fill_rows_keys _ _ _ _ Hfill) as [Hk0 _].
  destruct (termination_total [w] [v0] v0) as (final & Hterm);
    [discriminate | reflexivity | |].
  { intros ->. simpl in Hk0. congruence. }
  destruct (decode_outcome _ _ _ _ _ _ _ _ Hnd Hor Hf Hterm)
    as (Hfinal & (last_round & v & Hlast & Hv & Hmax) & Hres).
  simpl in Hlast. injection Hlast as <-.
  assert (Hpair : forall i, In i states ->
            pair_le (start_score init_prob emis_prob w i, i)
                    (start_score init_prob emis_prob w final, final)).
  { intros i Hi.
    destruct (chart_first_row _ _ _ _ _ _ _ Hf Hnd i) as (row & w' & Hrow & Hw & Hget);
      [discriminate | assumption |].
    destruct (chart_first_row _ _ _ _ _ _ _ Hf Hnd final) as (row' & w'' & Hrow' & Hw' & Hget');
      [discriminate | assumption |].
    simpl in Hrow, Hrow', Hw, Hw'.
    injection Hrow as <-. injection Hrow' as <-. injection Hw as <-. injection Hw' as <-.
    assert (v = start_score init_prob emis_prob w final) by congruence. subst v.
    now apply Hmax. }
  exists final. split; [| split; [assumption | split]].
  - rewrite Hres. cbn [List.length Nat.sub chain nth_error].
    pose proof (forward_wf _ _ _ _ _ _ _ Hf Hnd 0%nat b0 final eq_refl Hfinal) as Hb.
    simpl in Hb. rewrite Hb. unfold origin. rewrite String.eqb_refl. reflexivity.
  - intros i Hi. specialize (Hpair i Hi). apply pair_le_iff in Hpair. simpl in Hpair.
    unfold num_le. destruct Hpair as [Hlt | [Heq _]]; [| unfold num_eq in Heq]; congruence.
  - intros i Hi Einit Eemis. specialize (Hpair i Hi). apply pair_le_iff in Hpair.
    simpl in Hpair. destruct Hpair as [Hlt | [_ Hle]]; [| assumption].
    unfold start_score in Hlt. rewrite Einit, Eemis, num_cmp_refl in Hlt. discriminate.
Qed.

Lemma decode_single_observation_witness :
  exists j,
    viterbi_algorithm ["b"] ["A"; "B"] [("A", lit 0); ("B", log2 (1 # 2))] []
                      [("A", [("a", lit 0)]); ("B", [("b", lit 0)])] = Ok [j] /\
    In j ["A"; "B"] /\
    (forall i, In i ["A"; "B"] ->
       num_le (start_score [("A", lit 0); ("B", log2 (1 # 2))]
                           [("A", [("a", lit 0)]); ("B", [("b", lit 0)])] "b" i)
              (start_score [("A", lit 0); ("B", log2 (1 # 2))]
                           [("A", [("a", lit 0)]); ("B", [("b", lit 0)])] "b" j)) /\
    (forall i, In i ["A"; "B"] ->
       get i [("A", lit 0); ("B", log2 (1 # 2))] = get j [("A", lit 0); ("B", log2 (1 # 2))] ->
       entry [("A", [("a", lit 0)]); ("B", [("b", lit 0)])] i "b"
       = entry [("A", [("a", lit 0)]); ("B", [("b", lit 0)])] j "b" ->
       (i <=? j)%string = true).
Proof.
  apply (decode_single_observation "b" ["A"; "B"]).
  - repeat constructor; simpl; intuition discriminate.
  - discriminate.
  - simpl. intuition discriminate.
  - simpl. tauto.
  - simpl. tauto.
Defined.

Lemma recursion_no_states trans_prob emis_prob (rest : list string) :
  forall prev,
    recursion [] trans_prob emis_prob prev rest
    = Ok (map (fun _ => []) rest, map (fun _ => []) rest).
Proof.
  induction rest as [| w rest IH]; intros prev; simpl; [reflexivity |].
  rewrite IH. reflexivity.
Qed.

Lemma termination_no_states (w : string) (rest : list string) :
  termination (w :: rest) (map (fun _ : string => @nil (string * num)) (w :: rest))
  = Raise ValueError.
Proof.
  unfold termination.
  destruct (Z.ltb_spec (Z.of_nat (List.length (w :: rest)) - 1) 0) as [Hlt | Hge];
    [cbn [List.length] in Hlt; lia |].
  replace (Z.to_nat (Z.of_nat (List.length (w :: rest)) - 1)) with (List.length rest)
    by (cbn [List.length]; lia).
  rewrite nth_error_map.
  destruct (nth_error (w :: rest) (List.length rest)) eqn:Hn.
  - reflexivity.
  - apply nth_error_None in Hn. simpl in Hn. lia.
Qed.

(** X5.  No tags.  With an empty tag set and at least one observation the
    chart is built (its rows are empty) and the call fails in the
    termination step, where [max] is applied to an empty list:
    [ValueError]. *)
Theorem decode_no_states
  (w : string) (rest : list string) (init_prob : dict num)
  (trans_prob emis_prob : dict (dict num)) :
  viterbi_algorithm (w :: rest) [] init_prob trans_prob emis_prob
  = Raise (Termination, ValueError).
Proof.
  unfold viterbi_algorithm, forward. cbn [fill_rows at_stage bind].
  rewrite recursion_no_states. cbn [at_stage bind].
  pose proof (termination_no_states w rest) as H. cbn [map] in H.
  match goal with
  | |- context [termination ?a ?b] =>
      replace (termination a b) with (@Raise exn string ValueError) by (symmetry; exact H)
  end.
  reflexivity.
Qed.

Lemma init_cell_outcome (w : string) (rest : list string) (init_prob : dict num)
  (emis_prob : dict (dict num)) (j : string) :
  (get j emis_prob = None \/ (entry emis_prob j w <> None /\ get j init_prob = None)) /\
    init_cell (w :: rest) init_prob emis_prob j = Raise KeyError
  \/ ~ (get j emis_prob = None \/ (entry emis_prob j w <> None /\ get j init_prob = None)) /\
    exists c, init_cell (w :: rest) init_prob emis_prob j = Ok c.
Proof.
  unfold init_cell, entry.
  change (list_index (w :: rest) 0) with (@Ok exn _ w). cbn [bind]. unfold lookup, mem.
  destruct (get j emis_prob) as [row |]; cbn [bind]; [| left; auto].
  destruct (get w row) as [e |]; cbn [bind].
  - destruct (get j init_prob) as [a |]; cbn [bind].
    + right. split; [| eauto]. intros [H | [_ H]]; discriminate.
    + left. split; [right; split; congruence | reflexivity].
  - right. split; [| eauto]. intros [H | [H _]]; congruence.
Qed.

Lemma fill_rows_init_outcome (w : string) (rest : list string) (init_prob : dict num)
  (emis_prob : dict (dict num)) (states : list string) :
  (exists j, In j states /\
     (get j emis_prob = None \/ (entry emis_prob j w <> None /\ get j init_prob = None))) /\
    fill_rows (init_cell (w :: rest) init_prob emis_prob) states = Raise KeyError
  \/ (forall j, In j states ->
        ~ (get j emis_prob = None \/ (entry emis_prob j w <> None /\ get j init_prob = None))) /\
    exists rows, fill_rows (init_cell (w :: rest) init_prob emis_prob) states = Ok rows.
Proof.
  induction states as [| j states IH]; cbn [fill_rows].
  - right. split; [intros j [] | eauto].
  - destruct (init_cell_outcome w rest init_prob emis_prob j) as [[Hbad ->] | [Hgood (c & ->)]].
    + left. split; [exists j; simpl; auto | reflexivity].
    + destruct c as [v b]. cbn [bind].
      destruct IH as [[(j' & Hj' & Hbad) ->] | [Hall ([vs bs] & ->)]].
      * left. split; [exists j'; simpl; auto | reflexivity].
      * right. split; [| cbn [bind]; eauto].
        intros j' [<- | Hj']; auto.
Qed.

(** X6.  Missing keys met by the initialization loop.  For a non-empty
    observation sequence the call raises [KeyError] from the
    initialization loop exactly when some tag has no row in the emission
    table, or has an emission entry for the first word but no entry in the
    initial table; the initial table is not consulted for a tag under
    which the first word has no emission entry. *)
Theorem decode_initialization_key_error
  (w : string) (rest states : list string) (init_prob : dict num)
  (trans_prob emis_prob : dict (dict num)) :
  viterbi_algorithm (w :: rest) states init_prob trans_prob emis_prob
  = Raise (Initialization, KeyError) <->
  exists j, In j states /\
    (get j emis_prob = None \/ (entry emis_prob j w <> None /\ get j init_prob = None)).
Proof.
  unfold viterbi_algorithm, forward.
  destruct (fill_rows_init_outcome w rest init_prob emis_prob states)
    as [[Hex ->] | [Hall ([v0 b0] & ->)]]; cbn [at_stage bind].
  - split; [auto | reflexivity].
  - split.
    + intros H.
      destruct (recursion states trans_prob emis_prob v0 rest) as [[vs bs] |];
        cbn [at_stage bind] in H; [| discriminate].
      destruct (termination (w :: rest) (v0 :: vs)); cbn [at_stage bind] in H;
        [| discriminate].
      destruct (backtrack _ _ _ _); cbn [at_stage bind] in H; discriminate.
    + intros (j & Hj & Hbad). now destruct (Hall j Hj).
Qed.

(** * Further properties of the training procedure *)

(** ** Entries of the count tables *)

Lemma entry_put {V : Type} (table : dict (dict V)) (j0 word : string) (v : V)
  (row : dict V) (j w : string) :
  get j0 table = Some row ->
  entry (put j0 (put word v row) table) j w =
  if (j0 =? j) && (word =? w) then Some v else entry table j w.
Proof.
  intros Hrow. unfold entry. destruct (string_dec j0 j) as [<- | Hj].
  - rewrite get_put_same, String.eqb_refl, Hrow. simpl.
    destruct (string_dec word w) as [<- | Hw].
    + now rewrite get_put_same, String.eqb_refl.
    + rewrite get_put_other by assumption.
      apply String.eqb_neq in Hw. now rewrite Hw.
  - rewrite get_put_other by assumption.
    apply String.eqb_neq in Hj. now rewrite Hj.
Qed.

Lemma entry_of_get {V : Type} (table : dict (dict V)) (j w : string) (row : dict V) :
  get j table = Some row -> entry table j w = get w row.
Proof. unfold entry. now intros ->. Qed.

Lemma entry_of_none {V : Type} (table : dict (dict V)) (j w : string) :
  get j table = None -> entry table j w = None.
Proof. unfold entry. now intros ->. Qed.

Lemma get_none_keys {A B : Type} (k : string) (d : dict A) (d' : dict B) :
  keys d' = keys d -> get k d = None -> get k d' = None.
Proof.
  intros Hk Hg. destruct (get k d') eqn:E; [| reflexivity].
  exfalso. assert (H : get k d' <> None) by congruence.
  apply get_in_keys in H. rewrite Hk in H. apply get_in_keys in H. congruence.
Qed.

Lemma entry_empty_rows {V : Type} (pos : list string) (tag w : string) :
  entry (map (fun p => (p, @nil (string * V))) pos) tag w = None.
Proof.
  unfold entry. rewrite get_map_const.
  destruct (in_dec string_dec tag pos); reflexivity.
Qed.

Lemma pair_count_cons (word tag0 : string) (rest : list (string * string))
  (w tag : string) :
  pair_count ((word, tag0) :: rest) w tag
  = ((if ((word =? w) && (tag0 =? tag))%string then 1 else 0)
     + pair_count rest w tag)%Z.
Proof.
  unfold pair_count. cbn [filter].
  destruct ((word =? w) && (tag0 =? tag)); cbn [List.length]; lia.
Qed.

Lemma pair_count_seen (training_tagged : list (string * string)) (w tag : string) :
  pair_count training_tagged w tag <> 0%Z <-> In (w, tag) training_tagged.
Proof.
  induction training_tagged as [| [word tag0] rest IH].
  - unfold pair_count. simpl. tauto.
  - rewrite pair_count_cons. cbn [In].
    assert (Hnn : (0 <= pair_count rest w tag)%Z) by (unfold pair_count; lia).
    destruct (String.eqb_spec word w) as [-> | Hw];
      destruct (String.eqb_spec tag0 tag) as [-> | Ht]; cbn [andb];
      rewrite ?Z.add_0_l.
    + split; [auto | intros _; lia].
    + rewrite IH. split; [auto | intros [[= E] | H]; [congruence | assumption]].
    + rewrite IH. split; [auto | intros [[= E] | H]; [congruence | assumption]].
    + rewrite IH. split; [auto | intros [[= E] | H]; [congruence | assumption]].
Qed.

(** What the counting loop leaves in each cell: the count it found plus the
    number of training pairs of that word and tag. *)
Lemma count_emissions_entries (training_tagged : list (string * string)) :
  forall pos_counts pos_counts',
    count_emissions training_tagged pos_counts = Ok pos_counts' ->
    (forall tag w c, entry pos_counts tag w = Some c -> (1 <= c)%Z) ->
    forall tag w,
      entry pos_counts' tag w =
      if (count_at pos_counts tag w + pair_count training_tagged w tag =? 0)%Z then None
      else Some (count_at pos_counts tag w + pair_count training_tagged w tag)%Z.
Proof.
  induction training_tagged as [| [word tag0] rest IH]; intros pc pc' H Hinv tag w.
  - simpl in H. injection H as <-. unfold pair_count, count_at. simpl.
    rewrite Z.add_0_r. destruct (entry pc tag w) as [c |] eqn:E; [| reflexivity].
    specialize (Hinv _ _ _ E). destruct (Z.eqb_spec c 0); [lia | reflexivity].
  - cbn [count_emissions] in H. bind_inv H as row Hrow. apply lookup_ok in Hrow.
    set (c1 := match get word row with None => 1%Z | Some c => (c + 1)%Z end).
    assert (Hput : match get word row with
                   | None => put word 1%Z row
                   | Some c => put word (c + 1)%Z row
                   end = put word c1 row)
      by (unfold c1; destruct (get word row); reflexivity).
    rewrite Hput in H.
    assert (Hc1 : (1 <= c1)%Z).
    { unfold c1. destruct (get word row) as [c |] eqn:E; [| lia].
      assert (1 <= c)%Z; [| lia].
      apply (Hinv tag0 word). apply entry_some. eauto. }
    assert (Hold : count_at pc tag0 word = (c1 - 1)%Z).
    { unfold count_at, entry, c1. rewrite Hrow. destruct (get word row); lia. }
    assert (E : (count_at (put tag0 (put word c1 row) pc) tag w + pair_count rest w tag
                 = count_at pc tag w + pair_count ((word, tag0) :: rest) w tag)%Z).
    { rewrite pair_count_cons. unfold count_at at 1.
      rewrite (entry_put pc tag0 word c1 row tag w Hrow).
      destruct (String.eqb_spec tag0 tag) as [-> | Ht];
        destruct (String.eqb_spec word w) as [-> | Hw]; cbn [andb];
        fold (count_at pc tag w); lia. }
    rewrite (IH _ _ H).
    + rewrite E. reflexivity.
    + intros tag' w' c. rewrite (entry_put pc tag0 word c1 row tag' w' Hrow).
      destruct ((tag0 =? tag') && (word =? w')); [intros [= <-]; exact Hc1 | apply Hinv].
Qed.

Lemma log_prob_ratio (c t : Z) :
  c <> 0%Z -> t <> 0%Z ->
  log_prob (inject_Z c / inject_Z t) = log2 (inject_Z c / inject_Z t).
Proof.
  intros Hc Ht. unfold log_prob.
  destruct (Qeq_bool (inject_Z c / inject_Z t) 0) eqn:E; [| reflexivity].
  exfalso. apply Qeq_bool_eq in E.
  assert (Hz : ~ inject_Z t == 0) by (unfold Qeq, inject_Z; simpl; lia).
  apply (Qmult_inj_r _ _ (inject_Z t)) in E; [| exact Hz].
  rewrite Qmult_0_l in E.
  unfold Qdiv in E. rewrite <- Qmult_assoc, (Qmult_comm (/ inject_Z t)), Qmult_inv_r in E
    by exact Hz.
  rewrite Qmult_1_r in E. unfold Qeq, inject_Z in E. simpl in E. lia.
Qed.

(** ** The emission table, entry by entry *)

Lemma find_emis_prob_table
  (training_tagged : list (string * string)) (pos : list string) :
  NoDup pos ->
  (forall w tag, In (w, tag) training_tagged -> In tag pos) ->
  exists emis_prob,
    find_emis_prob training_tagged pos = Ok emis_prob /\
    forall tag w,
      entry emis_prob tag w =
      if (pair_count training_tagged w tag =? 0)%Z then None
      else Some (log2 (inject_Z (pair_count training_tagged w tag)
                       / inject_Z (Counter_get (map snd training_tagged) tag))).
Proof.
  intros Hnd Htags.
  destruct (find_emis_prob_spec training_tagged pos Hnd Htags) as (emis & Hok & _).
  exists emis. split; [exact Hok |].
  unfold find_emis_prob in Hok. bind_inv Hok as pc Hpc. bind_inv Hok as tc Htc.
  destruct (emission_counts _ _ _ Hpc) as (Hk & Hrows).
  pose proof (count_totals_spec _ _ _ Htc) as Htot.
  assert (Hent : forall tag w,
            entry pc tag w =
            if (pair_count training_tagged w tag =? 0)%Z then None
            else Some (pair_count training_tagged w tag)).
  { intros tag w.
    rewrite (count_emissions_entries _ _ _ Hpc).
    - unfold count_at. rewrite entry_empty_rows, Z.add_0_l. reflexivity.
    - intros tag' w' c. rewrite entry_empty_rows. discriminate. }
  match type of Hok with
  | mapM ?f _ = _ =>
      assert (Hfst : forall kv y, f kv = Ok y -> fst y = fst kv)
  end.
  { intros [tag row] y Hy. bind_inv Hy as r Hr. now injection Hy as <-. }
  intros tag w. specialize (Hent tag w).
  destruct (get tag pc) as [row |] eqn:Hg.
  - destruct (mapM_get _ _ _ tag row Hfst Hok Hg) as (row' & HF & Hg').
    rewrite (entry_of_get _ _ w _ Hg) in Hent. rewrite (entry_of_get _ _ w _ Hg').
    cbv beta iota in HF. bind_inv HF as r Hr. injection HF as <-.
    match type of Hr with
    | mapM ?f _ = _ =>
        assert (Hfst' : forall kv y, f kv = Ok y -> fst y = fst kv)
    end.
    { intros [w' c] y Hy. bind_inv Hy as t Ht. bind_inv Hy as x Hx. now injection Hy as <-. }
    destruct (get w row) as [c |] eqn:Hw.
    + destruct (mapM_get _ _ _ w c Hfst' Hr Hw) as (y & Hy & Hgy).
      etransitivity; [exact Hgy |].
      cbv beta iota in Hy. bind_inv Hy as t Ht. bind_inv Hy as x Hx. injection Hy as <-.
      destruct (Z.eqb_spec (pair_count training_tagged w tag) 0) as [E | E];
        [discriminate |].
      injection Hent as ->.
      assert (Htag : In tag pos).
      { rewrite <- Hk. apply get_in_keys. congruence. }
      destruct (Hrows tag Htag) as (counts & Hg'' & Hsum & _).
      destruct (Htot tag Htag) as (counts' & Hg3 & Ht').
      assert (counts' = counts) by congruence. subst counts'.
      apply lookup_ok in Ht. assert (t = sum (values counts)) by congruence. subst t.
      rewrite Hsum in Hx. unfold truediv in Hx.
      destruct (Z.eqb_spec (Counter_get (map snd training_tagged) tag) 0) as [E0 | E0];
        [discriminate |].
      injection Hx as <-. now rewrite log_prob_ratio.
    + etransitivity; [exact (get_none_keys w row r (mapM_keys _ _ _ Hfst' Hr) Hw) |].
      destruct (pair_count training_tagged w tag =? 0)%Z; [reflexivity | discriminate].
  - rewrite (entry_of_none _ _ w Hg) in Hent.
    rewrite (entry_of_none _ _ w (get_none_keys tag pc emis (mapM_keys _ _ _ Hfst Hok) Hg)).
    destruct (pair_count training_tagged w tag =? 0)%Z; [reflexivity | discriminate].
Qed.

(** X7.  When every training tag is in [pos] (tags distinct),
    [find_emis_prob] returns a table that has an entry for a tag and a
    word exactly when the pair occurs in the training data; the entry is
    then finite, and 2 to its power is the number of such pairs divided by
    the number of training pairs of the tag. *)
Theorem find_emis_prob_entries
  (training_tagged : list (string * string)) (pos : list string) :
  NoDup pos ->
  (forall w tag, In (w, tag) training_tagged -> In tag pos) ->
  exists emis_prob,
    find_emis_prob training_tagged pos = Ok emis_prob /\
    forall tag w,
      (entry emis_prob tag w = None <-> ~ In (w, tag) training_tagged) /\
      (forall e, entry emis_prob tag w = Some e ->
         is_neg_inf e = false /\
         exp2 e = (IZR (pair_count training_tagged w tag)
                   / IZR (Counter_get (map snd training_tagged) tag))%R).
Proof.
  intros Hnd Htags.
  destruct (find_emis_prob_table training_tagged pos Hnd Htags) as (emis & Hok & Hent).
  exists emis. split; [exact Hok |]. intros tag w. rewrite (Hent tag w).
  pose proof (pair_count_seen training_tagged w tag) as Hseen.
  destruct (Z.eqb_spec (pair_count training_tagged w tag) 0) as [E | E].
  - split; [| discriminate]. split; [intros _ Hin; now apply Hseen in Hin | reflexivity].
  - assert (Hin : In (w, tag) training_tagged) by now apply Hseen.
    split; [split; [discriminate | intros H; contradiction] |].
    intros e [= <-]. split; [reflexivity |].
    assert (Hc : (0 < pair_count training_tagged w tag)%Z)
      by (unfold pair_count in *; lia).
    assert (Ht : (0 < Counter_get (map snd training_tagged) tag)%Z).
    { apply Counter_get_pos. change tag with (snd (w, tag)). now apply in_map. }
    rewrite <- log_prob_ratio by lia.
    rewrite exp2_log_prob by (apply div_Z_nonneg; lia).
    apply Q2R_div_Z. lia.
Qed.

Lemma find_emis_prob_entries_witness :
  exists emis_prob,
    find_emis_prob [("a", "A"); ("b", "A"); ("a", "A")] ["A"; "B"] = Ok emis_prob /\
    entry emis_prob "B" "a" = None /\
    (forall e, entry emis_prob "A" "a" = Some e ->
       is_neg_inf e = false /\
       exp2 e = (IZR (pair_count [("a", "A"); ("b", "A"); ("a", "A")] "a" "A")
                 / IZR (Counter_get (map snd [("a", "A"); ("b", "A"); ("a", "A")]) "A"))%R).
Proof.
  destruct (find_emis_prob_entries [("a", "A"); ("b", "A"); ("a", "A")] ["A"; "B"])
    as (emis & Hok & Hent).
  - repeat constructor; simpl; intuition discriminate.
  - simpl. intros w tag [[= <- <-] | [[= <- <-] | [[= <- <-] | []]]]; auto.
  - exists emis. split; [exact Hok |]. split.
    + apply (proj1 (Hent "B" "a")). simpl. intuition discriminate.
    + apply (proj2 (Hent "A" "a")).
Defined.

(** ** The transition table, entry by entry *)

Lemma adjacent_count_cons (x y : string) (rest : list string) (i j : string) :
  adjacent_count (x :: y :: rest) i j
  = ((if ((x =? i) && (y =? j))%string then 1 else 0)
     + adjacent_count (y :: rest) i j)%Z.
Proof.
  unfold adjacent_count. cbn [tl combine filter].
  destruct ((x =? i) && (y =? j)); cbn [List.length]; lia.
Qed.

Lemma count_transitions_entries (training_tags : list string) :
  forall pos_counts pos_counts',
    count_transitions training_tags pos_counts = Ok pos_counts' ->
    forall i j,
      entry pos_counts' i j
      = option_map (fun c => (c + adjacent_count training_tags i j)%Z)
                   (entry pos_counts i j).
Proof.
  induction training_tags as [| x rest IH]; intros pc pc' H i j.
  - simpl in H. injection H as <-. destruct (entry pc i j); simpl; [| reflexivity].
    f_equal. unfold adjacent_count. simpl. lia.
  - destruct rest as [| y rest'].
    + simpl in H. injection H as <-. destruct (entry pc i j); simpl; [| reflexivity].
      f_equal. unfold adjacent_count. simpl. lia.
    + cbn [count_transitions] in H. bind_inv H as row Hrow. bind_inv H as c Hc.
      apply lookup_ok in Hrow. apply lookup_ok in Hc.
      rewrite (IH _ _ H), (entry_put pc x y (c + 1)%Z row i j Hrow), adjacent_count_cons.
      destruct (String.eqb_spec x i) as [-> | Hx];
        destruct (String.eqb_spec y j) as [-> | Hy]; cbn [andb];
        try (destruct (entry pc i j); cbn [option_map]; [f_equal; lia | reflexivity]).
      rewrite (entry_of_get pc i j row Hrow), Hc. cbn [option_map]. f_equal. lia.
Qed.

Lemma incl_or_not (l m : list string) :
  incl l m \/ exists x, In x l /\ ~ In x m.
Proof.
  induction l as [| x l IH].
  - left. intros x [].
  - destruct (in_dec string_dec x m) as [Hx | Hx].
    + destruct IH as [IH | (y & Hy & Hny)].
      * left. intros z [<- | Hz]; auto.
      * right. exists y. simpl. auto.
    + right. exists x. simpl. auto.
Qed.

Lemma mapM_raise {E A B : Type} (f : A -> result E B) (l : list A) (e : E) :
  (forall x, In x l -> (exists y, f x = Ok y) \/ f x = Raise e) ->
  (exists x, In x l /\ f x = Raise e) ->
  mapM f l = Raise e.
Proof.
  induction l as [| x l IH]; intros Hall (x0 & Hin & Hx0); [destruct Hin |].
  simpl. destruct (Hall x (or_introl eq_refl)) as [(y & Hy) | Hy]; rewrite Hy; simpl;
    [| reflexivity].
  rewrite IH; [reflexivity | intros z Hz; apply Hall; now right |].
  destruct Hin as [<- | Hin]; [congruence | eauto].
Qed.

Lemma mapM_ok_or_raise {E A B : Type} (f : A -> result E B) (l : list A) (e : E) :
  (forall x, In x l -> (exists y, f x = Ok y) \/ f x = Raise e) ->
  (exists ys, mapM f l = Ok ys) \/ mapM f l = Raise e.
Proof.
  induction l as [| x l IH]; intros Hall; simpl; [eauto |].
  destruct (Hall x (or_introl eq_refl)) as [(y & ->) | ->]; simpl; [| auto].
  destruct IH as [(ys & ->) | ->]; simpl; eauto.
  intros z Hz. apply Hall. now right.
Qed.

(** The counting loop of [find_trans_prob] on tables whose rows all have
    the keys [pos]. *)
Lemma count_transitions_key_error (pos training_tags : list string) :
  forall pos_counts,
    keys pos_counts = pos ->
    (forall tag row, get tag pos_counts = Some row -> keys row = pos) ->
    (2 <= List.length training_tags)%nat -> ~ incl training_tags pos ->
    count_transitions training_tags pos_counts = Raise KeyError.
Proof.
  induction training_tags as [| x rest IH]; intros pc Hk Hrows Hlen Hnot;
    [simpl in Hlen; lia |].
  destruct rest as [| y rest']; [simpl in Hlen; lia |].
  cbn [count_transitions]. unfold lookup at 1.
  destruct (get x pc) as [row |] eqn:Hrow; [| reflexivity]. cbn [bind].
  unfold lookup. destruct (get y row) as [c |] eqn:Hc; [| reflexivity]. cbn [bind].
  assert (Hx : In x pos) by (rewrite <- Hk; apply get_in_keys; congruence).
  assert (Hy : In y pos).
  { rewrite <- (Hrows x row Hrow). apply get_in_keys. congruence. }
  apply IH.
  - rewrite keys_put_present; [assumption | now rewrite Hk].
  - intros tag r. rewrite get_put. destruct (x =? tag) eqn:E.
    + intros [= <-]. rewrite keys_put_present; [eauto |].
      rewrite (Hrows x row Hrow). assumption.
    + apply Hrows.
  - destruct rest' as [| z rest'']; [| simpl; lia].
    exfalso. apply Hnot. intros z [<- | [<- | []]]; assumption.
  - intros Hincl. apply Hnot. intros z [<- | Hz]; auto.
Qed.

(** The loop of [find_trans_prob] that divides every count by the number
    of occurrences of the row's tag. *)
Lemma transition_rows_outcome (training_tags pos : list string) (pc : dict (dict Z)) :
  keys pc = pos ->
  (forall tag row, get tag pc = Some row -> keys row = pos) ->
  (~ incl pos training_tags /\
   mapM (fun '(tag, row) =>
           row' <- mapM (fun '(word, c) =>
                           x <- truediv c (Counter_get training_tags tag) ;;
                           Ok (word, log_prob x)) row ;;
           Ok (tag, row')) pc = Raise ZeroDivisionError)
  \/ (incl pos training_tags /\
      exists trans_prob,
        mapM (fun '(tag, row) =>
                row' <- mapM (fun '(word, c) =>
                                x <- truediv c (Counter_get training_tags tag) ;;
                                Ok (word, log_prob x)) row ;;
                Ok (tag, row')) pc = Ok trans_prob /\
        keys trans_prob = pos /\
        forall i j c, entry pc i j = Some c ->
          entry trans_prob i j
          = Some (log_prob (inject_Z c / inject_Z (Counter_get training_tags i)))).
Proof.
  intros Hk Hrows.
  set (body := fun tag : string => fun '(word, c) =>
                 x <- truediv c (Counter_get training_tags tag) ;;
                 Ok (word : string, log_prob x)).
  set (F := fun '(tag, row) => row' <- mapM (body tag) row ;; Ok (tag : string, row')).
  assert (Hbody : forall tag wc,
            (exists y, body tag wc = Ok y) \/ body tag wc = Raise ZeroDivisionError).
  { intros tag [w c]. unfold body, truediv.
    destruct (Counter_get training_tags tag =? 0)%Z; simpl; eauto. }
  assert (HF : forall x, (exists y, F x = Ok y) \/ F x = Raise ZeroDivisionError).
  { intros [tag row]. unfold F.
    destruct (mapM_ok_or_raise (body tag) row ZeroDivisionError) as [(ys & ->) | ->];
      simpl; eauto. }
  assert (Hfst : forall kv y, F kv = Ok y -> fst y = fst kv).
  { intros [tag row] y Hy. unfold F in Hy. bind_inv Hy as r Hr. now injection Hy as <-. }
  assert (Hfst' : forall tag kv y, body tag kv = Ok y -> fst y = fst kv).
  { intros tag [w c] y Hy. unfold body in Hy. bind_inv Hy as x Hx. now injection Hy as <-. }
  destruct (incl_or_not pos training_tags) as [Hincl | (tag0 & Hin0 & Hnot0)].
  - right. split; [assumption |].
    destruct (mapM_total F pc) as (trans & Htrans).
    { intros [tag row] Hin. unfold F.
      destruct (mapM_total (body tag) row) as (r & ->); [| simpl; eauto].
      intros [w c] _. unfold body, truediv.
      assert (Htag : In tag training_tags).
      { apply Hincl. rewrite <- Hk. eapply in_keys; eauto. }
      apply Counter_get_pos in Htag.
      destruct (Z.eqb_spec (Counter_get training_tags tag) 0); [lia | simpl; eauto]. }
    exists trans. split; [exact Htrans |].
    split; [etransitivity; [exact (mapM_keys _ _ _ Hfst Htrans) | exact Hk] |].
    intros i j c Hc. apply entry_some in Hc. destruct Hc as (row & Hrow & Hc).
    destruct (mapM_get _ _ _ i row Hfst Htrans Hrow) as (row' & HFi & Hrow').
    unfold F in HFi. bind_inv HFi as r Hr. injection HFi as <-.
    destruct (mapM_get _ _ _ j c (Hfst' i) Hr Hc) as (y & Hy & Hgy).
    rewrite (entry_of_get _ _ j _ Hrow'). etransitivity; [exact Hgy |].
    unfold body, truediv in Hy.
    destruct (Counter_get training_tags i =? 0)%Z; simpl in Hy; [discriminate |].
    now injection Hy as <-.
  - left. split; [intros H; apply Hnot0, H, Hin0 |].
    apply mapM_raise; [intros x _; apply HF |].
    assert (Hg : get tag0 pc <> None) by (apply get_in_keys; now rewrite Hk).
    destruct (get tag0 pc) as [row |] eqn:Hrow; [| congruence].
    exists (tag0, row). split; [now apply get_some_in |].
    pose proof (Hrows tag0 row Hrow) as Hkr.
    destruct row as [| [w c] row]; [rewrite <- Hkr in Hin0; destruct Hin0 |].
    unfold F, body. cbn [mapM]. unfold truediv.
    assert (E : Counter_get training_tags tag0 = 0%Z).
    { unfold Counter_get. now rewrite (proj1 (count_occ_not_In string_dec _ _) Hnot0). }
    rewrite E. reflexivity.
Qed.

(** The three ways a call of [find_trans_prob] ends. *)
Lemma find_trans_prob_outcome (training_tags pos : list string) :
  ((2 <= List.length training_tags)%nat /\ ~ incl training_tags pos /\
   find_trans_prob training_tags pos = Raise KeyError)
  \/ (((2 <= List.length training_tags)%nat -> incl training_tags pos) /\
      ~ incl pos training_tags /\
      find_trans_prob training_tags pos = Raise ZeroDivisionError)
  \/ (((2 <= List.length training_tags)%nat -> incl training_tags pos) /\
      incl pos training_tags /\
      exists trans_prob,
        find_trans_prob training_tags pos = Ok trans_prob /\
        keys trans_prob = pos /\
        forall i j, In i pos -> In j pos ->
          entry trans_prob i j
          = Some (log_prob (inject_Z (adjacent_count training_tags i j)
                            / inject_Z (Counter_get training_tags i)))).
Proof.
  set (pc0 := map (fun tag => (tag, empty_dic pos)) pos).
  assert (Hk0 : keys pc0 = pos) by apply keys_map_const.
  assert (Hrows0 : forall tag row, get tag pc0 = Some row -> keys row = pos).
  { intros tag row. unfold pc0. rewrite get_map_const.
    destruct (in_dec string_dec tag pos); [| discriminate].
    intros [= <-]. apply keys_map_const. }
  assert (Hent0 : forall i j, In i pos -> In j pos -> entry pc0 i j = Some 0%Z).
  { intros i j Hi Hj. unfold entry, pc0, empty_dic. rewrite get_map_const.
    destruct (in_dec string_dec i pos); [| contradiction].
    rewrite get_map_const. destruct (in_dec string_dec j pos); [reflexivity | contradiction]. }
  assert (Hcount : ((2 <= List.length training_tags)%nat /\ ~ incl training_tags pos /\
                    count_transitions training_tags pc0 = Raise KeyError)
                   \/ (((2 <= List.length training_tags)%nat -> incl training_tags pos) /\
                       exists pc, count_transitions training_tags pc0 = Ok pc)).
  { destruct (le_lt_dec 2 (List.length training_tags)) as [Hlen | Hlen].
    - destruct (incl_or_not training_tags pos) as [Hincl | (x & Hx & Hnx)].
      + right. split; [auto |].
        apply count_transitions_total. intros x Hx. unfold pc0. rewrite get_map_const.
        destruct (in_dec string_dec x pos) as [_ | n]; [| destruct n; auto].
        exists (empty_dic pos). split; [reflexivity |].
        intros y Hy. unfold empty_dic. rewrite keys_map_const. auto.
      + left. split; [assumption |].
        assert (Hnot : ~ incl training_tags pos) by (intros H; apply Hnx, H, Hx).
        split; [assumption |].
        now apply (count_transitions_key_error pos).
    - right. split; [intros H; lia |].
      destruct training_tags as [| x [| y rest]]; simpl in Hlen; try lia; simpl; eauto. }
  destruct Hcount as [(Hlen & Hnot & Hraise) | (Hincl & pc & Hpc)].
  { left. split; [assumption |]. split; [assumption |].
    unfold find_trans_prob. fold pc0. now rewrite Hraise. }
  right.
  destruct (count_transitions_spec _ _ _ Hpc) as (Hk & Hrows).
  assert (Hrows' : forall tag row, get tag pc = Some row -> keys row = pos).
  { intros tag row Hrow. specialize (Hrows tag).
    destruct (get tag pc0) as [row0 |] eqn:Hrow0; [| congruence].
    destruct Hrows as (row' & Hrow' & Hkr & _).
    assert (row' = row) by congruence. subst row'.
    rewrite Hkr. now apply (Hrows0 tag). }
  destruct (transition_rows_outcome training_tags pos pc) as [(Hnot & Hr) | (Hin & trans & Hr & Hkt & Hent)];
    [congruence | assumption | |].
  - left. split; [assumption |]. split; [assumption |].
    unfold find_trans_prob. fold pc0. rewrite Hpc. exact Hr.
  - right. split; [assumption |]. split; [assumption |].
    exists trans. split; [unfold find_trans_prob; fold pc0; rewrite Hpc; exact Hr |].
    split; [assumption |].
    intros i j Hi Hj. rewrite (Hent i j (0 + adjacent_count training_tags i j)%Z).
    + now rewrite Z.add_0_l.
    + rewrite (count_transitions_entries _ _ _ Hpc), (Hent0 i j Hi Hj). reflexivity.
Qed.

(** X8.  When every tag of [pos] occurs in the training tag sequence
    and, if that sequence has two tags or more, each of its tags is in
    [pos], [find_trans_prob] returns a table with a row for every tag of
    [pos] in which the entry from [i] to [j] is [log2] of the number of
    positions where [i] is immediately followed by [j], divided by the
    number of occurrences of [i], and [-inf] when [j] never follows
    [i]. *)
Theorem find_trans_prob_entries (training_tags pos : list string) :
  ((2 <= List.length training_tags)%nat -> incl training_tags pos) ->
  incl pos training_tags ->
  exists trans_prob,
    find_trans_prob training_tags pos = Ok trans_prob /\
    keys trans_prob = pos /\
    forall i j, In i pos -> In j pos ->
      entry trans_prob i j
      = Some (if (adjacent_count training_tags i j =? 0)%Z then NegInf
              else log2 (inject_Z (adjacent_count training_tags i j)
                         / inject_Z (Counter_get training_tags i))).
Proof.
  intros Htags Hpos.
  destruct (find_trans_prob_outcome training_tags pos)
    as [(Hlen & Hnot & _) | [(_ & Hnot & _) | (_ & _ & trans & Hok & Hk & Hent)]];
    [destruct Hnot; auto | contradiction |].
  exists trans. split; [assumption |]. split; [assumption |].
  intros i j Hi Hj. rewrite (Hent i j Hi Hj). f_equal.
  destruct (Z.eqb_spec (adjacent_count training_tags i j) 0) as [E | E].
  - rewrite E. unfold log_prob.
    replace (Qeq_bool (inject_Z 0 / inject_Z (Counter_get training_tags i)) 0) with true;
      [reflexivity |].
    symmetry. apply Qeq_bool_iff. unfold Qdiv. apply Qmult_0_l.
  - apply log_prob_ratio; [assumption |].
    pose proof (Counter_get_pos _ _ (Hpos i Hi)). lia.
Qed.

Lemma find_trans_prob_entries_witness :
  exists trans_prob,
    find_trans_prob ["A"; "B"; "A"; "B"; "A"] ["A"; "B"] = Ok trans_prob /\
    entry trans_prob "A" "B" = Some (log2 (2 # 3)) /\
    entry trans_prob "A" "A" = Some NegInf.
Proof.
  destruct (find_trans_prob_entries ["A"; "B"; "A"; "B"; "A"] ["A"; "B"])
    as (trans & Hok & _ & Hent).
  - intros _ x. simpl. tauto.
  - intros x. simpl. tauto.
  - exists trans. split; [exact Hok |].
    split; [exact (Hent "A" "B" (or_introl eq_refl) (or_intror (or_introl eq_refl)))
           | exact (Hent "A" "A" (or_introl eq_refl) (or_introl eq_refl))].
Defined.

(** X9.  The two errors of [find_trans_prob].  It raises [KeyError]
    exactly when the training tag sequence has two tags or more and one of
    them is not in [pos]; it raises [ZeroDivisionError] exactly when the
    counting loop passes and some tag of [pos] does not occur in the
    training tag sequence. *)
Theorem find_trans_prob_errors (training_tags pos : list string) :
  (find_trans_prob training_tags pos = Raise KeyError <->
   (2 <= List.length training_tags)%nat /\ ~ incl training_tags pos) /\
  (find_trans_prob training_tags pos = Raise ZeroDivisionError <->
   ((2 <= List.length training_tags)%nat -> incl training_tags pos) /\
   ~ incl pos training_tags).
Proof.
  destruct (find_trans_prob_outcome training_tags pos)
    as [(Hlen & Hnot & ->) | [(Htags & Hnot & ->) | (Htags & Hpos & trans & -> & _)]].
  - split; split; try tauto; try discriminate.
  - split; split; try tauto; try discriminate.
  - split; split; try discriminate; tauto.
Qed.

(** ** The initial table, entry by entry *)

Lemma log_prob_zero (t : Z) : log_prob (inject_Z 0 / inject_Z t) = NegInf.
Proof.
  unfold log_prob.
  replace (Qeq_bool (inject_Z 0 / inject_Z t) 0) with true; [reflexivity |].
  symmetry. apply Qeq_bool_iff. unfold Qdiv. apply Qmult_0_l.
Qed.

(** X10.  [find_init_prob] raises [ZeroDivisionError] exactly when there
    is no sentence-initial tag and [pos] is not empty.  Otherwise it
    returns, for each tag of [pos] in order, [log2] of the fraction of the
    sentence-initial tags equal to it, and [-inf] for a tag that starts no
    sentence. *)
Theorem find_init_prob_entries (training_sent_init pos : list string) :
  find_init_prob training_sent_init pos =
  match training_sent_init, pos with
  | [], _ :: _ => Raise ZeroDivisionError
  | _, _ =>
      Ok (map (fun p =>
                 (p, if (Counter_get training_sent_init p =? 0)%Z then NegInf
                     else log2 (inject_Z (Counter_get training_sent_init p)
                                / inject_Z (Z.of_nat (List.length training_sent_init)))))
              pos)
  end.
Proof.
  destruct training_sent_init as [| s0 s].
  - destruct pos; reflexivity.
  - cbv iota. set (l := s0 :: s).
    assert (Hn : Z.of_nat (List.length l) <> 0%Z) by (unfold l; cbn [List.length]; lia).
    unfold find_init_prob.
    assert (E : mapM (fun p => x <- truediv (Counter_get l p) (Z.of_nat (List.length l)) ;;
                               Ok (p, x)) pos
                = Ok (map (fun p => (p, inject_Z (Counter_get l p)
                                        / inject_Z (Z.of_nat (List.length l)))%Q) pos)).
    { induction pos as [| p pos IH]; [reflexivity |].
      cbn [mapM map]. rewrite IH. unfold truediv.
      destruct (Z.eqb_spec (Z.of_nat (List.length l)) 0); [contradiction | reflexivity]. }
    rewrite E. cbn [bind]. f_equal. rewrite map_map. apply map_ext. intros p. f_equal.
    destruct (Z.eqb_spec (Counter_get l p) 0) as [E0 | E0].
    + rewrite E0. apply log_prob_zero.
    + now apply log_prob_ratio.
Qed.

(** ** Training tags outside the tag set *)

Lemma count_emissions_key_error (training_tagged : list (string * string)) :
  forall pos_counts,
    (exists w tag, In (w, tag) training_tagged /\ ~ In tag (keys pos_counts)) ->
    count_emissions training_tagged pos_counts = Raise KeyError.
Proof.
  induction training_tagged as [| [word tag0] rest IH]; intros pc (w & tag & Hin & Hnot);
    [destruct Hin |].
  cbn [count_emissions]. unfold lookup.
  destruct (get tag0 pc) as [row |] eqn:Hrow; [| reflexivity]. cbn [bind].
  assert (Htag0 : In tag0 (keys pc)) by (apply get_in_keys; congruence).
  apply IH. exists w, tag. rewrite keys_put_present by assumption.
  destruct Hin as [[= -> ->] | Hin]; [contradiction | auto].
Qed.

(** X11.  With distinct tags in [pos], the only exception [find_emis_prob]
    raises is [KeyError], and it raises it exactly when some training pair
    has a tag outside [pos]; a tag of [pos] without training pairs gets an
    empty row and causes no division by zero. *)
Theorem find_emis_prob_key_error
  (training_tagged : list (string * string)) (pos : list string) :
  NoDup pos ->
  (find_emis_prob training_tagged pos = Raise KeyError <->
   exists w tag, In (w, tag) training_tagged /\ ~ In tag pos) /\
  (forall e, find_emis_prob training_tagged pos = Raise e -> e = KeyError).
Proof.
  intros Hnd.
  destruct (incl_or_not (map snd training_tagged) pos) as [Hincl | (tag & Hin & Hnot)].
  - destruct (find_emis_prob_spec training_tagged pos Hnd) as (emis & -> & _).
    { intros w tag Hin. apply Hincl. change tag with (snd (w, tag)). now apply in_map. }
    split; [split; [discriminate |] | discriminate].
    intros (w & tag & Hin & Hnot). destruct Hnot. apply Hincl.
    change tag with (snd (w, tag)). now apply in_map.
  - apply in_map_iff in Hin. destruct Hin as ([w tag'] & Heq & Hin). simpl in Heq. subst tag'.
    assert (E : find_emis_prob training_tagged pos = Raise KeyError).
    { unfold find_emis_prob. rewrite count_emissions_key_error; [reflexivity |].
      exists w, tag. rewrite keys_map_const. auto. }
    rewrite E. split; [split; eauto | congruence].
Qed.

Lemma find_emis_prob_key_error_witness :
  find_emis_prob [("a", "A"); ("b", "C")] ["A"; "B"] = Raise KeyError.
Proof.
  apply (find_emis_prob_key_error [("a", "A"); ("b", "C")] ["A"; "B"]).
  - repeat constructor; simpl; intuition discriminate.
  - exists "b", "C". simpl. split; [auto | intuition discriminate].
Defined.

(** ** The smoothed table, entry by entry *)

(** X12.  For distinct tags, a non-empty tag set and training vocabulary,
    and training tags all in [pos], [laplace_emis_prob] returns a table
    that has an entry for a tag and a word exactly when the pair occurs in
    the training data, the entry being [log2 ((c + 1) / (C + V))] for [c]
    occurrences of the pair, [C] training pairs of the tag and [V]
    vocabulary words; and it returns [1 / (C + V)] as the unseen value of
    every tag. *)
Theorem laplace_emis_prob_entries (training_vocab : list string)
  (training_tagged : list (string * string)) (pos : list string) :
  let V := Z.of_nat (List.length training_vocab) in
  NoDup pos -> pos <> [] -> training_vocab <> [] ->
  (forall w tag, In (w, tag) training_tagged -> In tag pos) ->
  exists smoothed unseen_values,
    laplace_emis_prob training_vocab training_tagged pos = Ok (smoothed, unseen_values) /\
    (forall tag w,
       entry smoothed tag w =
       if (pair_count training_tagged w tag =? 0)%Z then None
       else Some (log2 (inject_Z (pair_count training_tagged w tag + 1)
                        / inject_Z (Counter_get (map snd training_tagged) tag + V)))) /\
    (forall tag, In tag pos ->
       get tag unseen_values
       = Some (inject_Z 1 / inject_Z (Counter_get (map snd training_tagged) tag + V))%Q).
Proof.
  intros V Hnd Hpos Hvocab Htags.
  destruct (laplace_emis_prob_spec training_vocab training_tagged pos Hnd Hpos Hvocab Htags)
    as (smoothed & unseen & Hok & Hks & Hspec).
  fold V in Hspec. exists smoothed, unseen. split; [exact Hok |]. split.
  2:{ intros tag Htag. destruct (Hspec tag Htag) as (counts & row & _ & Hu & Hsum & _).
      now rewrite <- Hsum. }
  assert (HV : (0 < V)%Z).
  { unfold V. destruct training_vocab; [congruence | cbn [List.length]; lia]. }
  unfold laplace_emis_prob in Hok. fold V in Hok.
  bind_inv Hok as pc Hpc. bind_inv Hok as tc Htc. bind_inv Hok as rows Hrows.
  destruct rows as [smoothed' u]. destruct u as [uv |]; [| discriminate].
  injection Hok as -> ->.
  destruct (emission_counts _ _ _ Hpc) as (Hk & Hcounts).
  pose proof (count_totals_spec _ _ _ Htc) as Htot.
  assert (Hent : forall tag w,
            entry pc tag w =
            if (pair_count training_tagged w tag =? 0)%Z then None
            else Some (pair_count training_tagged w tag)).
  { intros tag w.
    rewrite (count_emissions_entries _ _ _ Hpc).
    - unfold count_at. rewrite entry_empty_rows, Z.add_0_l. reflexivity.
    - intros tag' w' c. rewrite entry_empty_rows. discriminate. }
  destruct (laplace_rows_spec V pos tc pc _ _ _ Hrows) as (Hf2 & _ & _).
  apply Forall2_get with (R := fun tag counts row =>
    mapM (smooth V tc tag) counts = Ok row) in Hf2.
  destruct Hf2 as (Hkeys & Hget).
  assert (Hfst : forall tag kv y, smooth V tc tag kv = Ok y -> fst y = fst kv).
  { intros tag [w c] y Hy. unfold smooth in Hy.
    bind_inv Hy as t Ht. bind_inv Hy as x Hx. now injection Hy as <-. }
  intros tag w. specialize (Hent tag w).
  destruct (get tag pc) as [counts |] eqn:Hg.
  - destruct (Hget tag counts Hg) as (row & Hrow & Hsm).
    rewrite (entry_of_get _ _ w _ Hg) in Hent. rewrite (entry_of_get _ _ w _ Hrow).
    destruct (get w counts) as [c |] eqn:Hw.
    + destruct (mapM_get _ _ _ w c (Hfst tag) Hsm Hw) as (y & Hy & Hgy).
      etransitivity; [exact Hgy |].
      destruct (Z.eqb_spec (pair_count training_tagged w tag) 0) as [E | E];
        [discriminate |].
      injection Hent as ->.
      assert (Htag : In tag pos).
      { rewrite <- Hk. apply get_in_keys. congruence. }
      destruct (Hcounts tag Htag) as (counts' & Hg' & Hsum & _).
      destruct (Htot tag Htag) as (counts'' & Hg'' & Ht').
      assert (counts' = counts) by congruence. subst counts'.
      assert (counts'' = counts) by congruence. subst counts''.
      assert (Hne : (sum (values counts) + V <> 0)%Z).
      { rewrite Hsum. pose proof (Counter_get_nonneg (map snd training_tagged) tag). lia. }
      apply (smooth_spec V tc tag _ w _ _ Ht' Hne) in Hy. injection Hy as ->.
      rewrite Hsum. f_equal. apply log_prob_ratio.
      * assert (0 <= pair_count training_tagged w tag)%Z by (unfold pair_count; lia). lia.
      * now rewrite <- Hsum.
    + etransitivity; [exact (get_none_keys w counts row (mapM_keys _ _ _ (Hfst tag) Hsm) Hw) |].
      destruct (pair_count training_tagged w tag =? 0)%Z; [reflexivity | discriminate].
  - rewrite (entry_of_none _ _ w Hg) in Hent.
    rewrite (entry_of_none _ _ w (get_none_keys tag pc smoothed Hkeys Hg)).
    destruct (pair_count training_tagged w tag =? 0)%Z; [reflexivity | discriminate].
Qed.

Lemma laplace_emis_prob_entries_witness :
  exists smoothed unseen_values,
    laplace_emis_prob ["a"; "b"] [("a", "A"); ("b", "A"); ("a", "A")] ["A"; "B"]
    = Ok (smoothed, unseen_values) /\
    entry smoothed "A" "a" = Some (log2 (3 # 5)) /\
    entry smoothed "B" "a" = None /\
    get "B" unseen_values = Some (1 # 2).
Proof.
  destruct (laplace_emis_prob_entries ["a"; "b"] [("a", "A"); ("b", "A"); ("a", "A")]
              ["A"; "B"]) as (smoothed & unseen & Hok & Hent & Hun).
  - repeat constructor; simpl; intuition discriminate.
  - discriminate.
  - discriminate.
  - simpl. intros w tag [[= <- <-] | [[= <- <-] | [[= <- <-] | []]]]; auto.
  - exists smoothed, unseen. split; [exact Hok |].
    split; [exact (Hent "A" "a") |]. split; [exact (Hent "B" "a") |].
    exact (Hun "B" (or_intror (or_introl eq_refl))).
Defined.

(** X13.  With an empty tag set [laplace_emis_prob] never returns: the
    loop that binds [unseen_values] runs no iteration, so the [return]
    raises [UnboundLocalError], unless a training pair has already made
    the counting loop raise [KeyError]. *)
Theorem laplace_emis_prob_no_tags (training_vocab : list string)
  (training_tagged : list (string * string)) :
  laplace_emis_prob training_vocab training_tagged []
  = Raise (match training_tagged with
           | [] => UnboundLocalError
           | _ :: _ => KeyError
           end).
Proof.
  destruct training_tagged as [| [w tag] rest]; reflexivity.
Qed.

(** * Further properties of the unknown-word patches *)

Lemma put_same {V : Type} (k : string) (v : V) (d : dict V) :
  get k d = Some v -> put k v d = d.
Proof.
  induction d as [| [k' v'] d IH]; simpl; [discriminate |].
  destruct (String.eqb_spec k' k) as [-> | Hne].
  - now intros [= ->].
  - intros H. now rewrite IH.
Qed.

Section PatchOutcome.
Variable value : string -> result exn num.
Hypothesis value_errors : forall j, (exists v, value j = Ok v) \/ value j = Raise KeyError.

Lemma patch_word_key_error (word : string) (js : list string) :
  forall table,
    (exists j, In j js /\ (~ In j (keys table) \/ value j = Raise KeyError)) ->
    patch_word value js word table = Raise KeyError.
Proof.
  induction js as [| j js IH]; intros table (j0 & Hin & Hbad); [destruct Hin |].
  cbn [patch_word].
  destruct (value_errors j) as [(v & Hv) | Hv]; rewrite Hv; cbn [bind]; [| reflexivity].
  unfold lookup. destruct (get j table) as [row |] eqn:Hrow; [| reflexivity]. cbn [bind].
  assert (Hj : In j (keys table)) by (apply get_in_keys; congruence).
  apply IH. exists j0. rewrite keys_put_present by assumption.
  destruct Hin as [<- | Hin]; [| auto].
  destruct Hbad as [Hbad | Hbad]; [contradiction | congruence].
Qed.

Lemma patch_key_error (pos words : list string) (table : dict (dict num)) :
  words <> [] ->
  (exists j, In j pos /\ (~ In j (keys table) \/ value j = Raise KeyError)) ->
  patch value pos table words = Raise KeyError.
Proof.
  intros Hw Hbad. destruct words as [| word rest]; [congruence |].
  cbn [patch]. now rewrite patch_word_key_error.
Qed.

Lemma patch_word_fixed (word : string) (js : list string) (table : dict (dict num)) :
  (forall j, In j js -> exists v, value j = Ok v /\ entry table j word = Some v) ->
  patch_word value js word table = Ok table.
Proof.
  induction js as [| j js IH]; intros H; [reflexivity |].
  cbn [patch_word]. destruct (H j (or_introl eq_refl)) as (v & Hv & He).
  rewrite Hv. cbn [bind]. apply entry_some in He. destruct He as (row & Hrow & Hw).
  unfold lookup. rewrite Hrow. cbn [bind].
  rewrite (put_same word v row Hw), (put_same j row table Hrow).
  apply IH. intros j' Hj'. apply H. now right.
Qed.

Lemma patch_fixed (pos words : list string) (table : dict (dict num)) :
  (forall j w, In j pos -> In w words ->
               exists v, value j = Ok v /\ entry table j w = Some v) ->
  patch value pos table words = Ok table.
Proof.
  induction words as [| word rest IH]; intros H; [reflexivity |].
  cbn [patch]. rewrite patch_word_fixed.
  - cbn [bind]. apply IH. intros j w Hj Hw. apply H; [assumption | now right].
  - intros j Hj. apply H; [assumption | now left].
Qed.

End PatchOutcome.

(** X14.  [add_emis] fails only with [KeyError], and exactly when there
    is at least one unknown word and some tag of [pos] has no row in the
    table; with no unknown word it returns the table as it is, whatever
    its rows. *)
Theorem add_emis_key_error (pos : list string) (emis_prob : dict (dict num))
  (unknown : list string) :
  (add_emis pos emis_prob unknown = Raise KeyError <->
   unknown <> [] /\ exists j, In j pos /\ ~ In j (keys emis_prob)) /\
  (forall e, add_emis pos emis_prob unknown = Raise e -> e = KeyError) /\
  add_emis pos emis_prob [] = Ok emis_prob.
Proof.
  assert (Hval : forall j : string,
            (exists v, (fun _ : string => @Ok exn num (lit 0)) j = Ok v)
            \/ (fun _ : string => @Ok exn num (lit 0)) j = Raise KeyError)
    by (intros j; left; eauto).
  split; [| split; [| reflexivity]].
  - destruct unknown as [| word rest].
    { split; [discriminate | intros [H _]; congruence]. }
    destruct (incl_or_not pos (keys emis_prob)) as [Hincl | (j & Hj & Hnot)].
    + destruct (patch_total (fun _ => Ok (lit 0)) pos (word :: rest) emis_prob)
        as (t & Ht); [intros j Hj; split; [auto | eauto] |].
      unfold add_emis. rewrite Ht.
      split; [discriminate | intros (_ & j & Hj & Hnot); destruct Hnot; auto].
    + split; [intros _; split; [discriminate | eauto] | intros _].
      apply (patch_key_error _ Hval); [discriminate | eauto].
  - intros e He. destruct unknown as [| word rest]; [discriminate |].
    destruct (incl_or_not pos (keys emis_prob)) as [Hincl | (j & Hj & Hnot)].
    + destruct (patch_total (fun _ => Ok (lit 0)) pos (word :: rest) emis_prob)
        as (t & Ht); [intros j Hj; split; [auto | eauto] |].
      unfold add_emis in He. congruence.
    + unfold add_emis in He.
      rewrite (patch_key_error _ Hval pos (word :: rest) emis_prob) in He;
        [congruence | discriminate | eauto].
Qed.

(** X15.  Patching twice changes nothing more: applied to its own result
    with the same unknown words (and, for the smoothed table, the same
    unseen values), each patch returns that table unchanged. *)
Theorem patches_idempotent (pos : list string) (table table' : dict (dict num))
  (unknown : list string) (unseen_values : dict Q) :
  (add_emis pos table unknown = Ok table' ->
   add_emis pos table' unknown = Ok table') /\
  (laplace_add_emis pos table unknown unseen_values = Ok table' ->
   laplace_add_emis pos table' unknown unseen_values = Ok table').
Proof.
  split; intros H; destruct (patch_spec _ _ _ _ _ H) as (_ & _ & Hnew);
    apply patch_fixed; intros j w Hj Hw; now apply Hnew.
Qed.

Lemma patches_idempotent_witness :
  add_emis ["A"; "B"] [("A", [("a", lit 0); ("u", lit 0)]); ("B", [("u", lit 0)])] ["u"]
  = Ok [("A", [("a", lit 0); ("u", lit 0)]); ("B", [("u", lit 0)])] /\
  laplace_add_emis ["A"] [("A", [("a", lit 0); ("u", lit (1 # 2))])] ["u"] [("A", 1 # 2)]
  = Ok [("A", [("a", lit 0); ("u", lit (1 # 2))])].
Proof.
  split.
  - apply (patches_idempotent ["A"; "B"] [("A", [("a", lit 0)]); ("B", [])] _ ["u"] []).
    reflexivity.
  - apply (patches_idempotent ["A"] [("A", [("a", lit 0)])] _ ["u"] [("A", 1 # 2)]).
    reflexivity.
Defined.

(** * The decoder on complete tables, and the whole script *)

(** X16.  Complete tables.  With distinct tags, at least one, none of
    them ["origin"], a non-empty observation sequence, an initial entry
    and an emission row for every tag and a transition entry for every
    pair of tags, the call has two possible outcomes only: it returns one
    tag of [states] per observation, or it raises [KeyError] in the
    backtracking step. *)
Theorem decode_complete_tables
  (observations states : list string) (init_prob : dict num)
  (trans_prob emis_prob : dict (dict num)) :
  NoDup states -> states <> [] -> ~ In origin states -> observations <> [] ->
  (forall j, In j states -> In j (keys init_prob)) ->
  (forall j, In j states -> In j (keys emis_prob)) ->
  (forall i j, In i states -> In j states -> entry trans_prob i j <> None) ->
  (exists tags,
     viterbi_algorithm observations states init_prob trans_prob emis_prob = Ok tags /\
     List.length tags = List.length observations /\
     Forall (fun j => In j states) tags)
  \/ viterbi_algorithm observations states init_prob trans_prob emis_prob
     = Raise (Backtracking, KeyError).
Proof.
  intros Hnd Hne Hor Hobs Hinit Hemis Htrans.
  destruct (forward_total states init_prob trans_prob emis_prob Hinit Hemis Htrans
              observations Hobs) as (V & B & Hf).
  assert (HT : (0 < List.length observations)%nat)
    by (destruct observations; [congruence | simpl; lia]).
  destruct (chart_row_at _ _ _ _ _ _ _ Hf (List.length observations - 1)%nat)
    as (row & brow & Hrow & _ & Hkeys & _); [lia |].
  destruct (termination_total observations V row Hobs Hrow) as (final & Hterm).
  { intros ->. simpl in Hkeys. congruence. }
  destruct (decode_outcome _ _ _ _ _ _ _ _ Hnd Hor Hf Hterm) as (Hfinal & _ & Hres).
  destruct (chain B (List.length observations - 1) final) as [c |] eqn:Hc.
  - left. exists (rev c). split; [exact Hres |]. split.
    + rewrite length_rev, (chain_length _ _ _ _ Hc). lia.
    + apply Forall_rev. eapply chain_in_states; eauto. eapply forward_wf; eauto.
  - right. exact Hres.
Qed.


Lemma decode_complete_tables_witness :
  (exists tags,
     viterbi_algorithm ["b"; "a"] ["A"; "B"] [("A", lit 0); ("B", NegInf)]
       [("A", [("A", NegInf); ("B", lit 0)]); ("B", [("A", NegInf); ("B", NegInf)])]
       [("A", [("a", lit 0)]); ("B", [("b", lit 0)])] = Ok tags /\
     List.length tags = List.length ["b"; "a"] /\
     Forall (fun j => In j ["A"; "B"]) tags)
  \/ viterbi_algorithm ["b"; "a"] ["A"; "B"] [("A", lit 0); ("B", NegInf)]
       [("A", [("A", NegInf); ("B", lit 0)]); ("B", [("A", NegInf); ("B", NegInf)])]
       [("A", [("a", lit 0)]); ("B", [("b", lit 0)])]
     = Raise (Backtracking, KeyError).
Proof.
  apply (decode_complete_tables ["b"; "a"] ["A"; "B"]).
  - repeat constructor; simpl; intuition discriminate.
  - discriminate.
  - simpl. intuition discriminate.
  - discriminate.
  - simpl. tauto.
  - simpl. tauto.
  - intros i j [<- | [<- | []]] [<- | [<- | []]]; discriminate.
Defined.

(** X17.  The whole script.  Let the tag set be the distinct tags of a
    non-empty training corpus, none of them ["origin"], the training
    vocabulary the words of that corpus, and let there be at least one
    sentence-initial tag and one test observation.  Then no training
    function and no patch raises, both charts are built, and the script
    either produces two tag sequences, each with one tag of the tag set
    per test observation, or stops with the [KeyError] of the backtracking
    step. *)
Theorem tagger_outcome
  (training_sent_init training_tags : list string)
  (training_tagged : list (string * string))
  (pos training_vocab test_vocab test_obs : list string) :
  NoDup pos ->
  (forall tag, In tag pos <-> In tag training_tags) ->
  training_tags = map snd training_tagged ->
  training_tagged <> [] ->
  (forall w, In w training_vocab <-> In w (map fst training_tagged)) ->
  training_sent_init <> [] ->
  test_obs <> [] ->
  ~ In origin pos ->
  (exists unsmoothed smoothed,
     tagger training_sent_init training_tags training_tagged pos training_vocab
            test_vocab test_obs = Ok (unsmoothed, smoothed) /\
     List.length unsmoothed = List.length test_obs /\
     List.length smoothed = List.length test_obs /\
     Forall (fun j => In j pos) unsmoothed /\
     Forall (fun j => In j pos) smoothed)
  \/ tagger training_sent_init training_tags training_tagged pos training_vocab
            test_vocab test_obs = Raise (Decoding Backtracking, KeyError).
Proof.
  intros Hnd Hpos Htags Hne Hvocab Hinit Hobs Hor.
  assert (Htagged : forall w tag, In (w, tag) training_tagged -> In tag pos).
  { intros w tag Hin. apply Hpos. rewrite Htags.
    change tag with (snd (w, tag)). now apply in_map. }
  assert (Hpos_ne : pos <> []).
  { destruct training_tagged as [| [w tag] rest]; [congruence |].
    intros E. pose proof (Htagged w tag (or_introl eq_refl)) as H. rewrite E in H.
    destruct H. }
  assert (Hvocab_ne : training_vocab <> []).
  { destruct training_tagged as [| [w tag] rest]; [congruence |].
    intros E. assert (H : In w training_vocab) by (apply Hvocab; simpl; auto).
    rewrite E in H. destruct H. }
  destruct (find_init_prob_spec training_sent_init pos Hinit) as (init & Hi & Hki & _).
  destruct (find_trans_prob_spec training_tags pos Hnd Hpos) as (trans & Ht & Hkt & Hrows).
  destruct (find_emis_prob_spec training_tagged pos Hnd Htagged) as (emis & He & Hke & _).
  destruct (laplace_emis_prob_spec training_vocab training_tagged pos Hnd Hpos_ne
              Hvocab_ne Htagged) as (smoothed & unseen & Hl & Hks & Hun).
  set (unknown := unknown_words test_vocab training_vocab).
  destruct (patch_total (fun _ => Ok (lit 0)) pos unknown emis) as (emis' & Hp).
  { intros j Hj. split; [now rewrite Hke | eauto]. }
  destruct (patch_total (fun j => x <- lookup j unseen ;; Ok (lit x)) pos unknown smoothed)
    as (smoothed' & Hp').
  { intros j Hj. split; [now rewrite Hks |].
    destruct (Hun j Hj) as (counts & row & _ & Hg & _).
    unfold lookup. rewrite Hg. simpl. eauto. }
  destruct (patch_spec _ _ _ _ _ Hp) as (Hke' & _).
  destruct (patch_spec _ _ _ _ _ Hp') as (Hks' & _).
  assert (Htrans : forall i j, In i pos -> In j pos -> entry trans i j <> None).
  { intros i j Hi' Hj. destruct (Hrows i Hi') as (counts & row & Hg & Hkr & _).
    rewrite (entry_of_get _ _ j _ Hg). apply get_in_keys. now rewrite Hkr. }
  assert (Hinit' : forall j, In j pos -> In j (keys init)) by (intros j Hj; now rewrite Hki).
  assert (Hemis' : forall j, In j pos -> In j (keys emis')).
  { intros j Hj. rewrite Hke'. now rewrite Hke. }
  assert (Hsm' : forall j, In j pos -> In j (keys smoothed')).
  { intros j Hj. rewrite Hks'. now rewrite Hks. }
  assert (D : forall table, (forall j, In j pos -> In j (keys table)) ->
            (exists tags,
               viterbi_algorithm test_obs pos init trans table = Ok tags /\
               List.length tags = List.length test_obs /\
               Forall (fun j => In j pos) tags)
            \/ viterbi_algorithm test_obs pos init trans table
               = Raise (Backtracking, KeyError)).
  { intros table Htable.
    destruct (forward_total pos init trans table Hinit' Htable Htrans test_obs Hobs)
      as (V & B & Hf).
    assert (HT : (0 < List.length test_obs)%nat)
      by (destruct test_obs; [congruence | simpl; lia]).
    destruct (chart_row_at _ _ _ _ _ _ _ Hf (List.length test_obs - 1)%nat)
      as (row & brow & Hrow & _ & Hkeys & _); [lia |].
    destruct (termination_total test_obs V row Hobs Hrow) as (final & Hterm).
    { intros ->. simpl in Hkeys. congruence. }
    destruct (decode_outcome _ _ _ _ _ _ _ _ Hnd Hor Hf Hterm) as (Hfinal & _ & Hres).
    destruct (chain B (List.length test_obs - 1) final) as [c |] eqn:Hc; [left | now right].
    exists (rev c). split; [exact Hres |]. split.
    - rewrite length_rev, (chain_length _ _ _ _ Hc). lia.
    - apply Forall_rev. eapply chain_in_states; eauto. eapply forward_wf; eauto. }
  pose proof (D emis' Hemis') as D1.
  pose proof (D smoothed' Hsm') as D2.
  unfold tagger. rewrite Hi, Ht, He, Hl. cbn [in_phase bind]. fold unknown.
  unfold add_emis, laplace_add_emis in *. rewrite Hp, Hp'. cbn [in_phase bind].
  destruct D1 as [(tags1 & -> & Hlen1 & Hall1) | ->]; cbn [decoding bind]; [| now right].
  destruct D2 as [(tags2 & -> & Hlen2 & Hall2) | ->]; cbn [decoding bind]; [| now right].
  left. exists tags1, tags2. auto.
Qed.

Lemma tagger_outcome_witness :
  (exists unsmoothed smoothed,
     tagger ["A"] ["A"; "B"] [("a", "A"); ("b", "B")] ["A"; "B"] ["a"; "b"]
            ["a"; "u"] ["a"; "u"] = Ok (unsmoothed, smoothed) /\
     List.length unsmoothed = List.length ["a"; "u"] /\
     List.length smoothed = List.length ["a"; "u"] /\
     Forall (fun j => In j ["A"; "B"]) unsmoothed /\
     Forall (fun j => In j ["A"; "B"]) smoothed)
  \/ tagger ["A"] ["A"; "B"] [("a", "A"); ("b", "B")] ["A"; "B"] ["a"; "b"]
            ["a"; "u"] ["a"; "u"] = Raise (Decoding Backtracking, KeyError).
Proof.
  apply (tagger_outcome ["A"] ["A"; "B"] [("a", "A"); ("b", "B")] ["A"; "B"] ["a"; "b"]
           ["a"; "u"] ["a"; "u"]).
  - repeat constructor; simpl; intuition discriminate.
  - intros tag. simpl. tauto.
  - reflexivity.
  - discriminate.
  - intros w. simpl. tauto.
  - discriminate.
  - discriminate.
  - simpl. intuition discriminate.
Defined.

(** * The corpus reader and writer *)

(** ** Slices *)

Lemma list_ind2 {A : Type} (P : list A -> Prop) :
  P [] -> (forall x, P [x]) -> (forall x y l, P l -> P (x :: y :: l)) ->
  forall l, P l.
Proof.
  intros H0 H1 H2.
  assert (H : forall l, P l /\ forall x, P (x :: l)).
  { induction l as [| y l [IH1 IH2]]; split; auto. }
  intros l. apply H.
Qed.

Lemma evens_cons {A : Type} (x : A) (l : list A) : evens (x :: l) = x :: odds l.
Proof. destruct l; reflexivity. Qed.

Lemma odds_cons {A : Type} (x : A) (l : list A) : odds (x :: l) = evens l.
Proof. reflexivity. Qed.

Lemma evens_cons2 {A : Type} (x y : A) (l : list A) :
  evens (x :: y :: l) = x :: evens l.
Proof. reflexivity. Qed.

Lemma odds_cons2 {A : Type} (x y : A) (l : list A) :
  odds (x :: y :: l) = y :: odds l.
Proof. destruct l; reflexivity. Qed.

Lemma evens_odds_length {A : Type} (l : list A) :
  if Nat.even (List.length l)
  then List.length (evens l) = List.length (odds l)
  else (List.length (odds l) < List.length (evens l))%nat.
Proof.
  induction l as [| x | x y l IH] using list_ind2; [reflexivity | simpl; lia |].
  rewrite evens_cons2, odds_cons2.
  change (Nat.even (List.length (x :: y :: l))) with (Nat.even (List.length l)).
  destruct (Nat.even (List.length l)); cbn [List.length]; lia.
Qed.

Lemma evens_odds_app {A : Type} (a b : list A) :
  Nat.even (List.length a) = true ->
  evens (a ++ b) = evens a ++ evens b /\ odds (a ++ b) = odds a ++ odds b.
Proof.
  induction a as [| x | x y a IH] using list_ind2; intros Ha.
  - auto.
  - discriminate.
  - change (Nat.even (List.length (x :: y :: a))) with (Nat.even (List.length a)) in Ha.
    destruct (IH Ha) as [E1 E2].
    cbn [app]. rewrite !evens_cons2, !odds_cons2, E1, E2. auto.
Qed.

Lemma interleave_slices {A : Type} (words : list A) :
  forall tags, (List.length words <= List.length tags)%nat ->
    evens (interleave words tags) = words /\
    odds (interleave words tags) = firstn (List.length words) tags /\
    Nat.even (List.length (interleave words tags)) = true.
Proof.
  unfold interleave.
  induction words as [| w words IH]; intros tags Hlen; [auto |].
  destruct tags as [| t tags]; [simpl in Hlen; lia |].
  destruct (IH tags) as (E1 & E2 & E3); [simpl in Hlen; lia |].
  cbn [combine flat_map app List.length firstn].
  rewrite evens_cons2, odds_cons2, E1, E2. auto.
Qed.

Lemma interleave_evens_odds {A : Type} (l : list A) :
  Nat.even (List.length l) = true -> interleave (evens l) (odds l) = l.
Proof.
  unfold interleave.
  induction l as [| x | x y l IH] using list_ind2; intros H;
    [reflexivity | discriminate |].
  change (Nat.even (List.length (x :: y :: l))) with (Nat.even (List.length l)) in H.
  rewrite evens_cons2, odds_cons2. cbn [combine flat_map app]. now rewrite IH.
Qed.

Lemma combine_app_skipn {A B : Type} (a b : list A) :
  forall l : list B, (List.length a <= List.length l)%nat ->
    combine (a ++ b) l = combine a l ++ combine b (skipn (List.length a) l).
Proof.
  induction a as [| x a IH]; intros l Hlen; [reflexivity |].
  destruct l as [| y l]; [simpl in Hlen; lia |].
  simpl. rewrite IH by (simpl in Hlen; lia). reflexivity.
Qed.

Lemma Forall_skipn {A : Type} (P : A -> Prop) (n : nat) :
  forall l, Forall P l -> Forall P (skipn n l).
Proof.
  induction n as [| n IH]; intros l H; [exact H |].
  destruct H; [constructor | simpl; auto].
Qed.

(** ** The list comprehension that pairs words and tags by index *)

Lemma list_index_out {A : Type} (l : list A) (t : nat) :
  nth_error l t = None -> list_index l (Z.of_nat t) = Raise IndexError.
Proof.
  intros H. unfold list_index.
  assert (E : (Z.of_nat t <? 0)%Z = false) by (apply Z.ltb_ge; lia).
  cbv zeta. rewrite !E, Nat2Z.id, H. reflexivity.
Qed.

Lemma pair_by_index {A B : Type} (l1 : list A) :
  forall (l2 : list B) (pre1 : list A) (pre2 : list B),
    List.length pre1 = List.length pre2 ->
    mapM (fun x => o <- list_index (pre1 ++ l1) x ;;
                   t <- list_index (pre2 ++ l2) x ;;
                   Ok (o, t))
         (map Z.of_nat (seq (List.length pre1) (List.length l1)))
    = if (List.length l1 <=? List.length l2)%nat then Ok (combine l1 l2)
      else Raise IndexError.
Proof.
  induction l1 as [| x l1 IH]; intros l2 pre1 pre2 Hpre; [reflexivity |].
  cbn [List.length seq map mapM].
  rewrite (list_index_nat (pre1 ++ x :: l1) (List.length pre1) x)
    by (rewrite nth_error_app2, Nat.sub_diag by lia; reflexivity).
  cbn [bind].
  destruct l2 as [| y l2].
  - rewrite list_index_out; [reflexivity |].
    apply nth_error_None. rewrite app_nil_r. lia.
  - rewrite (list_index_nat (pre2 ++ y :: l2) (List.length pre1) y)
      by (rewrite Hpre, nth_error_app2, Nat.sub_diag by lia; reflexivity).
    cbn [bind].
    specialize (IH l2 (pre1 ++ [x]) (pre2 ++ [y])).
    rewrite <- !app_assoc, !length_app in IH. cbn [app List.length] in IH.
    replace (List.length pre1 + 1)%nat with (S (List.length pre1)) in IH by lia.
    rewrite IH by lia. cbn [List.length combine].
    change (S (List.length l1) <=? S (List.length l2))%nat
      with (List.length l1 <=? List.length l2)%nat.
    destruct (List.length l1 <=? List.length l2)%nat; reflexivity.
Qed.

Section CorpusFacts.
Variable char : Type.
Variable char_eq_dec : forall a b : char, {a = b} + {a <> b}.
Variable isspace : char -> bool.
Variables newline tab : char.
Hypothesis newline_space : isspace newline = true.
Hypothesis tab_space : isspace tab = true.

(** ** Splitting at whitespace *)

Lemma str_split_from_space (cur a b : list char) (c : char) :
  isspace c = true ->
  str_split_from isspace cur (a ++ c :: b)
  = str_split_from isspace cur a ++ str_split isspace b.
Proof.
  intros Hc. revert cur. induction a as [| x a IH]; intros cur; simpl.
  - rewrite Hc. destruct cur; reflexivity.
  - destruct (isspace x).
    + destruct cur; rewrite IH; reflexivity.
    + apply IH.
Qed.

Lemma str_split_from_word (w s : list char) :
  Forall (fun c => isspace c = false) w ->
  forall cur, str_split_from isspace cur (w ++ s) = str_split_from isspace (rev w ++ cur) s.
Proof.
  induction 1 as [| x w Hx _ IH]; intros cur; simpl; [reflexivity |].
  rewrite Hx, IH. now rewrite <- app_assoc.
Qed.

Lemma str_split_token (w s : list char) (c : char) :
  token isspace w -> isspace c = true ->
  str_split isspace (w ++ c :: s) = w :: str_split isspace s.
Proof.
  intros [Hne Hw] Hc. unfold str_split. rewrite str_split_from_word by assumption.
  rewrite app_nil_r. simpl. rewrite Hc.
  destruct (rev w) eqn:E.
  - apply (f_equal (@rev char)) in E. rewrite rev_involutive in E. simpl in E. congruence.
  - rewrite <- E, rev_involutive. reflexivity.
Qed.

Lemma str_split_leading_space (c : char) (s : list char) :
  isspace c = true -> str_split isspace (c :: s) = str_split isspace s.
Proof. unfold str_split. simpl. now intros ->. Qed.

Lemma str_split_trailing_space (a : list char) (c : char) :
  isspace c = true -> str_split isspace (a ++ [c]) = str_split isspace a.
Proof.
  intros Hc. unfold str_split. rewrite str_split_from_space by assumption.
  apply app_nil_r.
Qed.

Lemma rev_token (cur : list char) (x : char) :
  Forall (fun c => isspace c = false) (x :: cur) -> token isspace (rev (x :: cur)).
Proof.
  intros H. split.
  - intros E. apply (f_equal (@List.length char)) in E. rewrite length_rev in E.
    discriminate.
  - now apply Forall_rev.
Qed.

Lemma str_split_from_tokens (s : list char) :
  forall cur, Forall (fun c => isspace c = false) cur ->
    Forall (token isspace) (str_split_from isspace cur s).
Proof.
  induction s as [| c s IH]; intros cur Hcur; simpl.
  - destruct cur as [| x cur]; constructor; [now apply rev_token | constructor].
  - destruct (isspace c) eqn:Hc.
    + destruct cur as [| x cur]; [apply IH; constructor |].
      constructor; [now apply rev_token | apply IH; constructor].
    + apply IH. now constructor.
Qed.

Lemma str_split_tokens (s : list char) : Forall (token isspace) (str_split isspace s).
Proof. apply str_split_from_tokens. constructor. Qed.

(** ** Splitting at blank lines *)

Lemma str_split_blank_from_cons2 (cur : list char) (c c' : char) (rest : list char) :
  str_split_blank_from char_eq_dec newline cur (c :: c' :: rest)
  = if char_eq_dec c newline
    then if char_eq_dec c' newline
         then rev cur :: str_split_blank_from char_eq_dec newline [] rest
         else str_split_blank_from char_eq_dec newline (c :: cur) (c' :: rest)
    else str_split_blank_from char_eq_dec newline (c :: cur) (c' :: rest).
Proof. reflexivity. Qed.

Lemma str_split_blank_from_concat (n : nat) :
  forall s cur, (List.length s <= n)%nat ->
    List.concat (map (str_split isspace) (str_split_blank_from char_eq_dec newline cur s))
    = str_split isspace (rev cur ++ s).
Proof.
  induction n as [| n IH]; intros s cur Hlen.
  - destruct s; [| simpl in Hlen; lia]. simpl. now rewrite !app_nil_r.
  - destruct s as [| c [| c' rest]].
    + simpl. now rewrite !app_nil_r.
    + simpl. now rewrite app_nil_r.
    + rewrite str_split_blank_from_cons2.
      assert (Hstep : List.concat (map (str_split isspace)
                        (str_split_blank_from char_eq_dec newline (c :: cur) (c' :: rest)))
                      = str_split isspace (rev cur ++ c :: c' :: rest)).
      { rewrite IH by (simpl in Hlen; simpl; lia). cbn [rev]. now rewrite <- app_assoc. }
      destruct (char_eq_dec c newline) as [-> |]; [| exact Hstep].
      destruct (char_eq_dec c' newline) as [-> |]; [| exact Hstep].
      cbn [map List.concat]. rewrite IH by (simpl in Hlen; lia).
      cbn [rev app]. unfold str_split at 3.
      rewrite str_split_from_space by exact newline_space.
      now rewrite (str_split_leading_space newline rest newline_space).
Qed.

Lemma str_split_blank_concat (s : list char) :
  List.concat (map (str_split isspace) (str_split_blank char_eq_dec newline s))
  = str_split isspace s.
Proof. apply (str_split_blank_from_concat (List.length s)). lia. Qed.

Lemma str_split_blank_from_nonempty (n : nat) :
  forall s cur, (List.length s <= n)%nat ->
    str_split_blank_from char_eq_dec newline cur s <> [].
Proof.
  induction n as [| n IH]; intros s cur Hlen.
  - destruct s; [discriminate | simpl in Hlen; lia].
  - destruct s as [| c [| c' rest]]; [discriminate | discriminate |].
    rewrite str_split_blank_from_cons2.
    destruct (char_eq_dec c newline); [destruct (char_eq_dec c' newline) |];
      try discriminate; apply IH; simpl in *; lia.
Qed.

(** ** Reading a tagged corpus *)

Lemma process_train_closed (training_text : list char) :
  process_train char_eq_dec isspace newline training_text =
  let tokens := str_split isspace training_text in
  if Nat.even (List.length tokens)
  then Ok (evens tokens, odds tokens, combine (evens tokens) (odds tokens),
           flat_map (fun sent => firstn 1 (skipn 1 (str_split isspace sent)))
                    (str_split_blank char_eq_dec newline training_text))
  else Raise IndexError.
Proof.
  unfold process_train. cbv zeta.
  set (tokens := str_split isspace training_text).
  pose proof (pair_by_index (evens tokens) (odds tokens) [] [] eq_refl) as H.
  cbn [app List.length] in H. rewrite H.
  pose proof (evens_odds_length tokens) as Hlen.
  destruct (Nat.even (List.length tokens)).
  - rewrite Hlen, Nat.leb_refl. reflexivity.
  - destruct (Nat.leb_spec (List.length (evens tokens)) (List.length (odds tokens)));
      [lia | reflexivity].
Qed.

(** X18.  [process_train] raises [IndexError] exactly when the corpus has
    an odd number of whitespace-separated tokens (the last word has no
    tag).  Otherwise the observations are the tokens at even positions,
    the tags those at odd positions, and the tagged list pairs them in
    order. *)
Theorem process_train_outcome (training_text : list char) :
  let tokens := str_split isspace training_text in
  (Nat.even (List.length tokens) = false /\
   process_train char_eq_dec isspace newline training_text = Raise IndexError)
  \/ (Nat.even (List.length tokens) = true /\
      exists training_obs training_tags training_sent_init,
        process_train char_eq_dec isspace newline training_text
        = Ok (training_obs, training_tags, combine training_obs training_tags,
              training_sent_init) /\
        List.length training_obs = List.length training_tags /\
        tokens = interleave training_obs training_tags).
Proof.
  intros tokens. rewrite process_train_closed. fold tokens. cbv zeta.
  pose proof (evens_odds_length tokens) as Hlen.
  destruct (Nat.even (List.length tokens)) eqn:E; [right | left; auto].
  split; [reflexivity |]. do 3 eexists. split; [reflexivity |]. split; [exact Hlen |].
  symmetry. now apply interleave_evens_odds.
Qed.

(** ** Sentence-initial tags *)

Lemma sentence_tags (sents : list (list char)) :
  Forall (fun sent => Nat.even (List.length (str_split isspace sent)) = true) sents ->
  odds (List.concat (map (str_split isspace) sents))
  = flat_map (fun sent => odds (str_split isspace sent)) sents /\
  flat_map (fun sent => firstn 1 (skipn 1 (str_split isspace sent))) sents
  = flat_map (fun sent => firstn 1 (odds (str_split isspace sent))) sents.
Proof.
  induction 1 as [| sent sents Hsent _ [IH1 IH2]]; [auto |].
  cbn [map List.concat flat_map].
  rewrite (proj2 (evens_odds_app (str_split isspace sent) _ Hsent)), IH1, IH2.
  split; [reflexivity |]. f_equal.
  destruct (str_split isspace sent) as [| x [| y l]]; reflexivity.
Qed.

(** X19.  When every sentence of the corpus (the pieces between blank
    lines) has an even number of tokens and the newline is whitespace,
    the tags returned by [process_train] are the tags of the sentences in
    order, and the sentence-initial tags are the first tag of every
    non-empty sentence; so every sentence-initial tag is one of the
    training tags. *)
Theorem process_train_sentence_initial (training_text : list char)
  (training_obs training_tags : list (list char))
  (training_tagged : list (list char * list char))
  (training_sent_init : list (list char)) :
  process_train char_eq_dec isspace newline training_text
  = Ok (training_obs, training_tags, training_tagged, training_sent_init) ->
  Forall (fun sent => Nat.even (List.length (str_split isspace sent)) = true)
         (str_split_blank char_eq_dec newline training_text) ->
  training_tags
  = flat_map (fun sent => odds (str_split isspace sent))
             (str_split_blank char_eq_dec newline training_text) /\
  training_sent_init
  = flat_map (fun sent => firstn 1 (odds (str_split isspace sent)))
             (str_split_blank char_eq_dec newline training_text) /\
  incl training_sent_init training_tags.
Proof.
  intros Hok Heven. rewrite process_train_closed in Hok. cbv zeta in Hok.
  destruct (Nat.even _); [| discriminate].
  destruct (sentence_tags _ Heven) as [E1 E2].
  rewrite (str_split_blank_concat training_text) in E1.
  assert (Ht : training_tags
               = flat_map (fun sent => odds (str_split isspace sent))
                          (str_split_blank char_eq_dec newline training_text))
    by congruence.
  assert (Hs : training_sent_init
               = flat_map (fun sent => firstn 1 (odds (str_split isspace sent)))
                          (str_split_blank char_eq_dec newline training_text))
    by congruence.
  clear Hok E1 E2. subst training_tags training_sent_init.
  split; [reflexivity |]. split; [reflexivity |].
  intros tag. rewrite !in_flat_map.
  intros (sent & Hsent & Htag). exists sent. split; [assumption |].
  destruct (odds (str_split isspace sent)) as [| t ts]; [destruct Htag |].
  destruct Htag as [<- | []]. now left.
Qed.
(** ** Writing the tagged text *)

Lemma tagged_lines_cons (w : list char) (s : list (list char)) (t : list char)
  (ts : list (list char)) :
  tagged_lines newline tab (w :: s) (t :: ts)
  = (w ++ [tab] ++ t ++ [newline]) ++ tagged_lines newline tab s ts.
Proof. reflexivity. Qed.

Lemma tag_sentence_spec (sentence : list (list char)) :
  forall tags acc,
    tag_sentence newline tab sentence tags acc =
    if (List.length sentence <=? List.length tags)%nat
    then Ok (acc ++ tagged_lines newline tab sentence tags,
             skipn (List.length sentence) tags)
    else Raise StopIteration.
Proof.
  induction sentence as [| w s IH]; intros tags acc.
  - simpl. unfold tagged_lines. simpl. now rewrite app_nil_r.
  - destruct tags as [| t ts]; [reflexivity |].
    cbn [tag_sentence]. rewrite IH. cbn [List.length skipn].
    change (S (List.length s) <=? S (List.length ts))%nat
      with (List.length s <=? List.length ts)%nat.
    destruct (List.length s <=? List.length ts)%nat; [| reflexivity].
    rewrite tagged_lines_cons, <- !app_assoc. reflexivity.
Qed.

Lemma tag_sentences_spec (split_test : list (list (list char))) :
  forall tags acc,
    tag_sentences newline tab split_test tags acc =
    if (List.length (List.concat split_test) <=? List.length tags)%nat
    then Ok (acc ++ tagged_text newline tab split_test tags)
    else Raise StopIteration.
Proof.
  induction split_test as [| s rest IH]; intros tags acc.
  - simpl. now rewrite app_nil_r.
  - cbn [tag_sentences List.concat tagged_text]. rewrite tag_sentence_spec, length_app.
    destruct (Nat.leb_spec (List.length s) (List.length tags)) as [Hs | Hs].
    + cbn [bind]. cbv beta iota. rewrite IH, length_skipn.
      destruct (Nat.leb_spec (List.length (List.concat rest))
                             (List.length tags - List.length s));
        destruct (Nat.leb_spec (List.length s + List.length (List.concat rest))
                               (List.length tags)); try lia.
      * rewrite <- !app_assoc. reflexivity.
      * reflexivity.
    + cbn [bind].
      destruct (Nat.leb_spec (List.length s + List.length (List.concat rest))
                             (List.length tags)); [lia | reflexivity].
Qed.

Lemma add_tags_closed (test : list char) (tags : list (list char)) :
  add_tags char_eq_dec isspace newline tab test tags =
  if (List.length (str_split isspace test) <=? List.length tags)%nat
  then Ok (removelast
             (tagged_text newline tab
                (map (str_split isspace) (str_split_blank char_eq_dec newline test)) tags))
  else Raise StopIteration.
Proof.
  unfold add_tags. cbv zeta. rewrite tag_sentences_spec, str_split_blank_concat.
  destruct (List.length (str_split isspace test) <=? List.length tags)%nat; reflexivity.
Qed.

(** X20.  When the newline is whitespace, [add_tags] raises
    [StopIteration] exactly when there are fewer tags than words in the
    test text; tags beyond the number of words are ignored. *)
Theorem add_tags_stop_iteration (test : list char) (tags : list (list char)) :
  add_tags char_eq_dec isspace newline tab test tags = Raise StopIteration <->
  (List.length tags < List.length (process_test isspace test))%nat.
Proof.
  rewrite add_tags_closed. unfold process_test.
  destruct (Nat.leb_spec (List.length (str_split isspace test)) (List.length tags)).
  - split; [discriminate | lia].
  - split; [auto | reflexivity].
Qed.

Lemma tagged_text_last (split_test : list (list (list char))) :
  split_test <> [] ->
  forall tags, exists y, tagged_text newline tab split_test tags = y ++ [newline].
Proof.
  induction split_test as [| s rest IH]; intros Hne tags; [congruence |].
  cbn [tagged_text]. destruct rest as [| s' rest'].
  - exists (tagged_lines newline tab s tags). cbn [tagged_text]. now rewrite app_nil_r.
  - destruct (IH ltac:(discriminate) (skipn (List.length s) tags)) as (y & ->).
    exists (tagged_lines newline tab s tags ++ [newline] ++ y).
    now rewrite <- !app_assoc.
Qed.

Lemma str_split_tagged_lines (s : list (list char)) :
  forall tags rest,
    Forall (token isspace) s -> Forall (token isspace) tags ->
    (List.length s <= List.length tags)%nat ->
    str_split isspace (tagged_lines newline tab s tags ++ rest)
    = interleave s tags ++ str_split isspace rest.
Proof.
  induction s as [| w s IH]; intros tags rest Hs Htags Hlen; [reflexivity |].
  destruct tags as [| t ts]; [simpl in Hlen; lia |].
  inversion Hs as [| ? ? Hw Hs']; subst. inversion Htags as [| ? ? Ht Hts]; subst.
  rewrite tagged_lines_cons, <- !app_assoc. cbn [app].
  rewrite (str_split_token w _ tab Hw tab_space).
  rewrite (str_split_token t _ newline Ht newline_space).
  rewrite IH by (assumption || (simpl in Hlen; lia)). reflexivity.
Qed.

Lemma str_split_tagged_text (split_test : list (list (list char))) :
  forall tags,
    Forall (Forall (token isspace)) split_test -> Forall (token isspace) tags ->
    (List.length (List.concat split_test) <= List.length tags)%nat ->
    str_split isspace (tagged_text newline tab split_test tags)
    = interleave (List.concat split_test) tags.
Proof.
  induction split_test as [| s rest IH]; intros tags Hss Htags Hlen; [reflexivity |].
  inversion Hss as [| ? ? Hs Hrest]; subst.
  cbn [List.concat] in *. rewrite length_app in Hlen.
  cbn [tagged_text]. rewrite str_split_tagged_lines by (assumption || lia).
  cbn [app]. rewrite (str_split_leading_space newline _ newline_space).
  rewrite IH; [| assumption | now apply Forall_skipn | rewrite length_skipn; lia].
  unfold interleave. rewrite combine_app_skipn by lia. now rewrite flat_map_app.
Qed.

(** X21.  Round trip through the writer and the reader.  When the newline
    and the tab are whitespace, every tag is a non-empty string without
    whitespace and there are at least as many tags as words, the text
    [add_tags] writes reads back with [process_train] as the words of the
    test text paired, in order, with the first tags. *)
Theorem add_tags_round_trip (test : list char) (tags : list (list char)) :
  Forall (token isspace) tags ->
  (List.length (process_test isspace test) <= List.length tags)%nat ->
  exists out training_sent_init,
    add_tags char_eq_dec isspace newline tab test tags = Ok out /\
    process_train char_eq_dec isspace newline out
    = Ok (process_test isspace test,
          firstn (List.length (process_test isspace test)) tags,
          combine (process_test isspace test)
                  (firstn (List.length (process_test isspace test)) tags),
          training_sent_init).
Proof.
  unfold process_test. intros Htags Hlen.
  set (split_test := map (str_split isspace) (str_split_blank char_eq_dec newline test)).
  destruct (tagged_text_last split_test) with (tags := tags) as (y & Hy).
  { unfold split_test, str_split_blank.
    pose proof (str_split_blank_from_nonempty (List.length test) test [] (le_n _)) as H.
    destruct (str_split_blank_from char_eq_dec newline [] test); [congruence | discriminate]. }
  assert (Htok : str_split isspace y = interleave (str_split isspace test) tags).
  { rewrite <- (str_split_trailing_space y newline newline_space), <- Hy.
    rewrite str_split_tagged_text.
    - unfold split_test. now rewrite str_split_blank_concat.
    - unfold split_test. apply Forall_map. apply Forall_forall. intros sent _.
      apply str_split_tokens.
    - assumption.
    - unfold split_test. now rewrite str_split_blank_concat. }
  destruct (interleave_slices (str_split isspace test) tags Hlen) as (E1 & E2 & E3).
  exists y. eexists. split.
  - rewrite add_tags_closed. fold split_test.
    destruct (Nat.leb_spec (List.length (str_split isspace test)) (List.length tags));
      [| lia].
    now rewrite Hy, removelast_last.
  - rewrite process_train_closed. cbv zeta. rewrite Htok, E1, E2, E3. reflexivity.
Qed.
End CorpusFacts.

(** ** Examples on 8-bit characters *)

Lemma process_train_sentence_initial_witness :
  let text := list_ascii_of_string "a A b B" ++ ["010"; "010"]%char
              ++ list_ascii_of_string "c C" in
  [["A"]; ["B"]; ["C"]]%char
  = flat_map (fun sent => odds (str_split ascii_isspace sent))
             (str_split_blank ascii_dec "010"%char text) /\
  [["A"]; ["C"]]%char
  = flat_map (fun sent => firstn 1 (odds (str_split ascii_isspace sent)))
             (str_split_blank ascii_dec "010"%char text) /\
  incl [["A"]; ["C"]]%char [["A"]; ["B"]; ["C"]]%char.
Proof.
  intros text.
  apply (process_train_sentence_initial ascii ascii_dec ascii_isspace "010"%char eq_refl
           text [["a"]; ["b"]; ["c"]]%char [["A"]; ["B"]; ["C"]]%char
           [(["a"], ["A"]); (["b"], ["B"]); (["c"], ["C"])]%char
           [["A"]; ["C"]]%char).
  - vm_compute. reflexivity.
  - vm_compute. repeat constructor.
Defined.

Lemma add_tags_stop_iteration_witness :
  add_tags ascii_dec ascii_isspace "010"%char "009"%char
           (list_ascii_of_string "a b") [["X"]]%char
  = Raise StopIteration.
Proof.
  apply (add_tags_stop_iteration ascii ascii_dec ascii_isspace "010"%char "009"%char
           eq_refl).
  vm_compute. repeat constructor.
Defined.

Lemma add_tags_round_trip_witness :
  let test := list_ascii_of_string "a b" ++ ["010"; "010"]%char
              ++ list_ascii_of_string "c" in
  let tags := [["X"]; ["Y"]; ["Z"]]%char in
  exists out training_sent_init,
    add_tags ascii_dec ascii_isspace "010"%char "009"%char test tags = Ok out /\
    process_train ascii_dec ascii_isspace "010"%char out
    = Ok (process_test ascii_isspace test,
          firstn (List.length (process_test ascii_isspace test)) tags,
          combine (process_test ascii_isspace test)
                  (firstn (List.length (process_test ascii_isspace test)) tags),
          training_sent_init).
Proof.
  intros test tags.
  apply (add_tags_round_trip ascii ascii_dec ascii_isspace "010"%char "009"%char
           eq_refl eq_refl test tags).
  - repeat constructor; discriminate.
  - vm_compute. repeat constructor.
Defined.

(** * Every test word can be emitted *)

(** X22.  On the table trained from a corpus whose tags are all in the
    (non-empty, duplicate-free) tag set, with the training vocabulary
    holding the words of the corpus, [add_emis] with the unknown words of
    a test vocabulary succeeds, and afterwards every word of the test
    vocabulary has a finite emission entry under at least one tag. *)
Theorem patched_table_covers_test_vocab
  (training_tagged : list (string * string))
  (pos training_vocab test_vocab : list string) :
  NoDup pos -> pos <> [] ->
  (forall w tag, In (w, tag) training_tagged -> In tag pos) ->
  (forall w, In w training_vocab <-> In w (map fst training_tagged)) ->
  exists emis_prob patched,
    find_emis_prob training_tagged pos = Ok emis_prob /\
    add_emis pos emis_prob (unknown_words test_vocab training_vocab) = Ok patched /\
    forall w, In w test_vocab ->
      exists tag e, In tag pos /\ entry patched tag w = Some e /\ is_neg_inf e = false.
Proof.
  intros Hnd Hne Htags Hvocab.
  destruct (find_emis_prob_table training_tagged pos Hnd Htags) as (emis & Hok & Hent).
  destruct (find_emis_prob_spec training_tagged pos Hnd Htags) as (emis0 & Hok0 & Hk & _).
  assert (emis0 = emis) by congruence. subst emis0.
  destruct (patch_total (fun _ => Ok (lit 0)) pos
              (unknown_words test_vocab training_vocab) emis) as (patched & Hp).
  { intros j Hj. split; [now rewrite Hk | eauto]. }
  exists emis, patched. split; [assumption |]. split; [exact Hp |].
  destruct (patch_spec _ _ _ _ _ Hp) as (_ & Hold & Hnew).
  intros w Hw. destruct (in_dec string_dec w training_vocab) as [Hin | Hout].
  - apply Hvocab, in_map_iff in Hin. destruct Hin as ([w' tag] & Heq & Hin).
    simpl in Heq. subst w'.
    exists tag. eexists. split; [eauto |].
    rewrite Hold, Hent.
    + apply pair_count_seen in Hin.
      destruct (Z.eqb_spec (pair_count training_tagged w tag) 0); [contradiction |].
      split; reflexivity.
    + rewrite unknown_words_spec. intros [_ H]. apply H, Hvocab.
      change w with (fst (w, tag)). now apply in_map.
  - destruct pos as [| tag pos]; [congruence |].
    destruct (Hnew tag w) as (v & Hv & He);
      [apply unknown_words_spec; auto | now left |].
    injection Hv as <-. exists tag, (lit 0). split; [now left |]. split; [assumption | reflexivity].
Qed.

Lemma patched_table_covers_test_vocab_witness :
  exists emis_prob patched,
    find_emis_prob [("a", "A"); ("b", "B")] ["A"; "B"] = Ok emis_prob /\
    add_emis ["A"; "B"] emis_prob (unknown_words ["a"; "u"] ["a"; "b"]) = Ok patched /\
    forall w, In w ["a"; "u"] ->
      exists tag e, In tag ["A"; "B"] /\ entry patched tag w = Some e /\
                    is_neg_inf e = false.
Proof.
  apply (patched_table_covers_test_vocab [("a", "A"); ("b", "B")] ["A"; "B"] ["a"; "b"]
           ["a"; "u"]).
  - repeat constructor; simpl; intuition discriminate.
  - discriminate.
  - simpl. intros w tag [[= <- <-] | [[= <- <-] | []]]; auto.
  - intros w. simpl. tauto.
Defined.

(** * Decoding with finite initial and transition scores *)

Lemma add_is_finite (x y : num) :
  is_neg_inf x = false -> is_neg_inf y = false -> is_neg_inf (add x y) = false.
Proof. destruct x, y; simpl; congruence. Qed.

Section FiniteScores.
Variables observations states : list string.
Variable init_prob : dict num.
Variables trans_prob emis_prob : dict (dict num).
Variable viterbi : list (dict num).
Variable backpointer : list (dict cell).
Hypothesis Hforward :
  forward observations states init_prob trans_prob emis_prob = Ok (viterbi, backpointer).
Hypothesis Hnodup : NoDup states.
Hypothesis Hinit :
  forall j, In j states -> exists a, get j init_prob = Some a /\ is_neg_inf a = false.
Hypothesis Htrans :
  forall i j, In i states -> In j states ->
    exists a, entry trans_prob i j = Some a /\ is_neg_inf a = false.
Hypothesis Hemis :
  forall w, In w observations ->
    exists j e, In j states /\ entry emis_prob j w = Some e /\ is_neg_inf e = false.

(** Every row of the chart has a finite cell. *)
Lemma finite_cell (t : nat) :
  (t < List.length observations)%nat ->
  exists row j v,
    nth_error viterbi t = Some row /\ In j states /\ get j row = Some v /\
    is_neg_inf v = false.
Proof.
  induction t as [| t IH]; intros Ht.
  - assert (Hobs : observations <> []) by (intros E; rewrite E in Ht; simpl in Ht; lia).
    destruct observations as [| w0 rest] eqn:Eobs; [congruence |].
    destruct (Hemis w0 (or_introl eq_refl)) as (j & e & Hj & He & Hfin).
    destruct (chart_first_row _ _ _ _ _ _ _ Hforward Hnodup j Hobs Hj)
      as (row & w & Hrow & Hw & Hget).
    simpl in Hw. injection Hw as <-.
    destruct (Hinit j Hj) as (a & Ha & Hafin).
    exists row, j, (start_score init_prob emis_prob w0 j).
    split; [assumption |]. split; [assumption |]. split; [assumption |].
    unfold start_score. rewrite He, Ha. now apply add_is_finite.
  - destruct IH as (before & i & vi & Hbefore & Hi & Hvi & Hfin); [lia |].
    destruct (nth_error observations (S t)) as [w |] eqn:Hw;
      [| apply nth_error_None in Hw; lia].
    destruct (forward_step _ _ _ _ _ _ _ _ _ Hforward Hw)
      as (before' & cur & brow & Hb' & Hcur & _ & Hfill).
    assert (before' = before) by congruence. subst before'.
    destruct (Hemis w (nth_error_In _ _ Hw)) as (j & e & Hj & He & Hefin).
    destruct (fill_rows_get _ _ _ _ j Hfill Hnodup Hj) as (v & b & Hc & Hv & _).
    exists cur, j, v. split; [assumption |]. split; [assumption |]. split; [assumption |].
    pose proof (rec_cell_upper _ _ _ _ _ _ _ _ _ _ Hc Hi Hvi) as Hle.
    eapply num_le_finite; [exact Hle |].
    unfold step_score. rewrite He.
    destruct (Htrans i j Hi Hj) as (a & -> & Hafin).
    now repeat apply add_is_finite.
Qed.
End FiniteScores.

(** X23.  A sufficient condition for success.  With distinct tags, none
    of them ["origin"], a finite initial score for every tag, a finite
    transition score for every pair of tags, an emission row for every tag
    and, for every observed word, a finite emission score under at least
    one tag, the call returns one tag per observation. *)
Theorem decode_succeeds_on_finite_scores
  (observations states : list string) (init_prob : dict num)
  (trans_prob emis_prob : dict (dict num)) :
  NoDup states -> ~ In origin states -> observations <> [] ->
  (forall j, In j states -> exists a, get j init_prob = Some a /\ is_neg_inf a = false) ->
  (forall i j, In i states -> In j states ->
     exists a, entry trans_prob i j = Some a /\ is_neg_inf a = false) ->
  (forall j, In j states -> In j (keys emis_prob)) ->
  (forall w, In w observations ->
     exists j e, In j states /\ entry emis_prob j w = Some e /\ is_neg_inf e = false) ->
  exists tags,
    viterbi_algorithm observations states init_prob trans_prob emis_prob = Ok tags /\
    List.length tags = List.length observations.
Proof.
  intros Hnd Hor Hobs Hinit Htrans Hrows Hemis.
  destruct (forward_total states init_prob trans_prob emis_prob) with (observations := observations)
    as (V & B & Hf); try assumption.
  { intros j Hj. destruct (Hinit j Hj) as (a & Ha & _). apply get_in_keys. congruence. }
  { intros i j Hi Hj. destruct (Htrans i j Hi Hj) as (a & Ha & _). congruence. }
  assert (HT : (0 < List.length observations)%nat)
    by (destruct observations; [congruence | simpl; lia]).
  destruct (finite_cell _ _ _ _ _ _ _ Hf Hnd Hinit Htrans Hemis
              (List.length observations - 1)%nat) as (row & j & x & Hrow & Hj & Hx & Hfin);
    [lia |].
  destruct (termination_total observations V row Hobs Hrow) as (final & Hterm).
  { intros ->. discriminate. }
  destruct (decode_outcome _ _ _ _ _ _ _ _ Hnd Hor Hf Hterm)
    as (Hfinal & (last_round & v & Hlast & Hv & Hmax) & Hres).
  assert (last_round = row) by congruence. subst last_round.
  assert (Hvfin : is_neg_inf v = false).
  { specialize (Hmax j x Hj Hx). apply pair_le_iff in Hmax. simpl in Hmax.
    apply (num_le_finite x v); [| assumption].
    unfold num_le. destruct Hmax as [Hlt | [Heq _]]; [| unfold num_eq in Heq]; congruence. }
  destruct (finite_chain _ _ _ _ _ _ _ Hf Hnd _ _ _ _ Hrow Hfinal Hv Hvfin) as (c & Hc).
  rewrite Hc in Hres. exists (rev c). split; [exact Hres |].
  rewrite length_rev, (chain_length _ _ _ _ Hc). lia.
Qed.

Lemma decode_succeeds_on_finite_scores_witness :
  exists tags,
    viterbi_algorithm ["b"; "a"] ["A"; "B"] [("A", lit 0); ("B", log2 (1 # 2))]
      [("A", [("A", log2 (1 # 2)); ("B", log2 (1 # 2))]);
       ("B", [("A", log2 (1 # 4)); ("B", log2 (3 # 4))])]
      [("A", [("a", lit 0)]); ("B", [("b", lit 0)])] = Ok tags /\
    List.length tags = List.length ["b"; "a"].
Proof.
  apply (decode_succeeds_on_finite_scores ["b"; "a"] ["A"; "B"]).
  - repeat constructor; simpl; intuition discriminate.
  - simpl. intuition discriminate.
  - discriminate.
  - intros j [<- | [<- | []]]; eexists; split; reflexivity.
  - intros i j [<- | [<- | []]] [<- | [<- | []]]; eexists; split; reflexivity.
  - simpl. tauto.
  - intros w [<- | [<- | []]].
    + exists "B". eexists. split; [simpl; auto | split; reflexivity].
    + exists "A". eexists. split; [simpl; auto | split; reflexivity].
Defined.

(** * The order in which the tags are iterated *)

(** [pos] is a Python set of strings: the order in which its elements are
    visited differs from run to run.  The decoder does not depend on it. *)

Lemma get_tab {V : Type} (f : string -> V) (js : list string) (i : string) :
  get i (tab f js) = if in_dec string_dec i js then Some (f i) else None.
Proof.
  unfold tab. induction js as [| j js IH]; simpl; [reflexivity |].
  destruct (String.eqb_spec j i) as [-> | Hne].
  - destruct (string_dec i i); [reflexivity | congruence].
  - rewrite IH. destruct (string_dec j i); [congruence |].
    destruct (in_dec string_dec i js); reflexivity.
Qed.

Lemma get_tab_perm {V : Type} (f : string -> V) (js js' : list string) (i : string) :
  Permutation js js' -> get i (tab f js) = get i (tab f js').
Proof.
  intros Hp. rewrite !get_tab.
  destruct (in_dec string_dec i js) as [H | H];
    destruct (in_dec string_dec i js') as [H' | H']; try reflexivity.
  - destruct H'. eapply Permutation_in; eauto.
  - destruct H. eapply Permutation_in; [apply Permutation_sym |]; eauto.
Qed.

Lemma all_ok_or_raise {E A B : Type} (f : A -> result E B) (e : E) (l : list A) :
  (forall x, In x l -> (exists y, f x = Ok y) \/ f x = Raise e) ->
  (forall x, In x l -> exists y, f x = Ok y) \/ (exists x, In x l /\ f x = Raise e).
Proof.
  induction l as [| x l IH]; intros H; [left; intros x [] |].
  destruct (H x (or_introl eq_refl)) as [Hx | Hx]; [| right; exists x; simpl; auto].
  destruct IH as [IH | (y & Hy & Hr)]; [intros y Hy; apply H; now right | |].
  - left. intros y [<- | Hy]; auto.
  - right. exists y. simpl. auto.
Qed.

Lemma mapM_map {E A B : Type} (f : A -> result E B) (h : A -> B) (l : list A) :
  (forall x, In x l -> f x = Ok (h x)) -> mapM f l = Ok (map h l).
Proof.
  induction l as [| x l IH]; intros H; [reflexivity |].
  simpl. rewrite (H x (or_introl eq_refl)), IH; [reflexivity |].
  intros y Hy. apply H. now right.
Qed.

Lemma mapM_ext_in {E A B : Type} (f g : A -> result E B) (l : list A) :
  (forall x, In x l -> f x = g x) -> mapM f l = mapM g l.
Proof.
  induction l as [| x l IH]; intros H; [reflexivity |].
  simpl. rewrite (H x (or_introl eq_refl)), IH; [reflexivity |].
  intros y Hy. apply H. now right.
Qed.

Lemma fill_rows_tab (body : string -> result exn (num * cell))
  (f : string -> num) (g : string -> cell) (js : list string) :
  (forall j, In j js -> body j = Ok (f j, g j)) ->
  fill_rows body js = Ok (tab f js, tab g js).
Proof.
  induction js as [| j js IH]; intros H; [reflexivity |].
  simpl. rewrite (H j (or_introl eq_refl)). cbn [bind]. rewrite IH; [reflexivity |].
  intros j' Hj'. apply H. now right.
Qed.

Lemma fill_rows_raise (body : string -> result exn (num * cell)) (e : exn)
  (js : list string) :
  (forall j, In j js -> (exists c, body j = Ok c) \/ body j = Raise e) ->
  (exists j, In j js /\ body j = Raise e) ->
  fill_rows body js = Raise e.
Proof.
  induction js as [| j js IH]; intros Hall (j0 & Hin & Hj0); [destruct Hin |].
  simpl. destruct (Hall j (or_introl eq_refl)) as [([v b] & Hy) | Hy]; rewrite Hy;
    cbn [bind]; [| reflexivity].
  rewrite IH; [reflexivity | intros z Hz; apply Hall; now right |].
  destruct Hin as [<- | Hin]; [congruence | eauto].
Qed.

Lemma fill_rows_perm (body body' : string -> result exn (num * cell)) (e : exn)
  (js js' : list string) :
  Permutation js js' ->
  (forall j, In j js -> body j = body' j) ->
  (forall j, In j js -> (exists c, body j = Ok c) \/ body j = Raise e) ->
  (fill_rows body js = Raise e /\ fill_rows body' js' = Raise e)
  \/ (exists f g, fill_rows body js = Ok (tab f js, tab g js) /\
                  fill_rows body' js' = Ok (tab f js', tab g js')).
Proof.
  intros Hp Hext Hall.
  assert (Hin : forall j, In j js' -> In j js).
  { intros j. apply Permutation_in. now apply Permutation_sym. }
  destruct (all_ok_or_raise body e js Hall) as [Hok | (j & Hj & Hr)].
  - right.
    exists (fun j => match body j with Ok (v, _) => v | Raise _ => NegInf end),
           (fun j => match body j with Ok (_, b) => b | Raise _ => Zero end).
    split; apply fill_rows_tab.
    + intros j Hj. destruct (Hok j Hj) as ([v b] & ->). reflexivity.
    + intros j Hj. rewrite <- (Hext j (Hin j Hj)).
      destruct (Hok j (Hin j Hj)) as ([v b] & ->). reflexivity.
  - left. split; [apply fill_rows_raise; eauto |].
    apply fill_rows_raise.
    + intros j' Hj'. rewrite <- (Hext j' (Hin j' Hj')). auto.
    + exists j. split; [eapply Permutation_in; eauto |]. now rewrite <- (Hext j Hj).
Qed.

(** ** The maximum does not depend on the order of the options *)

Lemma pair_le_antisym (p q : num * string) :
  pair_le p q -> pair_le q p -> snd p = snd q.
Proof.
  intros H1 H2. apply pair_le_iff in H1. apply pair_le_iff in H2.
  assert (Hc : num_cmp (fst q) (fst p) = CompOpp (num_cmp (fst p) (fst q)))
    by apply num_cmp_antisym.
  unfold num_eq in *.
  destruct H1 as [H1 | [E1 L1]]; [rewrite H1 in Hc; simpl in Hc;
                                  destruct H2 as [H2 | [H2 _]]; congruence |].
  destruct H2 as [H2 | [E2 L2]]; [rewrite E1 in Hc; simpl in Hc; congruence |].
  unfold String.leb in L1, L2. rewrite (String.compare_antisym (snd q) (snd p)) in L2.
  destruct (String.compare (snd p) (snd q)) eqn:E; simpl in L1, L2; try discriminate.
  now apply String.compare_eq_iff.
Qed.

Lemma py_max_perm (l l' : list (num * string)) :
  Permutation l l' ->
  (forall p q, In p l -> In q l -> snd p = snd q -> p = q) ->
  py_max l = py_max l'.
Proof.
  intros Hp Hinj. destruct l as [| x l].
  - apply Permutation_nil in Hp. now subst.
  - destruct (py_max_total (x :: l)) as (m & Hm); [discriminate |].
    destruct (py_max_total l') as (m' & Hm').
    { intros ->. apply Permutation_sym, Permutation_nil in Hp. discriminate. }
    rewrite Hm, Hm'. f_equal.
    apply py_max_spec in Hm. apply py_max_spec in Hm'.
    destruct Hm as [Hin Hmax]. destruct Hm' as [Hin' Hmax'].
    assert (Hin'' : In m' (x :: l)) by (eapply Permutation_in; [apply Permutation_sym |]; eauto).
    apply Hinj; [assumption | assumption |].
    apply pair_le_antisym; [apply Hmax' | apply Hmax]; [| assumption].
    eapply Permutation_in; eauto.
Qed.

Lemma options_perm (k : string -> result exn (num * string)) (l l' : list string) :
  Permutation l l' ->
  (forall i y, k i = Ok y -> snd y = i) ->
  (forall i, (exists y, k i = Ok y) \/ k i = Raise KeyError) ->
  (options <- mapM k l ;; py_max options) = (options <- mapM k l' ;; py_max options).
Proof.
  intros Hp Hsnd Hall.
  destruct (all_ok_or_raise k KeyError l (fun i _ => Hall i)) as [Hok | (i & Hi & Hr)].
  - set (h := fun i => match k i with Ok y => y | Raise _ => (NegInf, i) end).
    assert (Hh : forall i, In i l -> k i = Ok (h i)).
    { intros i Hi. unfold h. destruct (Hok i Hi) as (y & ->). reflexivity. }
    rewrite (mapM_map k h l Hh), (mapM_map k h l').
    + cbn [bind]. apply py_max_perm; [now apply Permutation_map |].
      intros p q Hp' Hq' E. apply in_map_iff in Hp'. apply in_map_iff in Hq'.
      destruct Hp' as (i & <- & Hi). destruct Hq' as (i' & <- & Hi').
      rewrite <- (Hsnd i (h i) (Hh i Hi)), <- (Hsnd i' (h i') (Hh i' Hi')) at 1.
      now rewrite E.
    + intros i Hi. apply Hh. eapply Permutation_in; [apply Permutation_sym |]; eauto.
  - rewrite (mapM_raise k l KeyError), (mapM_raise k l' KeyError); eauto.
    exists i. split; [eapply Permutation_in; eauto | assumption].
Qed.

(** ** One cell, one row, the chart *)

Section IterationOrder.
Variables states states' : list string.
Variable init_prob : dict num.
Variables trans_prob emis_prob : dict (dict num).
Hypothesis Hperm : Permutation states states'.

Lemma lookup_tab_perm {V : Type} (f : string -> V) (i : string) :
  lookup i (tab f states) = lookup i (tab f states').
Proof. unfold lookup. now rewrite (get_tab_perm f states states' i Hperm). Qed.

Lemma rec_cell_perm (f : string -> num) (w j : string) :
  rec_cell states trans_prob emis_prob (tab f states) w j
  = rec_cell states' trans_prob emis_prob (tab f states') w j.
Proof.
  unfold rec_cell. destruct (lookup j emis_prob) as [row |]; cbn [bind]; [| reflexivity].
  destruct (mem w row); [| reflexivity].
  set (k := fun i : string =>
              from_i <- lookup i trans_prob ;;
              a <- lookup j from_i ;;
              e <- lookup w row ;;
              Ok (add (add (f i) a) e, i)).
  assert (Hk : forall l, (forall i, In i l -> In i states) ->
            mapM (fun i => v <- lookup i (tab f l) ;;
                           from_i <- lookup i trans_prob ;;
                           a <- lookup j from_i ;;
                           e <- lookup w row ;;
                           Ok (add (add v a) e, i)) l
            = mapM k l).
  { intros l Hl. apply mapM_ext_in. intros i Hi. unfold lookup at 1. rewrite get_tab.
    destruct (in_dec string_dec i l); [reflexivity | contradiction]. }
  rewrite (Hk states (fun i H => H)).
  rewrite (Hk states').
  2:{ intros i. apply Permutation_in. now apply Permutation_sym. }
  assert (E : (options <- mapM k states ;; py_max options)
              = (options <- mapM k states' ;; py_max options)).
  { apply options_perm; [assumption | |].
    - intros i y Hy. unfold k in Hy. bind_inv Hy as r Hr. bind_inv Hy as a Ha.
      bind_inv Hy as e He. now injection Hy as <-.
    - intros i. unfold k, lookup.
      destruct (get i trans_prob) as [r |]; cbn [bind]; [| auto].
      destruct (get j r); cbn [bind]; [| auto].
      destruct (get w row); cbn [bind]; eauto. }
  destruct (mapM k states) as [o | e1], (mapM k states') as [o' | e2]; cbn [bind] in *.
  - rewrite E. reflexivity.
  - rewrite E. reflexivity.
  - rewrite <- E. reflexivity.
  - injection E as ->. reflexivity.
Qed.

Lemma rec_cell_ok_or_key_error (prev : dict num) (w j : string) :
  In j states ->
  (exists c, rec_cell states trans_prob emis_prob prev w j = Ok c)
  \/ rec_cell states trans_prob emis_prob prev w j = Raise KeyError.
Proof.
  intros Hj.
  destruct (rec_cell states trans_prob emis_prob prev w j) as [c | e] eqn:E; [eauto |].
  right. f_equal. unfold rec_cell, lookup at 1 in E.
  destruct (get j emis_prob) as [row |]; cbn [bind] in E; [| congruence].
  destruct (mem w row); [| discriminate].
  match type of E with
  | context [mapM ?g states] =>
      destruct (mapM_ok_or_raise g states KeyError) as [(o & Ho) | Ho]
  end.
  - intros i _. unfold lookup.
    destruct (get i prev); cbn [bind]; [| auto].
    destruct (get i trans_prob) as [r |]; cbn [bind]; [| auto].
    destruct (get j r); cbn [bind]; [| auto].
    destruct (get w row); cbn [bind]; eauto.
  - rewrite Ho in E. cbn [bind] in E.
    destruct (py_max_total o) as (m & Hm).
    { apply mapM_length in Ho. intros ->. destruct states; [destruct Hj | discriminate]. }
    rewrite Hm in E. discriminate.
  - rewrite Ho in E. cbn [bind] in E. congruence.
Qed.

Lemma recursion_perm (rest : list string) :
  forall f,
    (exists e, recursion states trans_prob emis_prob (tab f states) rest = Raise e /\
               recursion states' trans_prob emis_prob (tab f states') rest = Raise e)
    \/ (exists fs gs,
          recursion states trans_prob emis_prob (tab f states) rest
          = Ok (map (fun f => tab f states) fs, map (fun g => tab g states) gs) /\
          recursion states' trans_prob emis_prob (tab f states') rest
          = Ok (map (fun f => tab f states') fs, map (fun g => tab g states') gs)).
Proof.
  induction rest as [| w rest IH]; intros f.
  - right. exists [], []. auto.
  - cbn [recursion].
    destruct (fill_rows_perm (rec_cell states trans_prob emis_prob (tab f states) w)
                (rec_cell states' trans_prob emis_prob (tab f states') w)
                KeyError states states' Hperm)
      as [[-> ->] | (f1 & g1 & -> & ->)].
    + intros j _. apply rec_cell_perm.
    + intros j Hj. now apply rec_cell_ok_or_key_error.
    + left. exists KeyError. auto.
    + cbn [bind]. destruct (IH f1) as [(e & -> & ->) | (fs & gs & -> & ->)].
      * left. exists e. auto.
      * right. exists (f1 :: fs), (g1 :: gs). auto.
Qed.

Lemma forward_perm (observations : list string) :
  (exists e, forward observations states init_prob trans_prob emis_prob = Raise e /\
             forward observations states' init_prob trans_prob emis_prob = Raise e)
  \/ (exists fs gs,
        forward observations states init_prob trans_prob emis_prob
        = Ok (map (fun f => tab f states) fs, map (fun g => tab g states) gs) /\
        forward observations states' init_prob trans_prob emis_prob
        = Ok (map (fun f => tab f states') fs, map (fun g => tab g states') gs)).
Proof.
  unfold forward.
  destruct (fill_rows_perm (init_cell observations init_prob emis_prob)
              (init_cell observations init_prob emis_prob)
              (match observations with [] => IndexError | _ :: _ => KeyError end)
              states states' Hperm)
    as [[-> ->] | (f0 & g0 & -> & ->)].
  - reflexivity.
  - intros j _. destruct observations as [| w rest]; [right; reflexivity |].
    destruct (init_cell_outcome w rest init_prob emis_prob j) as [[_ H] | [_ H]]; auto.
  - left. eexists. split; reflexivity.
  - cbn [at_stage bind]. destruct observations as [| w rest].
    + right. exists [], []. auto.
    + destruct (recursion_perm rest f0) as [(e & -> & ->) | (fs & gs & -> & ->)].
      * left. eexists. split; reflexivity.
      * right. exists (f0 :: fs), (g0 :: gs). auto.
Qed.

Lemma termination_perm (observations : list string) (fs : list (string -> num)) :
  termination observations (map (fun f => tab f states) fs)
  = termination observations (map (fun f => tab f states') fs).
Proof.
  unfold termination.
  destruct (Z.of_nat (List.length observations) - 1 <? 0)%Z; [reflexivity |].
  rewrite !nth_error_map.
  destruct (nth_error fs _) as [f |]; [| reflexivity]. cbn [option_map bind].
  unfold tab. rewrite !map_map.
  rewrite (py_max_perm (map (fun j => (f j, j)) states) (map (fun j => (f j, j)) states'));
    [reflexivity | now apply Permutation_map |].
  intros p q Hp Hq E. apply in_map_iff in Hp. apply in_map_iff in Hq.
  destruct Hp as (i & <- & _). destruct Hq as (i' & <- & _). simpl in E. now subst.
Qed.

Lemma list_index_map {A B : Type} (F : A -> B) (l : list A) (i : Z) :
  list_index (map F l) i
  = match list_index l i with
    | Ok x => Ok (F x)
    | Raise e => Raise e
    end.
Proof.
  unfold list_index. rewrite length_map. cbv zeta.
  destruct ((if (i <? 0)%Z then (i + Z.of_nat (List.length l))%Z else i) <? 0)%Z;
    [reflexivity |].
  rewrite nth_error_map. destruct (nth_error l _); reflexivity.
Qed.

Lemma backtrack_perm (gs : list (string -> cell)) (k : nat) :
  forall predicted_obs final_list,
    backtrack (map (fun g => tab g states) gs) k predicted_obs final_list
    = backtrack (map (fun g => tab g states') gs) k predicted_obs final_list.
Proof.
  induction k as [| k IH]; intros p acc; cbn [backtrack]; rewrite !length_map;
    destruct p as [| s]; rewrite !list_index_map;
    try (destruct (list_index gs _); reflexivity);
    destruct (s =? origin); try reflexivity;
    destruct (list_index gs _) as [g |]; cbn [bind]; try reflexivity;
    rewrite (lookup_tab_perm g s); destruct (lookup s (tab g states')); cbn [bind];
    try reflexivity.
  apply IH.
Qed.
End IterationOrder.

(** X24.  The result of a call, a tag sequence or an exception and the
    step it comes from, is the same for every order in which the tags of
    [states] are iterated. *)
Theorem decode_order_independent
  (observations states states' : list string) (init_prob : dict num)
  (trans_prob emis_prob : dict (dict num)) :
  Permutation states states' ->
  viterbi_algorithm observations states init_prob trans_prob emis_prob
  = viterbi_algorithm observations states' init_prob trans_prob emis_prob.
Proof.
  intros Hperm. unfold viterbi_algorithm.
  destruct (forward_perm states states' init_prob trans_prob emis_prob Hperm observations)
    as [(e & -> & ->) | (fs & gs & -> & ->)]; [reflexivity |].
  cbn [bind]. rewrite (termination_perm states states' Hperm).
  destruct (termination observations _) as [final |]; cbn [at_stage bind]; [| reflexivity].
  rewrite !length_map, (backtrack_perm states states' Hperm). reflexivity.
Qed.

Lemma decode_order_independent_witness :
  viterbi_algorithm ["a"; "b"] ["A"; "B"] [("A", lit 0); ("B", log2 (1 # 2))]
    [("A", [("A", log2 (1 # 2)); ("B", log2 (1 # 2))]);
     ("B", [("A", log2 (1 # 4)); ("B", log2 (3 # 4))])]
    [("A", [("a", log2 (1 # 2)); ("b", log2 (1 # 2))]); ("B", [("b", lit 0)])]
  = viterbi_algorithm ["a"; "b"] ["B"; "A"] [("A", lit 0); ("B", log2 (1 # 2))]
    [("A", [("A", log2 (1 # 2)); ("B", log2 (1 # 2))]);
     ("B", [("A", log2 (1 # 4)); ("B", log2 (3 # 4))])]
    [("A", [("a", log2 (1 # 2)); ("b", log2 (1 # 2))]); ("B", [("b", lit 0)])].
Proof.
  apply (decode_order_independent ["a"; "b"] ["A"; "B"] ["B"; "A"]).
  apply perm_swap.
Defined.

(** * The smoothed patch and its missing keys *)

(** X25.  [laplace_add_emis] fails only with [KeyError], and exactly when
    there is at least one unknown word and some tag of [pos] has no row in
    the table or no unseen value; with no unknown word it returns the
    table as it is. *)
Theorem laplace_add_emis_key_error (pos : list string) (table : dict (dict num))
  (unknown : list string) (unseen_values : dict Q) :
  (laplace_add_emis pos table unknown unseen_values = Raise KeyError <->
   unknown <> [] /\
   exists j, In j pos /\ (~ In j (keys table) \/ ~ In j (keys unseen_values))) /\
  (forall e, laplace_add_emis pos table unknown unseen_values = Raise e -> e = KeyError) /\
  laplace_add_emis pos table [] unseen_values = Ok table.
Proof.
  set (value := fun j : string => x <- lookup j unseen_values ;; Ok (lit x)).
  assert (Hval : forall j, (In j (keys unseen_values) /\ exists v, value j = Ok v)
                           \/ (~ In j (keys unseen_values) /\ value j = Raise KeyError)).
  { intros j. unfold value, lookup. rewrite <- get_in_keys.
    destruct (get j unseen_values); cbn [bind]; [left | right].
    - split; [discriminate | eauto].
    - split; [congruence | reflexivity]. }
  assert (Hval' : forall j, (exists v, value j = Ok v) \/ value j = Raise KeyError).
  { intros j. destruct (Hval j) as [[_ H] | [_ H]]; auto. }
  assert (Hcases :
    unknown = [] \/
    (unknown <> [] /\ exists t, laplace_add_emis pos table unknown unseen_values = Ok t /\
                       incl pos (keys table) /\ incl pos (keys unseen_values)) \/
    (unknown <> [] /\ laplace_add_emis pos table unknown unseen_values = Raise KeyError /\
     exists j, In j pos /\ (~ In j (keys table) \/ ~ In j (keys unseen_values)))).
  { destruct unknown as [| word rest]; [now left | right].
    destruct (incl_or_not pos (keys table)) as [Ht | (j & Hj & Hnot)].
    - destruct (incl_or_not pos (keys unseen_values)) as [Hu | (j & Hj & Hnot)].
      + left. split; [discriminate |].
        destruct (patch_total value pos (word :: rest) table) as (t & Ht').
        { intros j Hj. split; [auto |].
          destruct (Hval j) as [[_ H] | [H _]]; [assumption | destruct H; auto]. }
        exists t. auto.
      + right. split; [discriminate |]. split; [| eauto].
        apply (patch_key_error value Hval'); [discriminate |].
        exists j. split; [assumption |]. right.
        destruct (Hval j) as [[H _] | [_ H]]; [contradiction | assumption].
    - right. split; [discriminate |]. split; [| eauto].
      apply (patch_key_error value Hval'); [discriminate | eauto]. }
  split; [| split; [| reflexivity]].
  - destruct Hcases as [-> | [(Hne & t & -> & Ht & Hu) | (Hne & -> & Hbad)]].
    + split; [discriminate | intros [H _]; congruence].
    + split; [discriminate |].
      intros (_ & j & Hj & [H | H]); destruct H; auto.
    + split; auto.
  - intros e He.
    destruct Hcases as [-> | [(Hne & t & Hok & _) | (Hne & Hr & _)]];
      [discriminate | congruence | congruence].
Qed.

(** * What a cell of the chart holds *)

(** X26.  The invariant of the chart.  For distinct tags, once
    initialization and recursion have run, the score stored for tag [j]
    at time [t] is the greatest score of a tag path that ends in [j] at
    time [t]: no such path scores more, and some path scores exactly that
    (paths are listed from [j] backwards). *)
Theorem chart_cell_is_best_path_score
  (observations states : list string) (init_prob : dict num)
  (trans_prob emis_prob : dict (dict num))
  (viterbi : list (dict num)) (backpointer : list (dict cell)) (t : nat) (j : string) :
  forward observations states init_prob trans_prob emis_prob = Ok (viterbi, backpointer) ->
  NoDup states -> In j states -> (t < List.length observations)%nat ->
  exists row v,
    nth_error viterbi t = Some row /\ get j row = Some v /\
    (forall rest,
       List.length rest = t -> Forall (fun i => In i states) rest ->
       num_le (rscore init_prob trans_prob emis_prob observations t (j :: rest)) v) /\
    (exists rest,
       List.length rest = t /\ Forall (fun i => In i states) rest /\
       num_eq (rscore init_prob trans_prob emis_prob observations t (j :: rest)) v).
Proof.
  intros Hf Hnd Hj Ht.
  assert (Hrep : Forall (fun i => In i states) (repeat j t)).
  { apply Forall_forall. intros i Hi. apply repeat_spec in Hi. now subst. }
  destruct (rscore_bound _ _ _ _ _ _ _ Hf Hnd t j (repeat j t)) as (row & v & Hrow & Hv & Hle);
    [apply repeat_length | now constructor | assumption |].
  exists row, v. split; [assumption |]. split; [assumption |]. split.
  - intros rest Hlen Hall.
    destruct (rscore_bound _ _ _ _ _ _ _ Hf Hnd t j rest) as (row' & v' & Hrow' & Hv' & Hle');
      [assumption | now constructor | assumption |].
    assert (row' = row) by congruence. subst row'.
    assert (v' = v) by congruence. now subst v'.
  - destruct (is_neg_inf v) eqn:Hfin.
    + exists (repeat j t). split; [apply repeat_length |]. split; [assumption |].
      destruct v; [| discriminate]. unfold num_le in Hle. unfold num_eq.
      destruct (rscore init_prob trans_prob emis_prob observations t (j :: repeat j t));
        simpl in *; congruence.
    + destruct (finite_chain _ _ _ _ _ _ _ Hf Hnd _ _ _ _ Hrow Hj Hv Hfin) as (c & Hc).
      destruct (chain_score _ _ _ _ _ _ _ Hf Hnd _ _ _ Hc Hj) as (row' & Hrow' & Hv').
      assert (row' = row) by congruence. subst row'.
      destruct (chain_head _ _ _ _ Hc) as (rest & ->).
      pose proof (chain_length _ _ _ _ Hc) as Hlen.
      pose proof (chain_in_states _ _ (forward_wf _ _ _ _ _ _ _ Hf Hnd) _ _ _ Hc Hj) as Hall.
      exists rest. split; [simpl in Hlen; lia |].
      split; [now inversion Hall |].
      assert (E : v = rscore init_prob trans_prob emis_prob observations t (j :: rest))
        by congruence.
      rewrite <- E. apply num_cmp_refl.
Qed.

Lemma chart_cell_is_best_path_score_witness :
  let init_prob := [("A", lit 0); ("B", log2 (1 # 2))] in
  let trans_prob := [("A", [("A", log2 (1 # 2)); ("B", log2 (1 # 2))]);
                     ("B", [("A", log2 (1 # 4)); ("B", log2 (3 # 4))])] in
  let emis_prob := [("A", [("a", log2 (1 # 2)); ("b", log2 (1 # 2))]);
                    ("B", [("b", lit 0)])] in
  exists viterbi backpointer row v,
    forward ["a"; "b"] ["A"; "B"] init_prob trans_prob emis_prob
    = Ok (viterbi, backpointer) /\
    nth_error viterbi 1 = Some row /\ get "B" row = Some v /\
    (forall rest,
       List.length rest = 1%nat -> Forall (fun i => In i ["A"; "B"]) rest ->
       num_le (rscore init_prob trans_prob emis_prob ["a"; "b"] 1 ("B" :: rest)) v) /\
    (exists rest,
       List.length rest = 1%nat /\ Forall (fun i => In i ["A"; "B"]) rest /\
       num_eq (rscore init_prob trans_prob emis_prob ["a"; "b"] 1 ("B" :: rest)) v).
Proof.
  intros init_prob trans_prob emis_prob.
  destruct (forward ["a"; "b"] ["A"; "B"] init_prob trans_prob emis_prob)
    as [[viterbi backpointer] | e] eqn:Hf; [| vm_compute in Hf; discriminate].
  destruct (chart_cell_is_best_path_score ["a"; "b"] ["A"; "B"] init_prob trans_prob
              emis_prob viterbi backpointer 1 "B" Hf) as (row & v & H).
  - repeat constructor; simpl; intuition discriminate.
  - simpl. auto.
  - simpl. lia.
  - exists viterbi, backpointer, row, v. split; [reflexivity | exact H].
Defined.
